(** * GWSumm: channel resolution, archive store and tab state processing

    A shallow embedding of [gwsumm/channels.py], [gwsumm/archive.py] and of
    [gwsumm/tabs/builtin.py] (the plotting stage, the reading of a tab's
    configuration and the queries a tab answers about its plots), with the
    properties the design document states about them and further ones the
    code shows.

    Conventions.
    - Process-wide globals ([globalv.CHANNELS], [globalv.WRITTEN_PLOTS],
      [globalv.DATA], ...) are threaded explicitly through every function.
    - A Python function that may raise returns a [result].
    - Recursion that Python bounds by the interpreter's recursion limit is
      bounded by a [fuel] argument; running out of fuel is the interpreter's
      [RuntimeError("maximum recursion depth exceeded")]. *)

From Stdlib Require Import Ascii String QArith.
From stdpp Require Import base list strings sorting gmap pretty.


Open Scope nat_scope.

(** ** Python's [sorted(l, key=...)]

    [sorted] is guaranteed stable, so its output is determined by the input
    and the key alone; a stable insertion sort computes the same list. *)

Section Sorted.
Context {A : Type} (key : A → nat).

(** [x] is placed before the first element whose key is not smaller:
    an element that came earlier stays ahead of its equals. *)
Fixpoint insert_by (x : A) (l : list A) : list A :=
  match l with
  | [] => [x]
  | y :: l' => if key x <=? key y then x :: y :: l' else y :: insert_by x l'
  end.

Fixpoint sorted (l : list A) : list A :=
  match l with
  | [] => []
  | x :: l' => insert_by x (sorted l')
  end.
End Sorted.

(** ** Tab state processing: [SimpleStateTab.process_state] *)

Module Tabs.

(** [State]: only its name is inspected by the plotting stage. *)
Record State := { state_name : string }.

(** The attributes of a plot object that [process_state] reads or writes. *)
Record Plot := {
  outputfile : string;
  new : bool;
  state : option State;
  _threadsafe : bool
}.

Definition set_new (b : bool) (p : Plot) : Plot :=
  {| outputfile := outputfile p; new := b; state := state p;
     _threadsafe := _threadsafe p |}.

(** What happens to a selected plot: handed to a worker process through
    the plot queue, or processed inline. *)
Inductive event :=
| Queued (p : Plot)
| Processed (p : Plot).

Definition event_plot (e : event) : Plot :=
  match e with Queued p | Processed p => p end.

Definition is_written (f : string) (WRITTEN_PLOTS : list string) : bool :=
  existsb (String.eqb f) WRITTEN_PLOTS.

(** [for p in self.plots: if p.outputfile in globalv.WRITTEN_PLOTS:
    p.new = False] *)
Definition flag_written (WRITTEN_PLOTS : list string) (plots : list Plot)
  : list Plot :=
  map (λ p, if is_written (outputfile p) WRITTEN_PLOTS
            then set_new false p else p) plots.

(** [p.new and (p.state is None or p.state.name == state.name)] *)
Definition selected (st : State) (p : Plot) : bool :=
  new p && match state p with
           | None => true
           | Some s => String.eqb (state_name s) (state_name st)
           end.

Definition new_plots (st : State) (plots : list Plot) : list Plot :=
  List.filter (selected st) plots.

(** [key=lambda p: p._threadsafe and 1 or 2] *)
Definition plot_key (p : Plot) : nat := if _threadsafe p then 1 else 2.

(** One iteration of the plotting loop: the output file is recorded
    first, then the plot is queued or processed. *)
Definition dispatch (plotqueue : bool) (acc : list string * list event)
    (plot : Plot) : list string * list event :=
  let '(WRITTEN_PLOTS, trace) := acc in
  (WRITTEN_PLOTS ++ [outputfile plot],
   trace ++ [if plotqueue && _threadsafe plot
             then Queued plot else Processed plot]).

(** The result of one call: the tab's plots (their [new] flags are
    mutated in place), the shared list of written plots, and the plots
    dispatched by this call, in order.  The data, segment and trigger
    acquisitions between the flagging loop and the plotting loop are
    calls into other modules; [acquisition] is their outcome, and an
    exception raised there leaves [process_state] before any plot is
    touched. *)
Definition process_state {E : Type} (plots : list Plot) (st : State)
    (plotqueue : bool) (acquisition : option E)
    (WRITTEN_PLOTS : list string)
  : list Plot * list string * list event * option E :=
  let plots' := flag_written WRITTEN_PLOTS plots in
  match acquisition with
  | Some e => (plots', WRITTEN_PLOTS, [], Some e)
  | None =>
      let '(w, trace) :=
        foldl (dispatch plotqueue) (WRITTEN_PLOTS, [])
              (sorted plot_key (new_plots st plots')) in
      (plots', w, trace, None)
  end.

(** A run: successive [process_state] calls on the tabs of one process.
    Tabs are objects, so the flags one call clears stay cleared for the
    next call on the same tab.  [dispatched] keeps the plots each call
    dispatched, one list per call. *)
Record call {E : Type} := {
  call_tab : nat;
  call_state : State;
  call_plotqueue : bool;
  call_acquisition : option E
}.
Arguments call : clear implicits.

Record run_state := {
  tabs : list (list Plot);
  WRITTEN : list string;
  dispatched : list (list event)
}.

Definition start (tabs0 : list (list Plot)) (WRITTEN_PLOTS : list string)
  : run_state :=
  {| tabs := tabs0; WRITTEN := WRITTEN_PLOTS; dispatched := [] |}.

Definition step {E : Type} (s : run_state) (c : call E)
  : run_state * option E :=
  match tabs s !! call_tab c with
  | None => (s, None)
  | Some plots =>
      let '(plots', w, trace, err) :=
        process_state plots (call_state c) (call_plotqueue c)
                      (call_acquisition c) (WRITTEN s) in
      ({| tabs := <[call_tab c := plots']> (tabs s);
          WRITTEN := w;
          dispatched := dispatched s ++ [trace] |}, err)
  end.

(** An exception leaving [process_state] ends the run. *)
Fixpoint run {E : Type} (s : run_state) (cs : list (call E))
  : run_state * option E :=
  match cs with
  | [] => (s, None)
  | c :: cs' =>
      match step s c with
      | (s', Some e) => (s', Some e)
      | (s', None) => run s' cs'
      end
  end.

(** The plots a call dispatches, in the order it does. *)
Definition processed {E : Type} (plots : list Plot) (st : State)
    (plotqueue : bool) (acquisition : option E)
    (WRITTEN_PLOTS : list string) : list Plot :=
  map event_plot
      (process_state plots st plotqueue acquisition WRITTEN_PLOTS).1.2.

(** The output files a call or a run dispatched, in order. *)
Definition paths (trace : list event) : list string :=
  map (λ e, outputfile (event_plot e)) trace.

(** [x] comes before [y] in [l]. *)
Definition before {A : Type} (l : list A) (x y : A) : Prop :=
  ∃ i j, l !! i = Some x ∧ l !! j = Some y ∧ i < j.

(** The event a plot gives rise to. *)
Definition queued_or_processed (plotqueue : bool) (plot : Plot) : event :=
  if plotqueue && _threadsafe plot then Queued plot else Processed plot.

(** Each trace of [ts] is made of files that were neither written before
    nor dispatched by an earlier trace. *)
Fixpoint fresh_traces (W : list string) (ts : list (list event)) : Prop :=
  match ts with
  | [] => True
  | t :: ts' => (∀ f, f ∈ paths t → f ∉ W) ∧ fresh_traces (W ++ paths t) ts'
  end.

(** The same plot object seen before and after some calls: nothing but
    its [new] flag may differ, and the flag is never set again. *)
Definition aged (p p' : Plot) : Prop :=
  outputfile p' = outputfile p ∧ state p' = state p
  ∧ _threadsafe p' = _threadsafe p ∧ (new p' = true → new p = true).

Definition is_queued (e : event) : bool :=
  match e with Queued _ => true | Processed _ => false end.

(** *** Example plots and runs *)

Definition unsafe_plot : Plot :=
  {| outputfile := "unsafe.png"; new := true; state := None;
     _threadsafe := false |}.
Definition safe_plot : Plot :=
  {| outputfile := "safe.png"; new := true; state := None;
     _threadsafe := true |}.
Definition locked : State := {| state_name := "locked" |}.

(** Two entries of one tab that render to the same file. *)
Definition twin_a : Plot :=
  {| outputfile := "twin.png"; new := true; state := None;
     _threadsafe := false |}.
Definition twin_b : Plot :=
  {| outputfile := "twin.png"; new := true; state := Some locked;
     _threadsafe := false |}.

(** Two tabs that share an output file, processed one after the other. *)
Definition shared_tabs : list (list Plot) := [[unsafe_plot]; [unsafe_plot; safe_plot]].
Definition shared_calls : list (call string) :=
  [ {| call_tab := 0; call_state := locked; call_plotqueue := false;
       call_acquisition := None |};
    {| call_tab := 1; call_state := locked; call_plotqueue := true;
       call_acquisition := None |} ].

End Tabs.

(** ** Channel resolution: [gwsumm/channels.py] *)

Module Channels.

(** *** Strings, as the resolver inspects them *)

(** [c in s] for a one-character [c]. *)
Fixpoint contains_char (c : ascii) (s : string) : bool :=
  match s with
  | EmptyString => false
  | String a s' => Ascii.eqb a c || contains_char c s'
  end.

(** [pat in s] *)
Fixpoint contains (pat s : string) : bool :=
  String.prefix pat s ||
  match s with
  | EmptyString => false
  | String _ s' => contains pat s'
  end.

(** [s.rsplit(sep, 1)] when [sep] occurs in [s]: the cut is at the last
    occurrence. *)
Fixpoint rsplit1 (sep : ascii) (s : string) : option (string * string) :=
  match s with
  | EmptyString => None
  | String a s' =>
      match rsplit1 sep s' with
      | Some (p, q) => Some (String a p, q)
      | None => if Ascii.eqb a sep then Some (EmptyString, s') else None
      end
  end.

(** [s.rsplit(sep)[0]]: without a split limit this is the text before the
    first occurrence of [sep]. *)
Fixpoint before_first (sep : ascii) (s : string) : string :=
  match s with
  | EmptyString => EmptyString
  | String a s' =>
      if Ascii.eqb a sep then EmptyString else String a (before_first sep s')
  end.

Definition is_lower (a : ascii) : bool :=
  (97 <=? nat_of_ascii a) && (nat_of_ascii a <=? 122).

Fixpoint all_lower (s : string) : bool :=
  match s with
  | EmptyString => true
  | String a s' => is_lower a && all_lower s'
  end.

(** [re.search('\.[a-z]+\Z', name)]: a dot followed by one or more
    lower-case letters that run to the end of the name. *)
Fixpoint has_trend_suffix (s : string) : bool :=
  match s with
  | EmptyString => false
  | String a s' =>
      (Ascii.eqb a "." && negb (String.eqb s' EmptyString) && all_lower s')
      || has_trend_suffix s'
  end.

(** *** Channel records *)

#[local] Set Warnings "-register-all".

(** The attributes of [gwpy.detector.Channel] that the resolver reads or
    writes.  [bits] and [filter_] are [None] when the object has no such
    attribute ([AttributeError]); [ranges] are the instance attributes whose
    name ends in [_range]; [unit_] and [filter_] carry a trailing underscore
    only to stay clear of names that are taken. *)
Inductive Channel := mkChannel {
  name : string;
  type : option string;
  sample_rate : option Q;
  unit_ : option string;
  url : option string;
  bits : option (list string);
  filter_ : option string;
  ranges : list (string * string);
  subchannels : list Channel;
  _ifo : option string
}.

(** What [get_channel] is called with: a name or a [Channel]. *)
Inductive request :=
| Str (s : string)
| Chan (c : Channel).

(** [str(channel)]: a [Channel] prints as its name. *)
Definition str (channel : request) : string :=
  match channel with
  | Str s => s
  | Chan c => name c
  end.

(** *** Exceptions *)

Inductive exn :=
| AmbiguousChannel (request : string) (found : list Channel)
| ValueError (msg : string)
| RuntimeError (msg : string)
| URLError (msg : string)
| IOError (msg : string)
| OtherError (msg : string).

(** [AmbiguousChannel] is the [ValueError("Ambiguous channel request ...")]
    of [get_channel], kept structured: the message lists [found]. *)
Definition is_ValueError (e : exn) : bool :=
  match e with
  | AmbiguousChannel _ _ | ValueError _ => true
  | _ => false
  end.

Definition is_URLError (e : exn) : bool :=
  match e with
  | URLError _ => true
  | _ => false
  end.

Inductive result (A : Type) :=
| Ok (a : A)
| Raise (e : exn).
Arguments Ok {A} a.
Arguments Raise {A} e.

(** *** What lies outside the repository

    The channel-name grammar and the metadata service belong to gwpy, the
    mode constant to [gwsumm/mode.py], and the iteration order of a [set] to
    the interpreter. *)
Class External := {
  (** [[m.group() for m in Channel.MATCH.finditer(name)]] *)
  MATCH_finditer : string → list string;
  (** [Channel.MATCH.match(name).groupdict()['type']], [None] as well when
      nothing matches ([AttributeError]) *)
  MATCH_type : string → option string;
  (** [Channel(name).ifo] *)
  parse_ifo : string → option string;
  (** [Channel.query(name, timeout=timeout)]; [Raise] for a failed query *)
  Channel_query : string → result Channel;
  (** [c.ndsname] *)
  ndsname : Channel → string;
  (** [SUMMARY_MODE_GPS] *)
  SUMMARY_MODE_GPS : nat;
  (** the order in which a [set] built from a list is iterated *)
  set_iter : list string → list string;
  set_iter_perm : ∀ l, set_iter l ≡ₚ remove_dups l
}.

(** *** Global state *)

(** [globalv.CHANNELS] and [globalv.MODE], with two counters that record
    what the process has done: the names sent to the remote metadata
    service and the number of worker threads started. *)
Record globalv := {
  CHANNELS : list Channel;
  MODE : nat;
  cis_queries : list string;
  threads_started : nat
}.

(** [globalv.CHANNELS.append(new)] *)
Definition CHANNELS_append (new : Channel) (g : globalv) : globalv :=
  {| CHANNELS := CHANNELS g ++ [new]; MODE := MODE g;
     cis_queries := cis_queries g; threads_started := threads_started g |}.

Definition log_query (n : string) (g : globalv) : globalv :=
  {| CHANNELS := CHANNELS g; MODE := MODE g;
     cis_queries := cis_queries g ++ [n];
     threads_started := threads_started g |}.

Definition start_threads (n : nat) (g : globalv) : globalv :=
  {| CHANNELS := CHANNELS g; MODE := MODE g;
     cis_queries := cis_queries g;
     threads_started := threads_started g + n |}.

(** Code that reads and writes the globals and may raise. *)
Definition M (A : Type) : Type := globalv → globalv * result A.

Definition ret {A} (a : A) : M A := λ g, (g, Ok a).
Definition raise {A} (e : exn) : M A := λ g, (g, Raise e).
Definition bind {A B} (m : M A) (k : A → M B) : M B :=
  λ g, match m g with
       | (g', Ok a) => k a g'
       | (g', Raise e) => (g', Raise e)
       end.

(** [try: body  except <handled>: handler  else: orelse] *)
Definition try_except_else {A B} (body : M A) (handled : exn → bool)
    (handler : exn → M B) (orelse : A → M B) : M B :=
  λ g, match body g with
       | (g', Ok a) => orelse a g'
       | (g', Raise e) => if handled e then handler e g' else (g', Raise e)
       end.

Notation "'let!' x ':=' m 'in' k" := (bind m (λ x, k))
  (at level 10, x name, m at level 100, k at level 200, only parsing).

Section Resolver.
Context `{External}.

(** Modelled from the spec: gwpy's constructor [Channel(name)].  The record
    is identified by its [name] and an optional [type] (section 3), and
    [get_channel] itself looks a request [name,type] up under [name] and
    [type]: the text after the last comma is the type, the text before it
    the name; nothing else is known of a new channel but the site prefix
    parsed from its name. *)
Definition Channel_new (s : string) : Channel :=
  let '(n, t) := match rsplit1 "," s with
                 | Some (n, t) => (n, Some t)
                 | None => (s, None)
                 end in
  {| name := n; type := t; sample_rate := None; unit_ := None; url := None;
     bits := None; filter_ := None; ranges := []; subchannels := [];
     _ifo := parse_ifo n |}.

Definition set_name (n : string) (c : Channel) : Channel :=
  mkChannel n (type c) (sample_rate c) (unit_ c) (url c) (bits c)
            (filter_ c) (ranges c) (subchannels c) (_ifo c).

Definition set_sample_rate (r : Q) (c : Channel) : Channel :=
  mkChannel (name c) (type c) (Some r) (unit_ c) (url c) (bits c)
            (filter_ c) (ranges c) (subchannels c) (_ifo c).

Definition set_composite (parts : list Channel) (ifo : string) (c : Channel)
  : Channel :=
  mkChannel (name c) (type c) (sample_rate c) (unit_ c) (url c) (bits c)
            (filter_ c) (ranges c) parts (Some ifo).

(** The metadata a trend takes from its source:
    [new.url = source.url; new.unit = source.unit], [bits] and [filter]
    when the source has them, and every [*_range] attribute of the source
    that [new] does not have yet. *)
Definition copy_source (source new : Channel) : Channel :=
  mkChannel (name new) (type new) (sample_rate new) (unit_ source)
            (url source)
            (match bits source with Some b => Some b | None => bits new end)
            (match filter_ source with
             | Some f => Some f
             | None => filter_ new
             end)
            (ranges new ++
             List.filter (λ kv, negb (existsb (String.eqb (fst kv))
                                              (map fst (ranges new))))
                         (ranges source))
            (subchannels new) (_ifo new).

(** Modelled from the spec: [globalv.CHANNELS.sieve(name=..., type=...,
    sample_rate=..., exact_match=True)] (section 4.3): the name is matched
    literally and, when supplied, type and sample rate by equality.  A
    criterion that is [None] does not filter. *)
Definition matches_type (t : option string) (c : Channel) : bool :=
  match t with
  | None => true
  | Some t' => match type c with
               | Some tc => String.eqb tc t'
               | None => false
               end
  end.

Definition matches_rate (r : option Q) (c : Channel) : bool :=
  match r with
  | None => true
  | Some r' => match sample_rate c with
               | Some rc => Qeq_bool rc r'
               | None => false
               end
  end.

Definition sieve (l : list Channel) (n : string) (t : option string)
    (r : option Q) : list Channel :=
  List.filter (λ c, String.eqb (name c) n && matches_type t c
                    && matches_rate r c) l.

(** [x or None] for a string and for a sample rate: an empty string and a
    zero rate are false. *)
Definition truthy_str (o : option string) : option string :=
  match o with
  | Some EmptyString => None
  | _ => o
  end.

Definition truthy_rate (o : option Q) : option Q :=
  match o with
  | Some q => if Qeq_bool q 0 then None else Some q
  | None => None
  end.

(** The first statement of [get_channel]: the name and type the request
    stands for, and the registry entries that match it.  In the first
    branch the stars of the name are escaped for the registry's pattern
    matching, so the name is again matched literally. *)
Definition find_existing (g : globalv) (channel : request)
  : string * option string * list Channel :=
  let s := str channel in
  if contains_char " " s then
    (s, MATCH_type s, sieve (CHANNELS g) s None None)
  else if contains_char "," s then
    match rsplit1 "," s with
    | Some (n, t) => (n, Some t, sieve (CHANNELS g) n (Some t) None)
    | None => (s, None, [])
    end
  else
    let type_ := match channel with
                 | Chan c => truthy_str (type c)
                 | Str _ => None
                 end in
    let sr := match channel with
              | Chan c => truthy_rate (sample_rate c)
              | Str _ => None
              end in
    (s, type_, sieve (CHANNELS g) s type_ sr).

(** [Channel.query(name, timeout=timeout)], recorded in [cis_queries]. *)
Definition query (n : string) : M Channel :=
  λ g, (log_query n g, Channel_query n).

(** The single raw channel:
<<
    try:
        raise ValueError("")  # XXX: hacky removal of CIS query
        new = Channel.query(name, timeout=timeout)
    except (ValueError, urllib2.URLError, GSSError):
        new = Channel(str(channel))
    else:
        new.name = str(channel)
>> *)
Definition raw_channel (n : string) (channel : request) : M Channel :=
  try_except_else
    (let! _ := raise (A:=()) (ValueError "") in query n)
    (λ e, is_ValueError e || is_URLError e)
    (λ _, ret (Channel_new (str channel)))
    (λ new, ret (set_name (str channel) new)).

(** The default trend type, from the mode. *)
Definition trend_type (g : globalv) (type_ : option string) : string :=
  match type_ with
  | None => if MODE g =? SUMMARY_MODE_GPS then "s-trend" else "m-trend"
  | Some t => t
  end.

(** [if type_ == 'm-trend': new.sample_rate = 1/60.
     elif type_ == 's-trend': new.sample_rate = 1] *)
Definition trend_rate (type_ : string) (new : Channel) : Channel :=
  if String.eqb type_ "m-trend" then set_sample_rate (Qmake 1 60) new
  else if String.eqb type_ "s-trend" then set_sample_rate (Qmake 1 1) new
  else new.

(** [p.ifo for p in parts if p.ifo] *)
Definition ifos (parts : list Channel) : list string :=
  omap (λ p, truthy_str (_ifo p)) parts.

(** *** The dispatcher's workers

    Each [ThreadChannelQuery] takes one [(i, channel)] off the input queue,
    resolves it, and puts [(i, result)] or the exception it caught on the
    output queue.  A worker's resolution is taken as one step; the order in
    which the workers finish is the order of the output queue. *)
Definition worker_item : Type := result (nat * Channel).

Definition worker (resolve : request → M Channel) (channels : list request)
    (acc : globalv * list worker_item) (i : nat)
  : globalv * list worker_item :=
  let '(g, outqueue) := acc in
  match channels !! i with
  | None => acc
  | Some channel =>
      match resolve channel g with
      | (g', Ok c) => (g', outqueue ++ [Ok (i, c)])
      | (g', Raise e) => (g', outqueue ++ [Raise e])
      end
  end.

Definition run_workers (resolve : request → M Channel)
    (channels : list request) (order : list nat) (g : globalv)
  : globalv * list worker_item :=
  foldl (worker resolve channels) (g, []) order.

(** A completion order for [n] workers is a permutation of their indices;
    a proposed order that is none is replaced by the order of the input. *)
Definition completion_order (proposed : list nat) (n : nat) : list nat :=
  if decide (proposed ≡ₚ seq 0 n) then proposed else seq 0 n.

(** The scheduler: the order in which the workers of a batch finish, which
    the program does not control. *)
Definition scheduler : Type := globalv → list request → list nat.

(** [for i in range(len(channels)): c = outqueue.get(); ...]: the first
    exception taken off the queue is raised. *)
Fixpoint drain (outqueue : list worker_item) (result_ : list (nat * Channel))
  : result (list (nat * Channel)) :=
  match outqueue with
  | [] => Ok result_
  | Ok ic :: q => drain q (result_ ++ [ic])
  | Raise e :: _ => Raise e
  end.

(** [get_channels], with the resolution its workers run left open. *)
Definition get_channels_with (resolve : request → M Channel)
    (sched : scheduler) (channels : list request) : M (list Channel) :=
  λ g,
  if length channels =? 0 then (g, Ok [])
  else
    let order := completion_order (sched g channels) (length channels) in
    let '(g', outqueue) :=
      run_workers resolve channels order
                  (start_threads (length channels) g) in
    match drain (take (length channels) outqueue) [] with
    | Raise e => (g', Raise e)
    | Ok result_ => (g', Ok (map snd (sorted fst result_)))
    end.

(** [get_channel(channel, find_trend_source=True, timeout=5)].  [fuel] is
    the depth of nested resolutions still allowed. *)
Fixpoint get_channel (sched : scheduler) (fuel : nat)
    (find_trend_source : bool) (channel : request) {struct fuel}
  : M Channel :=
  match fuel with
  | 0 => raise (RuntimeError "maximum recursion depth exceeded")
  | S fuel' =>
    λ g,
    let '(name_, type_, found) := find_existing g channel in
    match found with
    | [c] => (g, Ok c)
    | _ :: _ :: _ => (g, Raise (AmbiguousChannel (str channel) found))
    | [] =>
      let matches := MATCH_finditer name_ in
      let build : M Channel :=
        (* match single raw channel *)
        if (length matches =? 1) && negb (has_trend_suffix name_) then
          raw_channel name_ channel
        (* match single trend *)
        else if length matches =? 1 then
          let type_ := trend_type g type_ in
          let new := Channel_new (name_ +:+ "," +:+ type_) in
          let! new :=
            (if find_trend_source then
               try_except_else
                 (get_channel sched fuel' true
                              (Str (before_first "." (name new))))
                 is_ValueError
                 (λ _, ret new)
                 (λ source, ret (copy_source source new))
             else ret new) in
          ret (trend_rate type_ new)
        (* match composite channel *)
        else
          let! parts :=
            get_channels_with (get_channel sched fuel' false) sched
                              (map Str matches) in
          ret (set_composite parts
                 (String.concat "" (set_iter (ifos parts)))
                 (Channel_new name_)) in
      (let! new := build in
       let! _ := (λ g, (CHANNELS_append new g, Ok ())) in
       try_except_else
         (get_channel sched fuel' true (Chan new))
         (λ e, match e with RuntimeError _ => true | _ => false end)
         (λ e, match e with
               | RuntimeError msg =>
                   if contains "maximum recursion depth" msg
                   then raise (RuntimeError
                     ("Recursion error while access channel information for "
                      +:+ str channel))
                   else raise e
               | _ => raise e
               end)
         ret) g
    end
  end.

(** [get_channels(channels, **kwargs)]: the keywords go to the workers,
    whose [find_trend_source] is [False] unless given. *)
Definition get_channels (sched : scheduler) (fuel : nat)
    (find_trend_source : bool) (channels : list request)
  : M (list Channel) :=
  get_channels_with (get_channel sched fuel find_trend_source) sched channels.

(** The three ways a new channel is built, and the registration that
    follows, as [get_channel] runs them with [fuel + 1] levels left. *)
Definition build (sched : scheduler) (fuel : nat) (find_trend_source : bool)
    (channel : request) (name_ : string) (type_ : option string)
    (g : globalv) : M Channel :=
  let matches := MATCH_finditer name_ in
  if (length matches =? 1) && negb (has_trend_suffix name_) then
    raw_channel name_ channel
  else if length matches =? 1 then
    let type_ := trend_type g type_ in
    let new := Channel_new (name_ +:+ "," +:+ type_) in
    let! new :=
      (if find_trend_source then
         try_except_else
           (get_channel sched fuel true (Str (before_first "." (name new))))
           is_ValueError
           (λ _, ret new)
           (λ source, ret (copy_source source new))
       else ret new) in
    ret (trend_rate type_ new)
  else
    let! parts :=
      get_channels_with (get_channel sched fuel false) sched
                        (map Str matches) in
    ret (set_composite parts (String.concat "" (set_iter (ifos parts)))
                       (Channel_new name_)).

Definition register (sched : scheduler) (fuel : nat) (channel : request)
    (new : Channel) : M Channel :=
  let! _ := (λ g, (CHANNELS_append new g, Ok ())) in
  try_except_else
    (get_channel sched fuel true (Chan new))
    (λ e, match e with RuntimeError _ => true | _ => false end)
    (λ e, match e with
          | RuntimeError msg =>
              if contains "maximum recursion depth" msg
              then raise (RuntimeError
                ("Recursion error while access channel information for "
                 +:+ str channel))
              else raise e
          | _ => raise e
          end)
    ret.

(** [g'] holds the channels of [g], in place, and possibly more. *)
Definition extends (g g' : globalv) : Prop :=
  (∃ added, CHANNELS g' = CHANNELS g ++ added) ∧ MODE g' = MODE g.

(** What a batch of workers does, in the order they finish. *)
Inductive batch (resolve : request → M Channel) (channels : list request)
  : globalv → list nat → globalv → list worker_item → Prop :=
| batch_nil g : batch resolve channels g [] g []
| batch_ok g i order channel g1 c g' items :
    channels !! i = Some channel →
    resolve channel g = (g1, Ok c) →
    batch resolve channels g1 order g' items →
    batch resolve channels g (i :: order) g' (Ok (i, c) :: items)
| batch_raise g i order channel g1 e g' items :
    channels !! i = Some channel →
    resolve channel g = (g1, Raise e) →
    batch resolve channels g1 order g' items →
    batch resolve channels g (i :: order) g' (Raise e :: items).

(** A computation that only adds to the registry, and that returns a
    channel the registry holds. *)
Definition sound (m : M Channel) : Prop :=
  ∀ g g' r, m g = (g', r) →
    extends g g' ∧ ∀ c, r = Ok c → c ∈ CHANNELS g'.

(** The [(i, channel)] pairs on an output queue. *)
Definition oks (items : list worker_item) : list (nat * Channel) :=
  omap (λ it, match it with Ok ic => Some ic | Raise _ => None end) items.

(** The type a request carries, as [get_channel] reads it. *)
Definition request_type (channel : request) : option string :=
  if contains_char " " (str channel) then MATCH_type (str channel)
  else match channel with
       | Chan c => truthy_str (type c)
       | Str _ => None
       end.

(** A request whose name and type hold no comma: the name it is filed
    under is the name it was asked by. *)
Definition plain (channel : request) : Prop :=
  contains_char "," (str channel) = false
  ∧ ∀ t, request_type channel = Some t → contains_char "," t = false.

(** The output queue of a batch, in the order the workers finished. *)
Definition batch_outqueue (sched : scheduler) (fuel : nat)
    (find_trend_source : bool) (channels : list request) (g : globalv)
  : list worker_item :=
  (run_workers (get_channel sched fuel find_trend_source) channels
     (completion_order (sched g channels) (length channels))
     (start_threads (length channels) g)).2.

(** The first exception on an output queue, if any. *)
Fixpoint first_exception (outqueue : list worker_item) : option exn :=
  match outqueue with
  | [] => None
  | Ok _ :: q => first_exception q
  | Raise e :: _ => Some e
  end.

End Resolver.

(** What a resolution leaves alone: the remote service is not queried and
    no thread is taken back. *)
Definition quiet (g g' : globalv) : Prop :=
  cis_queries g' = cis_queries g ∧ threads_started g ≤ threads_started g'.

(** *** A small instance of the outside world

    Names are separated by blanks, the type follows the last comma of a
    name, the site prefix precedes the colon, the metadata service is
    unreachable, and a set is iterated in order of first insertion. *)
Fixpoint words (cur : string) (s : string) : list string :=
  match s with
  | EmptyString => if String.eqb cur EmptyString then [] else [cur]
  | String a s' =>
      if Ascii.eqb a " "
      then (if String.eqb cur EmptyString then [] else [cur])
           ++ words EmptyString s'
      else words (cur +:+ String a EmptyString) s'
  end.

Definition word_type (s : string) : option string :=
  match words EmptyString s with
  | w :: _ => snd <$> rsplit1 "," w
  | [] => None
  end.

Definition colon_prefix (s : string) : option string :=
  if contains_char ":" s then Some (before_first ":" s) else None.

Definition plain_ndsname (c : Channel) : string :=
  match type c with
  | Some t => name c +:+ "," +:+ t
  | None => name c
  end.

#[export] Instance blank_separated : External := {|
  MATCH_finditer := words EmptyString;
  MATCH_type := word_type;
  parse_ifo := colon_prefix;
  Channel_query := λ _, Raise (URLError "unreachable");
  ndsname := plain_ndsname;
  SUMMARY_MODE_GPS := 4;
  set_iter := remove_dups;
  set_iter_perm := λ l, Permutation_refl (remove_dups l)
|}.

(** Workers finish in the order of the input, or in the reverse order. *)
Definition fifo : scheduler := λ _ channels, seq 0 (length channels).
Definition lifo : scheduler := λ _ channels, reverse (seq 0 (length channels)).

Definition fresh (mode : nat) : globalv :=
  {| CHANNELS := []; MODE := mode; cis_queries := []; threads_started := 0 |}.

(** The state after a second-trend has been resolved by its full name. *)
Definition after_s_trend : globalv :=
  (get_channel fifo 4 true (Str "H1:FOO.mean,s-trend") (fresh 0)).1.

(** A registry that holds two records of one name. *)
Definition twice_registered : globalv :=
  {| CHANNELS := [set_sample_rate (Qmake 256 1) (Channel_new "H1:X");
                  set_sample_rate (Qmake 16 1) (Channel_new "H1:X")];
     MODE := 0; cis_queries := []; threads_started := 0 |}.


End Channels.

(** ** The archive store: [gwsumm/archive.py] *)

Module Archive.
Import Channels.

(** *** Data objects and collections *)

Record TimeSeries := {
  ts_name : string;
  ts_channel : Channel;
  ts_epoch : Z;
  ts_data : list Q
}.

Record Spectrogram := {
  spec_name : string;
  spec_channel : Channel;
  spec_epoch : Z;
  spec_data : list (list Q)
}.

Record DataQualityFlag := {
  dq_name : string;
  dq_active : list (Z * Z)
}.

Definition set_ts_channel (c : Channel) (ts : TimeSeries) : TimeSeries :=
  {| ts_name := ts_name ts; ts_channel := c; ts_epoch := ts_epoch ts;
     ts_data := ts_data ts |}.

Definition set_spec_channel (c : Channel) (spec : Spectrogram) : Spectrogram :=
  {| spec_name := spec_name spec; spec_channel := c;
     spec_epoch := spec_epoch spec; spec_data := spec_data spec |}.

(** [globalv.DATA], [globalv.SPECTROGRAMS] and [globalv.SEGMENTS]. *)
Record collections := {
  DATA : gmap string (list TimeSeries);
  SPECTROGRAMS : gmap string (list Spectrogram);
  SEGMENTS : gmap string DataQualityFlag
}.

Definition no_data : collections :=
  {| DATA := ∅; SPECTROGRAMS := ∅; SEGMENTS := ∅ |}.

(** *** The file and the file system *)

(** An HDF5 file: up to three named groups, each holding its records by
    name.  A record read back is the record that was written. *)
Record h5file := {
  timeseries : option (gmap string TimeSeries);
  spectrogram : option (gmap string Spectrogram);
  segments : option (gmap string DataQualityFlag)
}.

Definition new_file : h5file :=
  {| timeseries := None; spectrogram := None; segments := None |}.

(** The files by path, and the moves [shutil.move] has carried out. *)
Record filesystem := {
  files : gmap string h5file;
  moves : list (string * string)
}.

(** What the program does not control: the directory and the random part
    of a temporary name, and the errors that reach it from outside: from
    the HDF5 binding while a file is opened for writing or a record is
    written or read, from [shutil.move], and from the merge of a flag into
    the segment collection.  A move that fails leaves its source in place;
    what it leaves at the destination, if anything, comes with the
    error. *)
Record io_env := {
  tempdir : string;
  tempname : string;
  open_fault : option exn;
  write_fault : string → option exn;
  move_fault : string → string → option (exn * option h5file);
  ts_read_fault : TimeSeries → option exn;
  spec_read_fault : Spectrogram → option exn;
  dq_read_fault : DataQualityFlag → option exn;
  merge_fault : DataQualityFlag → option exn
}.

Definition is_IOError (e : exn) : bool :=
  match e with
  | IOError _ => true
  | _ => false
  end.

(** [tempfile.mktemp(suffix=suffix, prefix=prefix, dir=dir)] *)
Definition mktemp (env : io_env) (suffix prefix : string) : string :=
  tempdir env +:+ "/" +:+ prefix +:+ tempname env +:+ suffix.

(** [shutil.move(src, dst)]: a missing source is an [IOError]; a source
    that exists may still fail to be moved (the copy to another device,
    into a directory that is full or not writable, is an [IOError] as
    well); an existing destination file is replaced. *)
Definition move (env : io_env) (src dst : string) (fs : filesystem)
  : filesystem * result () :=
  match files fs !! src with
  | None => (fs, Raise (IOError ("No such file or directory: " +:+ src)))
  | Some content =>
      match move_fault env src dst with
      | Some (e, leftover) =>
          ({| files := match leftover with
                       | Some f => <[dst := f]> (files fs)
                       | None => files fs
                       end;
              moves := moves fs |}, Raise e)
      | None =>
          ({| files := <[dst := content]> (delete src (files fs));
              moves := moves fs ++ [(src, dst)] |}, Ok ())
      end
  end.

(** [backup_existing_archive(filename)]: whatever [IOError] the move
    raises is caught and answered with [None]; another exception leaves
    the function. *)
Definition backup_existing_archive (env : io_env) (filename : string)
    (fs : filesystem) : filesystem * result (option string) :=
  let backup := mktemp env ".hdf" "gw_summary_archive_" in
  match move env filename backup fs with
  | (fs', Raise e) => if is_IOError e then (fs', Ok None) else (fs', Raise e)
  | (fs', Ok _) => (fs', Ok (Some backup))
  end.

(** [restore_backup(backup, target)] *)
Definition restore_backup (env : io_env) (backup target : string)
    (fs : filesystem) : filesystem * result () :=
  move env backup target fs.

(** *** Writing *)

(** Writing one record into a group: the binding may fail, and it refuses
    a name the group already holds. *)
Definition h5_write {V : Type} (env : io_env) (group : gmap string V)
    (key : string) (v : V) : result (gmap string V) :=
  match write_fault env key with
  | Some e => Raise e
  | None =>
      match group !! key with
      | Some _ => Raise (RuntimeError "unable to create dataset (name already exists)")
      | None => Ok (<[key := v]> group)
      end
  end.

(** A loop of writes into one group; the group keeps what was written
    before an error. *)
Fixpoint write_group {V : Type} (env : io_env) (key : V → string)
    (vs : list V) (group : gmap string V) : gmap string V * result () :=
  match vs with
  | [] => (group, Ok ())
  | v :: vs' =>
      match h5_write env group (key v) v with
      | Ok group' => write_group env key vs' group'
      | Raise e => (group, Raise e)
      end
  end.

(** The text of a GPS epoch. *)
Definition gps (t : Z) : string := pretty t.

(** ['%s,%s,%s' % (ts.name, ts.channel.ndsname, ts.epoch.gps)] *)
Definition ts_key `{External} (ts : TimeSeries) : string :=
  ts_name ts +:+ "," +:+ ndsname (ts_channel ts) +:+ "," +:+ gps (ts_epoch ts).

(** ['%s,%s' % (spec.name, spec.epoch.gps)] *)
Definition spec_key (spec : Spectrogram) : string :=
  spec_name spec +:+ "," +:+ gps (spec_epoch spec).

(** [d.itervalues()], and the two nested loops over the lists of a
    collection. *)
Definition itervalues {V : Type} (d : gmap string V) : list V :=
  (map_to_list d).*2.

Definition all_series {V : Type} (d : gmap string (list V)) : list V :=
  concat (itervalues d).

(** The body of the [with File(outfile, 'w') as h5file:] block: the file as
    it stands when the block is left, and how it is left. *)
Definition serialize `{External} (env : io_env)
    (timeseries_ spectrogram_ segments_ : bool) (c : collections)
  : h5file * result () :=
  let '(g1, r1) :=
    if timeseries_
    then let '(g, r) := write_group env ts_key (all_series (DATA c)) ∅ in
         (Some g, r)
    else (None, Ok ()) in
  match r1 with
  | Raise e =>
      ({| timeseries := g1; spectrogram := None; segments := None |}, Raise e)
  | Ok _ =>
    let '(g2, r2) :=
      if spectrogram_
      then let '(g, r) :=
             write_group env spec_key (all_series (SPECTROGRAMS c)) ∅ in
           (Some g, r)
      else (None, Ok ()) in
    match r2 with
    | Raise e =>
        ({| timeseries := g1; spectrogram := g2; segments := None |}, Raise e)
    | Ok _ =>
      let '(g3, r3) :=
        if segments_
        then let '(g, r) :=
               write_group env dq_name (itervalues (SEGMENTS c)) ∅ in
             (Some g, r)
        else (None, Ok ()) in
      ({| timeseries := g1; spectrogram := g2; segments := g3 |}, r3)
    end
  end.

(** [File(outfile, 'w')] and the block under it: opening creates or
    truncates the file. *)
Definition write_file `{External} (env : io_env) (outfile : string)
    (timeseries_ spectrogram_ segments_ : bool) (c : collections)
    (fs : filesystem) : filesystem * result () :=
  match open_fault env with
  | Some e => (fs, Raise e)
  | None =>
      let '(f, r) := serialize env timeseries_ spectrogram_ segments_ c in
      ({| files := <[outfile := f]> (files fs); moves := moves fs |}, r)
  end.

(** [write_data_archive(outfile, timeseries=True, spectrogram=True,
    segments=True)] *)
Definition write_data_archive `{External} (env : io_env) (outfile : string)
    (timeseries_ spectrogram_ segments_ : bool) (c : collections)
    (fs : filesystem) : filesystem * result () :=
  match backup_existing_archive env outfile fs with
  | (fs1, Raise e) => (fs1, Raise e)
  | (fs1, Ok backup) =>
      match write_file env outfile timeseries_ spectrogram_ segments_ c
                       fs1 with
      | (fs2, Ok _) => (fs2, Ok ())
      | (fs2, Raise e) =>
          match truthy_str backup with
          | Some b =>
              match restore_backup env b outfile fs2 with
              | (fs3, Ok _) => (fs3, Raise e)
              | (fs3, Raise e') => (fs3, Raise e')
              end
          | None => (fs2, Raise e)
          end
      end
  end.

(** *** Reading *)

(** Modelled from the spec: [add_timeseries(ts, key=...)] of
    [gwsumm/data.py], which is not part of the sources at hand.  The
    collection maps a channel name to an ordered sequence of data objects
    (section 3) and reading inserts the data (section 4.4): the series is
    appended to the sequence under [key]. *)
Definition add_timeseries (ts : TimeSeries) (key : string)
    (d : gmap string (list TimeSeries)) : gmap string (list TimeSeries) :=
  <[key := default [] (d !! key) ++ [ts]]> d.

(** Modelled from the spec: [add_spectrogram(spec)] of [gwsumm/data.py],
    likewise; called without a key, it files the spectrogram under its own
    name, the name its record carries in the archive (section 4.4). *)
Definition add_spectrogram (spec : Spectrogram)
    (d : gmap string (list Spectrogram)) : gmap string (list Spectrogram) :=
  <[spec_name spec := default [] (d !! spec_name spec) ++ [spec]]> d.

(** Modelled from the spec: [globalv.SEGMENTS += {dqflag.name: dqflag}];
    segment records are merged by flag name, a later record replacing an
    entry of the same name (section 4.4). *)
Definition add_segments (dqflag : DataQualityFlag)
    (d : gmap string DataQualityFlag) : gmap string DataQualityFlag :=
  <[dq_name dqflag := dqflag]> d.

(** The state a read works on. *)
Definition R (A : Type) : Type :=
  globalv * collections → globalv * collections * result A.

(** One turn of each of the three loops.  Reading a record may raise, and
    so may the merge of a flag; an exception ends the loop and the read,
    with what earlier turns filed left in place.  [get_channel] is
    imported from [gwsumm/data.py]; it is the resolver of section 4.1,
    called with its defaults. *)
Definition read_timeseries `{External} (env : io_env) (sched : scheduler)
    (fuel : nat) (acc : globalv * collections * result ()) (ts : TimeSeries)
  : globalv * collections * result () :=
  match acc with
  | (g, c, Raise e) => acc
  | (g, c, Ok _) =>
      match ts_read_fault env ts with
      | Some e => (g, c, Raise e)
      | None =>
          match get_channel sched fuel true (Chan (ts_channel ts)) g with
          | (g', Raise e) => (g', c, Raise e)
          | (g', Ok channel) =>
              let ts' := set_ts_channel channel ts in
              (g', {| DATA := add_timeseries ts' (ndsname channel) (DATA c);
                      SPECTROGRAMS := SPECTROGRAMS c;
                      SEGMENTS := SEGMENTS c |}, Ok ())
          end
      end
  end.

Definition read_spectrogram `{External} (env : io_env) (sched : scheduler)
    (fuel : nat) (acc : globalv * collections * result ())
    (spec : Spectrogram) : globalv * collections * result () :=
  match acc with
  | (g, c, Raise e) => acc
  | (g, c, Ok _) =>
      match spec_read_fault env spec with
      | Some e => (g, c, Raise e)
      | None =>
          match get_channel sched fuel true (Chan (spec_channel spec)) g with
          | (g', Raise e) => (g', c, Raise e)
          | (g', Ok channel) =>
              let spec' := set_spec_channel channel spec in
              (g', {| DATA := DATA c;
                      SPECTROGRAMS := add_spectrogram spec' (SPECTROGRAMS c);
                      SEGMENTS := SEGMENTS c |}, Ok ())
          end
      end
  end.

Definition read_segments (env : io_env)
    (acc : globalv * collections * result ()) (dqflag : DataQualityFlag)
  : globalv * collections * result () :=
  match acc with
  | (g, c, Raise e) => acc
  | (g, c, Ok _) =>
      match dq_read_fault env dqflag with
      | Some e => (g, c, Raise e)
      | None =>
          match merge_fault env dqflag with
          | Some e => (g, c, Raise e)
          | None =>
              (g, {| DATA := DATA c; SPECTROGRAMS := SPECTROGRAMS c;
                     SEGMENTS := add_segments dqflag (SEGMENTS c) |}, Ok ())
          end
      end
  end.

(** [try: group = h5file[...]  except KeyError: group = dict()] *)
Definition group_or_empty {V : Type} (group : option (gmap string V))
  : gmap string V :=
  default ∅ group.

(** [read_data_archive(sourcefile)] *)
Definition read_data_archive `{External} (env : io_env) (sched : scheduler)
    (fuel : nat) (sourcefile : string) (fs : filesystem) : R () :=
  λ '(g, c),
  match files fs !! sourcefile with
  | None =>
      (g, c, Raise (IOError ("unable to open file: " +:+ sourcefile)))
  | Some h5 =>
      let s1 := foldl (read_timeseries env sched fuel) (g, c, Ok ())
                      (itervalues (group_or_empty (timeseries h5))) in
      let s2 := foldl (read_spectrogram env sched fuel) s1
                      (itervalues (group_or_empty (spectrogram h5))) in
      foldl (read_segments env) s2
            (itervalues (group_or_empty (segments h5)))
  end.


(** The keys of a collection are the names of what it holds: every entry
    of [SPECTROGRAMS] is a non-empty list of spectrograms of the name it is
    filed under, and every flag of [SEGMENTS] is filed under its name, as
    [add_spectrogram] and the merge of a flag file them. *)
Definition filed_by_name (c : collections) : Prop :=
  (∀ k l, SPECTROGRAMS c !! k = Some l →
          l ≠ [] ∧ ∀ spec, spec ∈ l → spec_name spec = k)
  ∧ (∀ k v, SEGMENTS c !! k = Some v → dq_name v = k).


(** *** Example data *)

Definition quiet : io_env :=
  {| tempdir := "/tmp"; tempname := "k3x9"; open_fault := None;
     write_fault := λ _, None; move_fault := λ _ _, None;
     ts_read_fault := λ _, None; spec_read_fault := λ _, None;
     dq_read_fault := λ _, None; merge_fault := λ _, None |}.

(** No record can be written, moving files works. *)
Definition full_disk : io_env :=
  {| tempdir := "/tmp"; tempname := "k3x9"; open_fault := None;
     write_fault := λ _, Some (IOError "No space left on device");
     move_fault := λ _ _, None;
     ts_read_fault := λ _, None; spec_read_fault := λ _, None;
     dq_read_fault := λ _, None; merge_fault := λ _, None |}.

(** No record can be written, and nothing can be copied into the
    temporary directory, which lies on another device. *)
Definition full_disks : io_env :=
  {| tempdir := "/tmp"; tempname := "k3x9"; open_fault := None;
     write_fault := λ _, Some (IOError "No space left on device");
     move_fault := λ _ _, Some (IOError "No space left on device", None);
     ts_read_fault := λ _, None; spec_read_fault := λ _, None;
     dq_read_fault := λ _, None; merge_fault := λ _, None |}.

Definition strain : TimeSeries :=
  {| ts_name := "H1:STRAIN"; ts_channel := Channel_new "H1:STRAIN";
     ts_epoch := 1000000000; ts_data := [] |}.

Definition strain_spectrogram : Spectrogram :=
  {| spec_name := "H1:STRAIN"; spec_channel := Channel_new "H1:STRAIN";
     spec_epoch := 1000000000; spec_data := [] |}.

Definition lock_flag : DataQualityFlag :=
  {| dq_name := "H1:LOCK"; dq_active := [(1000000000, 1000000010)%Z] |}.

Definition one_of_each : collections :=
  {| DATA := {[ "H1:STRAIN" := [strain] ]};
     SPECTROGRAMS := {[ "H1:STRAIN" := [strain_spectrogram] ]};
     SEGMENTS := {[ "H1:LOCK" := lock_flag ]} |}.

Definition no_files : filesystem := {| files := ∅; moves := [] |}.

Definition old_archive : filesystem :=
  {| files := {[ "archive.h5" := new_file ]}; moves := [] |}.

(** A registry that holds two records named as the stored series is. *)
Definition strain_twice : globalv :=
  {| CHANNELS := [set_sample_rate (Qmake 256 1) (Channel_new "H1:STRAIN");
                  set_sample_rate (Qmake 16 1) (Channel_new "H1:STRAIN")];
     MODE := 0; cis_queries := []; threads_started := 0 |}.

(** The file system after [one_of_each] has been archived. *)
Definition archived : filesystem :=
  (write_data_archive quiet "archive.h5" true true true one_of_each
                      no_files).1.

End Archive.

(** ** Tab configuration: [SimpleStateTab.from_ini] *)

Module FromIni.

(** *** The layout option *)

(** What [eval] makes of a layout given as the error message asks, "a
    comma-separated list of integers": one integer, or a sequence whose
    entries are integers or sequences of integers. *)
Inductive layout_row :=
| Int (n : Z)
| Seq (ns : list Z).

Inductive layout_value :=
| One (n : Z)
| Rows (rows : list layout_row).

Inductive layout_error :=
| LayoutValueError
| LayoutIndexError.

(** [if isinstance(layout, int): layout = [layout]] *)
Definition layout_rows (v : layout_value) : list layout_row :=
  match v with
  | One n => [Int n]
  | Rows rows => rows
  end.

(** [l in [1, 2, 3, 4, 6, 12]] *)
Definition row_fits (l : Z) : bool :=
  existsb (Z.eqb l) [1; 2; 3; 4; 6; 12]%Z.

(** The body of [for l in layout:]; [l[0]] of an empty sequence is an
    [IndexError]. *)
Definition check_row (l : layout_row) : option layout_error :=
  match l with
  | Int n => if row_fits n then None else Some LayoutValueError
  | Seq [] => Some LayoutIndexError
  | Seq (n :: _) => if row_fits n then None else Some LayoutValueError
  end.

Fixpoint check_rows (rows : list layout_row) : option layout_error :=
  match rows with
  | [] => None
  | l :: rows' =>
      match check_row l with
      | Some e => Some e
      | None => check_rows rows'
      end
  end.

(** The layout the tab is given, or the exception that leaves [from_ini]. *)
Definition check_layout (v : layout_value)
  : layout_error + list layout_row :=
  match check_rows (layout_rows v) with
  | Some e => inl e
  | None => inr (layout_rows v)
  end.

(** The number of plots a row asks for: the number [from_ini] checks. *)
Definition row_head (l : layout_row) : option Z :=
  match l with
  | Int n => Some n
  | Seq ns => head ns
  end.

(** *** Plot requests *)

(** [opt.isdigit()]: not empty, and made of decimal digits. *)
Definition is_digit (a : ascii) : bool :=
  (48 <=? nat_of_ascii a) && (nat_of_ascii a <=? 57).

Definition isdigit (opt : string) : bool :=
  negb (String.eqb opt EmptyString)
  && forallb is_digit (list_ascii_of_string opt).

(** [int(opt)] for a string of decimal digits. *)
Definition int (opt : string) : nat :=
  foldl (λ n a, 10 * n + (nat_of_ascii a - 48)) 0 (list_ascii_of_string opt).

(** [sorted([(int(opt), val) for (opt, val) in cp.nditems(section)
            if opt.isdigit()], key=lambda a: a[0])] *)
Definition numbered (nditems : list (string * string))
  : list (nat * string) :=
  omap (λ '(opt, val), if isdigit opt then Some (int opt, val) else None)
       nditems.

Definition requests (nditems : list (string * string))
  : list (nat * string) :=
  sorted fst (numbered nditems).

(** *** Plot definitions *)

(** [[\s,]]: blank, tab, line feed, carriage return, form feed, vertical
    tab, or a comma. *)
Definition is_sep (a : ascii) : bool :=
  existsb (Nat.eqb (nat_of_ascii a)) [32; 9; 10; 13; 12; 11; 44].

(** [re.split('[\s,]', s, 1)] when the pattern occurs in [s]: the text
    before and after its first occurrence. *)
Fixpoint split_first (s : list ascii) : option (list ascii * list ascii) :=
  match s with
  | [] => None
  | a :: s' =>
      if is_sep a then Some ([], s')
      else match split_first s' with
           | Some (x, y) => Some (a :: x, y)
           | None => None
           end
  end.

(** [pdef, sources = [s[::-1] for s in
                      re.split('[\s,]', definition[::-1], 1)]], and
    [pdef = definition; sources = []] when the unpacking fails.  [sources]
    is the text ahead of [split_channels]. *)
Definition split_definition (definition : string) : string * option string :=
  match split_first (rev (list_ascii_of_string definition)) with
  | Some (x, y) =>
      (string_of_list_ascii (rev x), Some (string_of_list_ascii (rev y)))
  | None => (definition, None)
  end.

Definition no_sep (s : string) : Prop :=
  Forall (λ a, is_sep a = false) (list_ascii_of_string s).

End FromIni.

(** ** What a tab needs: [get_channels], [get_flags], [get_triggers] *)

Module TabQueries.

(** [sorted(out, key=...)] with a string for a key: strings compare
    character by character, and the sort is stable. *)
Section SortedByName.
Context {A : Type} (key : A → string).

Fixpoint insert_by_name (x : A) (l : list A) : list A :=
  match l with
  | [] => [x]
  | y :: l' =>
      if String.leb (key x) (key y) then x :: y :: l'
      else y :: insert_by_name x l'
  end.

Fixpoint sorted_by_name (l : list A) : list A :=
  match l with
  | [] => []
  | x :: l' => insert_by_name x (sorted_by_name l')
  end.
End SortedByName.

(** The order in which a [set] is iterated belongs to the interpreter:
    each of its elements comes once. *)
Class SetOrder (A : Type) `{EqDecision A} := {
  iter : list A → list A;
  iter_perm : ∀ l, iter l ≡ₚ remove_dups l
}.

Section Queries.
(** [C]: the channel objects, equal when a [set] takes them for equal. *)
Context {C : Type} `{EqDecision C}.
Context `{!SetOrder C} `{!SetOrder string} `{!SetOrder (string * C)}.
(** [ch.name] *)
Variable ch_name : C → string.
(** [re_flagdiv.split(cflag)] of [gwsumm/utils.py] *)
Variable re_flagdiv_split : string → list string.

(** The attributes of a plot that the three methods read. *)
Record Plot := {
  type : string;
  new : bool;
  channels : list C;
  flags : list string;
  etg : string
}.

Inductive TypeError := InvalidKeyword.

(** [plot.type in types and (isnew and plot.new or not isnew)] *)
Definition wanted (types : list string) (isnew : bool) (plot : Plot) : bool :=
  bool_decide (type plot ∈ types) && ((isnew && new plot) || negb isnew).

(** [get_channels(self, *types, **kwargs)]; [kwargs] holds the truth value of
    each keyword argument. *)
Definition get_channels (plots : list Plot) (types : list string)
    (kwargs : gmap string bool) : TypeError + list C :=
  let isnew := default true (kwargs !! "new") in
  if decide (delete "new" kwargs = ∅)
  then inr (sorted_by_name ch_name
              (iter (concat (channels <$> List.filter (wanted types isnew)
                                                      plots))))
  else inl InvalidKeyword.

(** [s[::2]] *)
Fixpoint every_other {A : Type} (l : list A) : list A :=
  match l with
  | [] => []
  | [x] => [x]
  | x :: _ :: l' => x :: every_other l'
  end.

(** [[f for cflag in plot.flags for f in re_flagdiv.split(cflag)[::2]
      if f]] *)
Definition plot_flags (plot : Plot) : list string :=
  concat ((λ cflag,
             List.filter (λ f, negb (String.eqb f EmptyString))
                         (every_other (re_flagdiv_split cflag)))
          <$> flags plot).

(** [get_flags(self, *types)] *)
Definition get_flags (plots : list Plot) (types : list string)
  : list string :=
  sorted_by_name id
    (iter (concat (plot_flags <$> List.filter (wanted types true) plots))).

(** [get_triggers(self, *types)] *)
Definition get_triggers (plots : list Plot) (types : list string)
  : list (string * C) :=
  sorted_by_name (λ ch, ch_name ch.2)
    (iter (concat ((λ plot, (λ channel, (etg plot, channel))
                              <$> channels plot)
                   <$> List.filter (wanted types true) plots))).

End Queries.

#[global] Arguments Plot : clear implicits.

(** A set iterated in the order of first insertion. *)
#[export] Instance insertion_order (A : Type) `{EqDecision A} : SetOrder A :=
  {| iter := remove_dups;
     iter_perm := λ l, Permutation_refl (remove_dups l) |}.

(** The split of a flag name that holds no divider. *)
Definition one_flag (cflag : string) : list string := [cflag].

Definition strain_plot : Plot string :=
  {| type := "timeseries"; new := true; channels := ["H1:STRAIN"; "H1:AUX"];
     flags := []; etg := "" |}.
Definition old_plot : Plot string :=
  {| type := "spectrum"; new := false; channels := ["H1:STRAIN"; "H1:OLD"];
     flags := ["H1:LOCK"; ""]; etg := "" |}.
Definition segment_plot : Plot string :=
  {| type := "segments"; new := true; channels := [];
     flags := ["H1:LOCK"; ""; "H1:DMT-SCIENCE"]; etg := "" |}.
Definition glitch_plot : Plot string :=
  {| type := "triggers"; new := true; channels := ["H1:STRAIN"; "H1:AUX"];
     flags := []; etg := "omicron" |}.

End TabQueries.

(** * Properties *)

(** ** Sorting *)

Section SortedFacts.
Context {A : Type} (key : A → nat).

Lemma insert_by_perm (x : A) (l : list A) : insert_by key x l ≡ₚ x :: l.
Proof.
  induction l as [|y l IH]; simpl; [done|].
  destruct (key x <=? key y); [done|].
  rewrite IH. apply Permutation_swap.
Qed.

Lemma sorted_perm (l : list A) : sorted key l ≡ₚ l.
Proof.
  induction l as [|x l IH]; simpl; [done|].
  by rewrite insert_by_perm, IH.
Qed.

Lemma insert_by_sorted (x : A) (l : list A) :
  StronglySorted (λ a b, key a ≤ key b) l →
  StronglySorted (λ a b, key a ≤ key b) (insert_by key x l).
Proof.
  induction 1 as [|y l Hl IH Hy]; simpl.
  - repeat constructor.
  - destruct (Nat.leb_spec (key x) (key y)) as [Hxy|Hxy].
    + constructor; [by constructor|].
      constructor; [done|].
      eapply Forall_impl; [exact Hy|]. simpl. lia.
    + constructor; [done|].
      rewrite insert_by_perm. constructor; [lia|done].
Qed.

Lemma sorted_sorted (l : list A) :
  StronglySorted (λ a b, key a ≤ key b) (sorted key l).
Proof.
  induction l; simpl; [constructor|]. by apply insert_by_sorted.
Qed.

(** With two key values [a < b], sorting puts the elements of key [a]
    first and keeps the order of the input within each of the two groups. *)
Lemma insert_by_two (a b : nat) (x : A) (la lb : list A) :
  a < b →
  Forall (λ y, key y = a) la → Forall (λ y, key y = b) lb →
  insert_by key x (la ++ lb) =
    if key x <=? a then x :: la ++ lb
    else if key x <=? b then la ++ x :: lb
    else la ++ lb ++ [x].
Proof.
  intros Hab Hla Hlb. induction Hla as [|y la Hy Hla IH]; simpl.
  - destruct (Nat.leb_spec (key x) a) as [Ha|Ha].
    + destruct Hlb as [|z lb Hz Hlb]; simpl; [done|].
      rewrite Hz. by destruct (Nat.leb_spec (key x) b); [|lia].
    + induction Hlb as [|z lb Hz Hlb IHb]; simpl.
      * by destruct (key x <=? b).
      * rewrite Hz. destruct (Nat.leb_spec (key x) b); [done|].
        by rewrite IHb.
  - rewrite Hy. destruct (Nat.leb_spec (key x) a) as [Ha|Ha]; [done|].
    rewrite IH. by destruct (key x <=? b).
Qed.

Lemma sorted_two (a b : nat) (l : list A) :
  a < b →
  Forall (λ y, key y = a ∨ key y = b) l →
  sorted key l = List.filter (λ y, key y =? a) l
                 ++ List.filter (λ y, key y =? b) l.
Proof.
  intros Hab Hl. induction Hl as [|x l Hx Hl IH]; simpl; [done|].
  rewrite IH.
  rewrite (insert_by_two a b).
  - destruct Hx as [Hx|Hx]; rewrite Hx.
    + rewrite Nat.leb_refl, Nat.eqb_refl.
      by destruct (Nat.eqb_spec a b); [lia|].
    + destruct (Nat.leb_spec b a); [lia|].
      rewrite Nat.leb_refl, Nat.eqb_refl.
      by destruct (Nat.eqb_spec b a); [lia|].
  - done.
  - apply Forall_forall. intros y [_ Hy]%list_elem_of_In%filter_In.
    by apply Nat.eqb_eq.
  - apply Forall_forall. intros y [_ Hy]%list_elem_of_In%filter_In.
    by apply Nat.eqb_eq.
Qed.

Lemma seq_sorted (a n : nat) : StronglySorted le (seq a n).
Proof.
  revert a. induction n as [|n IH]; intros a; simpl; constructor; [apply IH|].
  apply Forall_forall. intros x Hx%elem_of_seq. lia.
Qed.

(** Sorting a list whose keys are the numbers below [n], each once, puts
    the element of key [i] at position [i]. *)
Lemma sorted_keys_seq (l : list A) (n : nat) :
  key <$> l ≡ₚ seq 0 n → key <$> sorted key l = seq 0 n.
Proof.
  intros Hl.
  apply (StronglySorted_unique le).
  - apply (StronglySorted_fmap key (λ a b, key a ≤ key b) le);
      [done|apply sorted_sorted].
  - apply seq_sorted.
  - by rewrite sorted_perm.
Qed.

End SortedFacts.

(** ** Channel resolution *)

Module ChannelsFacts.
Import Channels.
Section Facts.
Context `{External}.
Implicit Types (g : globalv) (c : Channel) (channel : request).

Lemma get_channel_S sched fuel fts channel g :
  get_channel sched (S fuel) fts channel g =
  match find_existing g channel with
  | (name_, type_, found) =>
    match found with
    | [c] => (g, Ok c)
    | _ :: _ :: _ => (g, Raise (AmbiguousChannel (str channel) found))
    | [] => (let! new := build sched fuel fts channel name_ type_ g in
             register sched fuel channel new) g
    end
  end.
Proof. simpl. by destruct (find_existing g channel) as [[??] [|? [|??]]]. Qed.

Lemma sieve_elem_of (l : list Channel) n t r c :
  c ∈ sieve l n t r → c ∈ l ∧ name c = n.
Proof.
  unfold sieve. intros [Hin Hc]%list_elem_of_In%filter_In.
  split; [by apply list_elem_of_In|].
  apply andb_true_iff in Hc as [[Hn _]%andb_true_iff _].
  by apply String.eqb_eq.
Qed.

Lemma find_existing_elem_of g channel n t found c :
  find_existing g channel = (n, t, found) → c ∈ found →
  c ∈ CHANNELS g ∧ name c = n.
Proof.
  unfold find_existing.
  destruct (contains_char " " (str channel)).
  { intros [= <- <- <-]. apply sieve_elem_of. }
  destruct (contains_char "," (str channel)).
  { destruct (rsplit1 "," (str channel)) as [[n' t']|].
    - intros [= <- <- <-]. apply sieve_elem_of.
    - intros [= <- <- <-]. by intros ?%elem_of_nil. }
  intros [= <- <- <-]. apply sieve_elem_of.
Qed.


(** *** The fast path and the ambiguous request *)

(** Claim C9: a request with exactly one match in the registry returns
    that record and leaves every global as it was (nothing registered, no
    remote query, no thread); resolving again gives the same. *)
Theorem registered_channel_is_returned sched fuel fts channel g c :
  (find_existing g channel).2 = [c] →
  get_channel sched (S fuel) fts channel g = (g, Ok c)
  ∧ c ∈ CHANNELS g
  ∧ (∀ g' r, get_channel sched (S fuel) fts channel g = (g', r) →
             get_channel sched (S fuel) fts channel g' = (g', r)).
Proof.
  intros Hfound. rewrite get_channel_S.
  destruct (find_existing g channel) as [[n t] found] eqn:Hfind.
  simpl in Hfound. subst found. split_and!.
  - done.
  - eapply find_existing_elem_of; [done|]. by apply list_elem_of_singleton.
  - intros g' r [= <- <-]. by rewrite get_channel_S, Hfind.
Qed.

(** Claim C5: a request with two or more matches in the registry raises
    the ambiguity error, which lists the matches, and returns none of
    them. *)
Theorem ambiguous_request_fails sched fuel fts channel g :
  2 ≤ length (find_existing g channel).2 →
  get_channel sched (S fuel) fts channel g
  = (g, Raise (AmbiguousChannel (str channel) (find_existing g channel).2)).
Proof.
  intros Hlen. rewrite get_channel_S.
  destruct (find_existing g channel) as [[n t] [|c1 [|c2 found]]];
    simpl in *; [lia|lia|done].
Qed.

(** *** The registry only grows *)

Lemma extends_refl g : extends g g.
Proof. split; [exists []; by rewrite app_nil_r|done]. Qed.

Lemma extends_trans g1 g2 g3 : extends g1 g2 → extends g2 g3 → extends g1 g3.
Proof.
  intros [[a1 H1] M1] [[a2 H2] M2]. split; [|congruence].
  exists (a1 ++ a2). by rewrite H2, H1, app_assoc.
Qed.

Lemma extends_elem_of g g' c : extends g g' → c ∈ CHANNELS g → c ∈ CHANNELS g'.
Proof. intros [[a ->] _] Hc. apply elem_of_app. auto. Qed.

Lemma extends_append new g : extends g (CHANNELS_append new g).
Proof. split; [by exists [new]|done]. Qed.

Lemma extends_start_threads n g : extends g (start_threads n g).
Proof. split; [exists []; simpl; by rewrite app_nil_r|done]. Qed.

Lemma raw_channel_eq n channel g :
  raw_channel n channel g = (g, Ok (Channel_new (str channel))).
Proof. done. Qed.

Lemma batch_extends resolve channels g order g' items :
  (∀ channel, sound (resolve channel)) →
  batch resolve channels g order g' items →
  extends g g' ∧ ∀ i c, Ok (i, c) ∈ items → c ∈ CHANNELS g'.
Proof.
  intros Hres. induction 1 as
    [g|g i order channel g1 c g' items Hi Hr Hb [IHe IHc]
      |g i order channel g1 e g' items Hi Hr Hb [IHe IHc]].
  - split; [apply extends_refl|]. by intros i c ?%elem_of_nil.
  - destruct (Hres _ _ _ _ Hr) as [He Hc]. split.
    + by eapply extends_trans.
    + intros j c' [[= -> ->]|Hin]%elem_of_cons; [|by eapply IHc].
      eapply extends_elem_of; [done|]. by apply Hc.
  - destruct (Hres _ _ _ _ Hr) as [He Hc]. split.
    + by eapply extends_trans.
    + intros j c' [[=]|Hin]%elem_of_cons. by eapply IHc.
Qed.

Lemma foldl_worker_batch resolve channels order g out0 g' out :
  Forall (λ i, i < length channels) order →
  foldl (worker resolve channels) (g, out0) order = (g', out) →
  ∃ items, out = out0 ++ items ∧ batch resolve channels g order g' items.
Proof.
  intros Hord. revert g out0.
  induction Hord as [|i order Hi Hord IH]; intros g out0; simpl.
  - intros [= <- <-]. exists []. split; [by rewrite app_nil_r|constructor].
  - destruct (lookup_lt_is_Some_2 channels i Hi) as [channel Hch].
    rewrite Hch. destruct (resolve channel g) as [g1 [c|e]] eqn:Hr.
    + intros (items & -> & Hb)%IH. exists (Ok (i, c) :: items).
      split; [by rewrite <- app_assoc|]. by econstructor.
    + intros (items & -> & Hb)%IH. exists (Raise e :: items).
      split; [by rewrite <- app_assoc|]. by econstructor.
Qed.

Lemma completion_order_perm proposed n :
  completion_order proposed n ≡ₚ seq 0 n.
Proof. unfold completion_order. by case_decide. Qed.

Lemma completion_order_lt proposed n :
  Forall (λ i, i < n) (completion_order proposed n).
Proof.
  rewrite completion_order_perm. apply Forall_forall.
  intros i Hi%elem_of_seq. lia.
Qed.

Lemma run_workers_batch resolve channels g (sched : scheduler) g0 :
  ∃ g' items,
    run_workers resolve channels
      (completion_order (sched g0 channels) (length channels)) g
    = (g', items)
    ∧ batch resolve channels g
        (completion_order (sched g0 channels) (length channels)) g' items.
Proof.
  unfold run_workers.
  destruct (foldl _ _ _) as [g' out] eqn:Hf.
  apply foldl_worker_batch in Hf as (items & -> & Hb);
    [|apply completion_order_lt].
  by exists g', items.
Qed.

Lemma batch_length resolve channels g order g' items :
  batch resolve channels g order g' items → length items = length order.
Proof. induction 1; simpl; congruence. Qed.

Lemma batch_oks resolve channels g order g' items :
  batch resolve channels g order g' items →
  first_exception items = None → (oks items).*1 = order.
Proof.
  induction 1 as [| |]; simpl; [done| |done].
  intros Hn. f_equal. auto.
Qed.

Lemma batch_resolved resolve channels g order g' items i c :
  batch resolve channels g order g' items → Ok (i, c) ∈ items →
  ∃ channel g1 g2, channels !! i = Some channel
                   ∧ resolve channel g1 = (g2, Ok c).
Proof.
  induction 1 as [| |]; [by intros ?%elem_of_nil| |].
  - intros [[= -> ->]|Hin]%elem_of_cons; eauto.
  - intros [[=]|Hin]%elem_of_cons; eauto.
Qed.

Lemma drain_spec items acc :
  drain items acc = match first_exception items with
                    | Some e => Raise e
                    | None => Ok (acc ++ oks items)
                    end.
Proof.
  revert acc. induction items as [|[ic|e] items IH]; intros acc; simpl.
  - by rewrite app_nil_r.
  - rewrite IH. destruct (first_exception items); [done|].
    by rewrite <- app_assoc.
  - done.
Qed.

Lemma oks_elem_of items ic : ic ∈ oks items ↔ Ok ic ∈ items.
Proof.
  unfold oks. rewrite list_elem_of_omap. split.
  - intros ([ic'|e] & Hin & [= ->]). done.
  - intros Hin. by exists (Ok ic).
Qed.

(** The dispatcher, once its workers have run. *)
Lemma get_channels_with_spec resolve sched channels g :
  channels ≠ [] →
  ∃ g' items,
    run_workers resolve channels
      (completion_order (sched g channels) (length channels))
      (start_threads (length channels) g) = (g', items)
    ∧ batch resolve channels (start_threads (length channels) g)
        (completion_order (sched g channels) (length channels)) g' items
    ∧ get_channels_with resolve sched channels g
      = (g', match first_exception items with
             | Some e => Raise e
             | None => Ok (sorted fst (oks items)).*2
             end).
Proof.
  intros Hne. unfold get_channels_with.
  destruct (Nat.eqb_spec (length channels) 0) as [Hz|_].
  { by destruct channels. }
  destruct (run_workers_batch resolve channels
              (start_threads (length channels) g) sched g)
    as (g' & items & Hrun & Hb).
  exists g', items. split_and!; [done..|]. rewrite Hrun.
  rewrite firstn_all2.
  - rewrite drain_spec. by destruct (first_exception items).
  - rewrite (batch_length _ _ _ _ _ _ Hb).
    by rewrite completion_order_perm, length_seq.
Qed.

(** Without an exception, position [i] of the result holds what the
    worker of input [i] resolved. *)
Lemma sorted_oks_lookup resolve channels g order g' items i channel :
  batch resolve channels g order g' items →
  order ≡ₚ seq 0 (length channels) →
  first_exception items = None →
  channels !! i = Some channel →
  ∃ c, (sorted fst (oks items)).*2 !! i = Some c ∧ Ok (i, c) ∈ items.
Proof.
  intros Hb Hperm Hnone Hi.
  assert (Hkeys : (sorted fst (oks items)).*1 = seq 0 (length channels)).
  { apply sorted_keys_seq. by rewrite (batch_oks _ _ _ _ _ _ Hb Hnone). }
  assert (Hlt : i < length channels) by (by eapply lookup_lt_Some).
  assert (Hk : (sorted fst (oks items)).*1 !! i = Some i).
  { rewrite Hkeys. by apply lookup_seq_lt. }
  rewrite list_lookup_fmap in Hk.
  destruct (sorted fst (oks items) !! i) as [[j c]|] eqn:Hs; [|done].
  simpl in Hk. injection Hk as ->. exists c. split.
  - by rewrite list_lookup_fmap, Hs.
  - apply oks_elem_of. rewrite <- (sorted_perm fst).
    by eapply list_elem_of_lookup_2.
Qed.


Lemma get_channels_with_extends resolve sched channels g g' r :
  (∀ channel, sound (resolve channel)) →
  get_channels_with resolve sched channels g = (g', r) →
  extends g g' ∧ ∀ parts c, r = Ok parts → c ∈ parts → c ∈ CHANNELS g'.
Proof.
  intros Hres. destruct channels as [|ch0 channels].
  { intros [= <- <-]. split; [apply extends_refl|].
    by intros parts c [= <-] ?%elem_of_nil. }
  destruct (get_channels_with_spec resolve sched (ch0 :: channels) g)
    as (g1 & items & _ & Hb & ->); [done|].
  intros [= <- <-].
  destruct (batch_extends _ _ _ _ _ _ Hres Hb) as [He Hc]. split.
  - eapply extends_trans; [apply extends_start_threads|done].
  - intros parts c Hr Hin. destruct (first_exception items); [done|].
    injection Hr as <-.
    apply list_elem_of_fmap in Hin as ([i c'] & -> & Hin).
    rewrite sorted_perm in Hin. apply oks_elem_of in Hin. eauto.
Qed.

Lemma build_extends sched fuel fts channel n t g0 g g1 r :
  (∀ fts' channel', sound (get_channel sched fuel fts' channel')) →
  build sched fuel fts channel n t g0 g = (g1, r) → extends g g1.
Proof.
  intros IH. unfold build.
  destruct (_ && _).
  { rewrite raw_channel_eq. intros [= <- _]. apply extends_refl. }
  destruct (_ =? _).
  - unfold bind, try_except_else, ret. destruct fts.
    + destruct (get_channel sched fuel true _ g) as [g2 [c|e]] eqn:Hsrc.
      * intros [= <- _]. by apply (IH _ _ _ _ _ Hsrc).
      * destruct (is_ValueError e); intros [= <- _];
          by apply (IH _ _ _ _ _ Hsrc).
    + intros [= <- _]. apply extends_refl.
  - unfold bind, ret.
    destruct (get_channels_with _ _ _ g) as [g2 [parts|e]] eqn:Hparts;
      intros [= <- _];
      by apply (get_channels_with_extends _ _ _ _ _ _ (IH false) Hparts).
Qed.

Lemma register_sound sched fuel channel new :
  (∀ fts' channel', sound (get_channel sched fuel fts' channel')) →
  sound (register sched fuel channel new).
Proof.
  intros IH g g' r. unfold register, bind, try_except_else, ret, raise.
  destruct (get_channel sched fuel true (Chan new) (CHANNELS_append new g))
    as [g2 [c|e]] eqn:Hre.
  - intros [= <- <-]. destruct (IH _ _ _ _ _ Hre) as [He Hc]. split.
    + eapply extends_trans; [apply extends_append|done].
    + intros c' [= <-]. by apply Hc.
  - destruct (IH _ _ _ _ _ Hre) as [He _].
    assert (extends g g2)
      by (eapply extends_trans; [apply extends_append|done]).
    destruct e as [| |msg| | |]; try (intros [= <- <-]; by split).
    destruct (contains _ msg); intros [= <- <-]; by split.
Qed.

Lemma get_channel_sound sched fuel fts channel :
  sound (get_channel sched fuel fts channel).
Proof.
  revert fts channel. induction fuel as [|fuel IH]; intros fts channel g g' r.
  { intros [= <- <-]. split; [apply extends_refl|done]. }
  rewrite get_channel_S.
  destruct (find_existing g channel) as [[n t] found] eqn:Hfind.
  destruct found as [|c1 [|c2 found]].
  - unfold bind.
    destruct (build sched fuel fts channel n t g g) as [g1 [new|e]] eqn:Hb.
    + intros Hreg. apply build_extends in Hb; [|done].
      destruct (register_sound sched fuel channel new IH _ _ _ Hreg)
        as [He Hc].
      split; [by eapply extends_trans|done].
    + intros [= <- <-]. apply build_extends in Hb; [|done]. by split.
  - intros [= <- <-]. split; [apply extends_refl|]. intros c [= <-].
    eapply find_existing_elem_of; [done|]. by apply list_elem_of_singleton.
  - intros [= <- <-]. split; [apply extends_refl|done].
Qed.

(** *** The dispatcher *)

Lemma dispatch_result sched fuel fts channel0 channels g :
  match first_exception
          (batch_outqueue sched fuel fts (channel0 :: channels) g) with
  | Some e =>
      (get_channels sched fuel fts (channel0 :: channels) g).2 = Raise e
  | None =>
      ∃ res,
        (get_channels sched fuel fts (channel0 :: channels) g).2 = Ok res
        ∧ length res = length (channel0 :: channels)
        ∧ ∀ i channel, (channel0 :: channels) !! i = Some channel →
            ∃ c g1 g2,
              res !! i = Some c
              ∧ Ok (i, c)
                  ∈ batch_outqueue sched fuel fts (channel0 :: channels) g
              ∧ get_channel sched fuel fts channel g1 = (g2, Ok c)
  end.
Proof.
  unfold get_channels, batch_outqueue.
  destruct (get_channels_with_spec (get_channel sched fuel fts) sched
              (channel0 :: channels) g) as (g' & items & Hrun & Hb & ->);
    [done|].
  rewrite Hrun. simpl fst. simpl snd.
  destruct (first_exception items) eqn:Hnone; [done|].
  eexists. split; [done|]. split.
  - rewrite length_fmap, (Permutation_length (sorted_perm fst _)).
    rewrite <- (length_fmap fst), (batch_oks _ _ _ _ _ _ Hb Hnone).
    by rewrite completion_order_perm, length_seq.
  - intros i channel Hi.
    destruct (sorted_oks_lookup _ _ _ _ _ _ i channel Hb
                (completion_order_perm _ _) Hnone Hi) as (c & Hc & Hin).
    destruct (batch_resolved _ _ _ _ _ _ _ _ Hb Hin)
      as (channel' & g1 & g2 & Hi' & Hres).
    rewrite Hi in Hi'. injection Hi' as <-. by exists c, g1, g2.
Qed.

(** Claim C3: for whatever order the workers finish in, [get_channels]
    of the empty list returns the empty list and touches no global; of a
    non-empty list it raises the first exception on the output queue, or,
    when there is none, returns as many channels as names, the channel at
    position [i] being what the worker of input [i] resolved. *)
Theorem get_channels_in_input_order sched fuel fts channel0 channels g :
  get_channels sched fuel fts [] g = (g, Ok [])
  ∧ match first_exception
            (batch_outqueue sched fuel fts (channel0 :: channels) g) with
    | Some e =>
        (get_channels sched fuel fts (channel0 :: channels) g).2 = Raise e
    | None =>
        ∃ res,
          (get_channels sched fuel fts (channel0 :: channels) g).2 = Ok res
          ∧ length res = length (channel0 :: channels)
          ∧ ∀ i channel, (channel0 :: channels) !! i = Some channel →
              ∃ c g1 g2,
                res !! i = Some c
                ∧ Ok (i, c)
                    ∈ batch_outqueue sched fuel fts (channel0 :: channels) g
                ∧ get_channel sched fuel fts channel g1 = (g2, Ok c)
    end.
Proof. split; [done|apply dispatch_result]. Qed.

(** Claim C10: when [get_channels] raises, the registry still holds what
    it held before, in place, and every channel a worker resolved. *)
Theorem failed_batch_keeps_registrations sched fuel fts channels g g' e :
  get_channels sched fuel fts channels g = (g', Raise e) →
  (∃ added, CHANNELS g' = CHANNELS g ++ added)
  ∧ ∀ i c, Ok (i, c) ∈ batch_outqueue sched fuel fts channels g →
           c ∈ CHANNELS g'.
Proof.
  unfold get_channels, batch_outqueue. destruct channels as [|ch0 channels].
  { done. }
  destruct (get_channels_with_spec (get_channel sched fuel fts) sched
              (ch0 :: channels) g) as (g1 & items & Hrun & Hb & ->);
    [done|].
  rewrite Hrun. intros [= <- _]. simpl snd.
  destruct (batch_extends _ _ _ _ _ _
              (get_channel_sound sched fuel fts) Hb) as [He Hc].
  split; [|done].
  apply (extends_trans g (start_threads (length (ch0 :: channels)) g) g1);
    [apply extends_start_threads|done].
Qed.


(** *** Names *)

Lemma contains_char_app a s1 s2 :
  contains_char a (s1 +:+ s2) = contains_char a s1 || contains_char a s2.
Proof.
  induction s1 as [|b s1 IH]; simpl; [done|]. rewrite IH.
  by destruct (Ascii.eqb b a).
Qed.

Lemma rsplit1_None sep s : contains_char sep s = false → rsplit1 sep s = None.
Proof.
  induction s as [|a s IH]; simpl; [done|].
  intros [Ha Hs]%orb_false_iff. by rewrite IH, Ha.
Qed.

Lemma rsplit1_app sep s1 s2 :
  contains_char sep s2 = false →
  rsplit1 sep (s1 +:+ String sep s2) = Some (s1, s2).
Proof.
  intros Hs2. induction s1 as [|a s1 IH]; simpl.
  - by rewrite rsplit1_None, Ascii.eqb_refl.
  - by rewrite IH.
Qed.

Lemma contains_char_before_first a sep s :
  contains_char a s = false → contains_char a (before_first sep s) = false.
Proof.
  induction s as [|b s IH]; simpl; [done|].
  intros [Hb Hs]%orb_false_iff. destruct (Ascii.eqb b sep); [done|].
  simpl. by rewrite Hb, IH.
Qed.

Lemma before_first_no_sep sep s : contains_char sep (before_first sep s) = false.
Proof.
  induction s as [|b s IH]; simpl; [done|].
  destruct (Ascii.eqb b sep) eqn:Hb; [done|]. simpl. by rewrite Hb, IH.
Qed.

Lemma has_trend_suffix_dot s :
  has_trend_suffix s = true → contains_char "." s = true.
Proof.
  induction s as [|a s IH]; simpl; [done|].
  intros [[[Ha _]%andb_true_iff _]%andb_true_iff|Hs]%orb_true_iff.
  - by rewrite Ha.
  - rewrite IH; [|done]. by rewrite orb_true_r.
Qed.

Lemma before_first_no_suffix s : has_trend_suffix (before_first "." s) = false.
Proof.
  destruct (has_trend_suffix _) eqn:Hs; [|done].
  apply has_trend_suffix_dot in Hs. by rewrite before_first_no_sep in Hs.
Qed.

Lemma before_first_neq s :
  contains_char "." s = true → before_first "." s ≠ s.
Proof.
  intros Hs Heq. rewrite <- Heq in Hs. by rewrite before_first_no_sep in Hs.
Qed.

(** *** The registry after an append *)

Lemma sieve_snoc l x n t r :
  sieve (l ++ [x]) n t r
  = sieve l n t r
    ++ (if String.eqb (name x) n && matches_type t x && matches_rate r x
        then [x] else []).
Proof. unfold sieve. by rewrite List.filter_app. Qed.

Lemma sieve_nil l n t r :
  (∀ c, c ∈ l → name c = n → matches_type t c = false) →
  sieve l n t r = [].
Proof.
  intros Hl. unfold sieve. induction l as [|c l IH]; simpl; [done|].
  rewrite IH by (intros; apply Hl; [apply elem_of_cons; by right|done]).
  destruct (String.eqb_spec (name c) n) as [Hn|]; [|done].
  by rewrite (Hl c) by (done || apply elem_of_cons; by left).
Qed.

Lemma matches_self x :
  matches_type (truthy_str (type x)) x = true
  ∧ matches_rate (truthy_rate (sample_rate x)) x = true.
Proof.
  unfold matches_type, matches_rate, truthy_str, truthy_rate. split.
  - destruct (type x) as [[|a s]|]; [done| |done]. apply String.eqb_refl.
  - destruct (sample_rate x) as [q|]; [|done].
    destruct (Qeq_bool q 0); [done|]. apply Qeq_bool_iff. reflexivity.
Qed.

Lemma find_existing_plain g channel :
  contains_char " " (str channel) = false →
  contains_char "," (str channel) = false →
  find_existing g channel
  = (str channel,
     match channel with Chan c => truthy_str (type c) | Str _ => None end,
     sieve (CHANNELS g) (str channel)
       match channel with Chan c => truthy_str (type c) | Str _ => None end
       match channel with
       | Chan c => truthy_rate (sample_rate c)
       | Str _ => None
       end).
Proof. unfold find_existing. by intros -> ->. Qed.

(** A new channel under whose name, type and rate nothing is registered
    yet is registered and returned. *)
Lemma register_fresh sched fuel channel new g :
  contains_char " " (name new) = false →
  contains_char "," (name new) = false →
  sieve (CHANNELS g) (name new) (truthy_str (type new))
        (truthy_rate (sample_rate new)) = [] →
  register sched (S fuel) channel new g = (CHANNELS_append new g, Ok new).
Proof.
  intros Hsp Hco Hnone.
  unfold register, bind, try_except_else, ret.
  rewrite get_channel_S, find_existing_plain by done. simpl.
  rewrite sieve_snoc, Hnone, String.eqb_refl.
  by destruct (matches_self new) as [-> ->].
Qed.

(** *** Trends *)

Lemma Channel_new_plain n :
  contains_char "," n = false →
  Channel_new n = mkChannel n None None None None None None [] []
                            (parse_ifo n).
Proof. intros Hn. unfold Channel_new. by rewrite rsplit1_None. Qed.

Lemma Channel_new_typed n t :
  contains_char "," t = false →
  Channel_new (n +:+ "," +:+ t)
  = mkChannel n (Some t) None None None None None [] [] (parse_ifo n).
Proof.
  intros Ht. unfold Channel_new.
  change ("," +:+ t) with (String "," t). by rewrite rsplit1_app.
Qed.

Lemma build_raw sched fuel fts channel n topt g0 :
  length (MATCH_finditer n) = 1 → has_trend_suffix n = false →
  build sched fuel fts channel n topt g0 = raw_channel n channel.
Proof. intros Hlen Hsuf. unfold build. by rewrite Hlen, Hsuf. Qed.

Lemma build_trend sched fuel fts channel n topt g0 :
  length (MATCH_finditer n) = 1 → has_trend_suffix n = true →
  build sched fuel fts channel n topt g0
  = (let! new :=
       (if fts then
          try_except_else
            (get_channel sched fuel true
               (Str (before_first "."
                       (name (Channel_new (n +:+ "," +:+ trend_type g0 topt))))))
            is_ValueError
            (λ _, ret (Channel_new (n +:+ "," +:+ trend_type g0 topt)))
            (λ source,
               ret (copy_source source
                      (Channel_new (n +:+ "," +:+ trend_type g0 topt))))
        else ret (Channel_new (n +:+ "," +:+ trend_type g0 topt))) in
     ret (trend_rate (trend_type g0 topt) new)).
Proof. intros Hlen Hsuf. unfold build. by rewrite Hlen, Hsuf. Qed.

Lemma build_composite sched fuel fts channel n topt g0 :
  length (MATCH_finditer n) ≠ 1 →
  build sched fuel fts channel n topt g0
  = (let! parts :=
       get_channels_with (get_channel sched fuel false) sched
                         (map Str (MATCH_finditer n)) in
     ret (set_composite parts (String.concat "" (set_iter (ifos parts)))
                        (Channel_new n))).
Proof.
  intros Hlen. unfold build.
  by destruct (Nat.eqb_spec (length (MATCH_finditer n)) 1).
Qed.

(** The source of a trend, a raw channel name: it is found, registered, or
    ambiguous. *)
Lemma raw_source sched fuel raw g :
  contains_char " " raw = false → contains_char "," raw = false →
  has_trend_suffix raw = false → length (MATCH_finditer raw) = 1 →
  ∃ g1 r,
    get_channel sched (S (S fuel)) true (Str raw) g = (g1, r)
    ∧ (g1 = g ∨ ∃ c, g1 = CHANNELS_append c g ∧ name c = raw)
    ∧ match r with Ok _ => True | Raise e => is_ValueError e = true end.
Proof.
  intros Hsp Hco Hsuf Hlen.
  rewrite get_channel_S, find_existing_plain by done. simpl str.
  destruct (sieve (CHANNELS g) raw None None) as [|c1 [|c2 found]] eqn:Hs.
  - unfold bind. rewrite build_raw, raw_channel_eq by done. simpl str.
    rewrite Channel_new_plain by done.
    rewrite register_fresh by done. eexists _, _. split; [done|].
    split; [|done]. right. by eexists.
  - eexists _, _. split; [done|]. auto.
  - eexists _, _. split; [done|]. auto.
Qed.

Lemma trend_resolution sched fuel fts channel g n topt t r :
  find_existing g channel = (n, topt, []) →
  contains_char " " n = false → contains_char "," n = false →
  has_trend_suffix n = true →
  length (MATCH_finditer n) = 1 →
  length (MATCH_finditer (before_first "." n)) = 1 →
  trend_type g topt = t →
  (t = "m-trend" ∧ r = Qmake 1 60) ∨ (t = "s-trend" ∧ r = Qmake 1 1) →
  (∀ c, c ∈ CHANNELS g → name c = n → type c ≠ Some t) →
  ∃ g' c, get_channel sched (S (S (S fuel))) fts channel g = (g', Ok c)
          ∧ name c = n ∧ type c = Some t ∧ sample_rate c = Some r.
Proof.
  intros Hfind Hsp Hco Hsuf Hlen Hraw Ht Htr Hfree.
  assert (Hct : contains_char "," t = false) by (by destruct Htr as [[-> _]|[-> _]]).
  assert (Hdot : contains_char "." n = true) by (by apply has_trend_suffix_dot).
  rewrite get_channel_S, Hfind. unfold bind at 1.
  (* the channel as built, whatever the source gave *)
  assert (∃ g1 new,
    build sched (S (S fuel)) fts channel n topt g g = (g1, Ok new)
    ∧ name new = n ∧ type new = Some t ∧ sample_rate new = Some r
    ∧ (g1 = g ∨ ∃ c, g1 = CHANNELS_append c g
                     ∧ name c = before_first "." n))
    as (g1 & new & -> & Hname & Htype & Hrate & Hg1).
  { rewrite build_trend, Ht by done.
    rewrite Channel_new_typed by done. simpl name.
    assert (∀ new0, name new0 = n → type new0 = Some t →
              name (trend_rate t new0) = n
              ∧ type (trend_rate t new0) = Some t
              ∧ sample_rate (trend_rate t new0) = Some r) as Hrate.
    { intros new0 Hn Hty. unfold trend_rate.
      by destruct Htr as [[-> ->]|[-> ->]]. }
    unfold bind, try_except_else, ret. destruct fts.
    - destruct (raw_source sched fuel (before_first "." n) g)
        as (g1 & res & -> & Hg1 & Hres);
        [by apply contains_char_before_first
        |by apply contains_char_before_first
        |apply before_first_no_suffix|done|].
      destruct res as [source|e].
      + eexists _, _. split; [done|].
        destruct (Hrate (copy_source source
                    (mkChannel n (Some t) None None None None None [] []
                               (parse_ifo n)))) as (?&?&?); [done..|].
        by split_and!.
      + rewrite Hres. eexists _, _. split; [done|].
        destruct (Hrate (mkChannel n (Some t) None None None None None [] []
                               (parse_ifo n))) as (?&?&?); [done..|].
        by split_and!.
    - eexists _, _. split; [done|].
      destruct (Hrate (mkChannel n (Some t) None None None None None [] []
                               (parse_ifo n))) as (?&?&?); [done..|].
      split_and!; auto. }
  rewrite register_fresh.
  - by eexists _, _.
  - by rewrite Hname.
  - by rewrite Hname.
  - rewrite Hname, Htype. apply sieve_nil. intros c Hc Hn.
    assert (truthy_str (Some t) = Some t) as ->
      by (by destruct Htr as [[-> _]|[-> _]]).
    unfold matches_type.
    destruct (type c) as [tc|] eqn:Htc; [|done].
    apply String.eqb_neq. intros ->.
    destruct Hg1 as [->|(c' & -> & Hc')].
    + by apply (Hfree c).
    + simpl in Hc. apply elem_of_app in Hc as [Hc|Hc%list_elem_of_singleton].
      * by apply (Hfree c).
      * subst c'. rewrite Hn in Hc'. by apply (before_first_neq n).
Qed.

(** Claim C4, as the code has it: for a trend name [n] (one channel token,
    a trend suffix, no blank, no comma) whose source is one channel token,
    (1) outside GPS mode, when no channel named [n] is registered,
    resolving [n] yields a channel of sample rate 1/60; (2) in any mode,
    when no second-trend named [n] is registered, resolving [n,s-trend]
    yields a channel of sample rate 1. *)
Theorem trend_sample_rate sched fuel fts g n :
  contains_char " " n = false → contains_char "," n = false →
  has_trend_suffix n = true →
  length (MATCH_finditer n) = 1 →
  length (MATCH_finditer (before_first "." n)) = 1 →
  (MODE g ≠ SUMMARY_MODE_GPS →
   (∀ c, c ∈ CHANNELS g → name c ≠ n) →
   ∃ g' c, get_channel sched (S (S (S fuel))) fts (Str n) g = (g', Ok c)
           ∧ sample_rate c = Some (Qmake 1 60))
  ∧ ((∀ c, c ∈ CHANNELS g → name c = n → type c ≠ Some "s-trend") →
     ∃ g' c, get_channel sched (S (S (S fuel))) fts
                         (Str (n +:+ ",s-trend")) g = (g', Ok c)
             ∧ sample_rate c = Some (Qmake 1 1)).
Proof.
  intros Hsp Hco Hsuf Hlen Hraw. split.
  - intros Hmode Hfree.
    destruct (trend_resolution sched fuel fts (Str n) g n None "m-trend"
                (Qmake 1 60)) as (g' & c & Hget & _ & _ & Hrate); try done.
    + rewrite find_existing_plain by done. simpl. f_equal.
      apply sieve_nil. intros c Hc Hn. by destruct (Hfree c).
    + unfold trend_type. by destruct (Nat.eqb_spec (MODE g) SUMMARY_MODE_GPS).
    + auto.
    + intros c Hc Hn. by destruct (Hfree c).
    + by exists g', c.
  - intros Hfree.
    destruct (trend_resolution sched fuel fts (Str (n +:+ ",s-trend")) g n
                (Some "s-trend") "s-trend" (Qmake 1 1))
      as (g' & c & Hget & _ & _ & Hrate); try done.
    + unfold find_existing. simpl str.
      rewrite !contains_char_app, Hsp, Hco.
      change (contains_char " " ",s-trend") with false.
      change (contains_char "," ",s-trend") with true. cbv iota. simpl orb.
      cbv iota.
      change ("," +:+ "s-trend") with (String "," "s-trend").
      rewrite (rsplit1_app "," n "s-trend") by done. f_equal.
      apply sieve_nil. intros c Hc Hn. unfold matches_type.
      destruct (type c) as [tc|] eqn:Htc; [|done].
      apply String.eqb_neq. intros ->. by apply (Hfree c).
    + auto.
    + by exists g', c.
Qed.


(** *** Composites *)

Lemma register_fresh_composite sched fuel channel new g :
  contains_char " " (name new) = true →
  sieve (CHANNELS g) (name new) None None = [] →
  register sched (S fuel) channel new g = (CHANNELS_append new g, Ok new).
Proof.
  intros Hsp Hnone.
  unfold register, bind, try_except_else, ret.
  rewrite get_channel_S. unfold find_existing. simpl str. rewrite Hsp.
  simpl CHANNELS. by rewrite sieve_snoc, Hnone, String.eqb_refl.
Qed.




(** *** The name a request is resolved under *)

Lemma find_existing_comma_free g channel :
  contains_char "," (str channel) = false →
  ∃ found, find_existing g channel
           = (str channel, request_type channel, found).
Proof.
  intros Hco. unfold find_existing, request_type. rewrite Hco.
  destruct (contains_char " " (str channel)); by eexists.
Qed.

Lemma trend_rate_name t new :
  name (trend_rate t new) = name new ∧ type (trend_rate t new) = type new.
Proof.
  unfold trend_rate. destruct (String.eqb t "m-trend"); [done|].
  by destruct (String.eqb t "s-trend").
Qed.

Lemma trend_type_comma_free g topt :
  (∀ t, topt = Some t → contains_char "," t = false) →
  contains_char "," (trend_type g topt) = false.
Proof.
  intros Ht. unfold trend_type. destruct topt as [t|]; [by apply Ht|].
  by destruct (_ =? _).
Qed.

Lemma plain_Chan new channel :
  plain channel → name new = str channel →
  (∀ t, type new = Some t → contains_char "," t = false) →
  plain (Chan new).
Proof.
  intros [Hco Hty] Hn Ht. split; [simpl; by rewrite Hn|].
  intros t. unfold request_type. simpl str. rewrite Hn.
  destruct (contains_char " " (str channel)) eqn:Hsp.
  - intros Hm. apply Hty. unfold request_type. by rewrite Hsp.
  - destruct (type new) as [[|a s]|]; simpl; [done| |done].
    intros [= <-]. by apply Ht.
Qed.

(** What is built for a plain request carries the name of the request. *)
Lemma build_name sched fuel fts channel g g1 new :
  plain channel →
  build sched fuel fts channel (str channel) (request_type channel) g g
  = (g1, Ok new) →
  name new = str channel ∧ plain (Chan new).
Proof.
  intros Hplain. pose proof Hplain as [Hco Hty].
  destruct (Nat.eqb_spec (length (MATCH_finditer (str channel))) 1)
    as [Hlen|Hlen].
  - destruct (has_trend_suffix (str channel)) eqn:Hsuf.
    + rewrite build_trend by done.
      pose proof (trend_type_comma_free g _ Hty) as Ht.
      rewrite Channel_new_typed by done. simpl name.
      set (new0 := mkChannel _ _ _ _ _ _ _ _ _ _).
      unfold bind, try_except_else, ret.
      assert (Hfin : ∀ new1, name new1 = str channel →
                type new1 = Some (trend_type g (request_type channel)) →
                name (trend_rate (trend_type g (request_type channel)) new1)
                = str channel
                ∧ plain (Chan (trend_rate
                                 (trend_type g (request_type channel)) new1))).
      { intros new1 Hn1 Ht1.
        destruct (trend_rate_name (trend_type g (request_type channel)) new1)
          as [Hn Hty'].
        split; [congruence|]. apply (plain_Chan _ channel); [done|congruence|].
        rewrite Hty', Ht1. by intros t [= <-]. }
      destruct fts.
      * destruct (get_channel sched fuel true _ g) as [g2 [source|e]].
        -- intros [= <- <-]. by apply Hfin.
        -- destruct (is_ValueError e); [|done].
           intros [= <- <-]. by apply Hfin.
      * intros [= <- <-]. by apply Hfin.
    + rewrite build_raw, raw_channel_eq by done. intros [= <- <-].
      rewrite Channel_new_plain by done. split; [done|].
      by apply (plain_Chan _ channel).
  - rewrite build_composite by done. unfold bind, ret.
    destruct (get_channels_with _ _ _ g) as [g2 [parts|e]]; [|done].
    intros [= <- <-]. rewrite Channel_new_plain by done. split; [done|].
    by apply (plain_Chan _ channel).
Qed.

Lemma register_ok sched fuel channel new g g' c :
  register sched fuel channel new g = (g', Ok c) →
  get_channel sched fuel true (Chan new) (CHANNELS_append new g) = (g', Ok c).
Proof.
  unfold register, bind, try_except_else, ret, raise.
  destruct (get_channel sched fuel true (Chan new) _) as [g2 [c'|e]];
    [done|].
  destruct e as [| |msg| | |]; try done. by destruct (contains _ msg).
Qed.

Lemma get_channel_name sched fuel fts channel g g' c :
  plain channel →
  get_channel sched fuel fts channel g = (g', Ok c) → name c = str channel.
Proof.
  revert fts channel g. induction fuel as [|fuel IH]; intros fts channel g;
    [done|].
  intros Hplain. rewrite get_channel_S.
  destruct (find_existing_comma_free g channel (proj1 Hplain))
    as [found Hfind].
  rewrite Hfind. destruct found as [|c1 [|c2 found]]; [| |done].
  - unfold bind.
    destruct (build _ _ _ _ _ _ g g) as [g1 [new|e]] eqn:Hb; [|done].
    destruct (build_name _ _ _ _ _ _ _ Hplain Hb) as [Hn Hpl].
    intros Hreg%register_ok. rewrite <- Hn. by apply (IH _ _ _ Hpl Hreg).
  - intros [= <- <-].
    eapply find_existing_elem_of; [done|]. by apply list_elem_of_singleton.
Qed.

(** *** What a resolution leaves alone *)

Lemma quiet_refl g : quiet g g.
Proof. by split. Qed.

Lemma quiet_trans g1 g2 g3 : quiet g1 g2 → quiet g2 g3 → quiet g1 g3.
Proof. intros [Q1 T1] [Q2 T2]. split; [congruence|lia]. Qed.

Lemma batch_quiet resolve channels g order g' items :
  (∀ channel g g' r, resolve channel g = (g', r) → quiet g g') →
  batch resolve channels g order g' items → quiet g g'.
Proof.
  intros Hres. induction 1 as [g| |]; [apply quiet_refl|..];
    (eapply quiet_trans; [by eapply Hres|done]).
Qed.

Lemma get_channels_with_quiet resolve sched channels g g' r :
  (∀ channel g g' r, resolve channel g = (g', r) → quiet g g') →
  get_channels_with resolve sched channels g = (g', r) →
  cis_queries g' = cis_queries g
  ∧ threads_started g + length channels ≤ threads_started g'.
Proof.
  intros Hres. destruct channels as [|ch0 channels].
  { intros [= <- <-]. simpl. split; [done|lia]. }
  destruct (get_channels_with_spec resolve sched (ch0 :: channels) g)
    as (g1 & items & _ & Hb & ->); [done|].
  intros [= <- <-].
  destruct (batch_quiet _ _ _ _ _ _ Hres Hb) as [Hq Ht].
  simpl in *. split; [done|lia].
Qed.

Lemma get_channel_quiet sched fuel fts channel g g' r :
  get_channel sched fuel fts channel g = (g', r) → quiet g g'.
Proof.
  revert fts channel g g' r.
  induction fuel as [|fuel IH]; intros fts channel g g' r.
  { intros [= <- <-]. apply quiet_refl. }
  rewrite get_channel_S.
  destruct (find_existing g channel) as [[n t] found].
  destruct found as [|c1 [|c2 found]];
    [|intros [= <- <-]; apply quiet_refl..].
  unfold bind at 1.
  destruct (build sched fuel fts channel n t g g) as [g1 res] eqn:Hb.
  assert (Hq1 : quiet g g1).
  { revert Hb. unfold build. destruct (_ && _).
    { rewrite raw_channel_eq. intros [= <- _]. apply quiet_refl. }
    destruct (_ =? _).
    - unfold bind, try_except_else, ret. destruct fts.
      + destruct (get_channel sched fuel true _ g) as [g2 [c|e]] eqn:Hsrc.
        * intros [= <- _]. by eapply IH.
        * destruct (is_ValueError e); intros [= <- _]; by eapply IH.
      + intros [= <- _]. apply quiet_refl.
    - unfold bind, ret.
      destruct (get_channels_with _ _ _ g) as [g2 [parts|e]] eqn:Hparts;
        intros [= <- _];
        (destruct (get_channels_with_quiet _ _ _ _ _ _ (IH false) Hparts)
           as [Hq Ht]; split; [done|lia]). }
  destruct res as [new|e]; [|intros [= <- <-]; done].
  unfold register, bind, try_except_else, ret, raise.
  destruct (get_channel sched fuel true (Chan new) (CHANNELS_append new g1))
    as [g2 [c|e]] eqn:Hre.
  - intros [= <- <-]. eapply quiet_trans; [done|]. by apply IH in Hre.
  - apply IH in Hre.
    assert (quiet g g2) by (by eapply quiet_trans).
    destruct e as [| |msg| | |]; try (by intros [= <- <-]).
    by destruct (contains _ msg); intros [= <- <-].
Qed.

(** X1: whatever it is asked and however it ends, [get_channel] only
    appends to the registry, leaves the mode alone, never queries the
    remote metadata service and takes no thread back; a channel it returns
    is in the registry. *)
Theorem get_channel_only_registers sched fuel fts channel g g' r :
  get_channel sched fuel fts channel g = (g', r) →
  (∃ added, CHANNELS g' = CHANNELS g ++ added)
  ∧ MODE g' = MODE g
  ∧ cis_queries g' = cis_queries g
  ∧ threads_started g ≤ threads_started g'
  ∧ ∀ c, r = Ok c → c ∈ CHANNELS g'.
Proof.
  intros Hget.
  destruct (get_channel_sound _ _ _ _ _ _ _ Hget) as [[Hadd Hmode] Hin].
  destruct (get_channel_quiet _ _ _ _ _ _ _ Hget) as [Hq Ht].
  by split_and!.
Qed.

(** X2: [get_channels] changes the globals as [get_channel] does and starts
    at least one thread per name; a list it returns is as long as the input
    and holds registered channels only. *)
Theorem get_channels_only_registers sched fuel fts channels g g' r :
  get_channels sched fuel fts channels g = (g', r) →
  (∃ added, CHANNELS g' = CHANNELS g ++ added)
  ∧ MODE g' = MODE g
  ∧ cis_queries g' = cis_queries g
  ∧ threads_started g + length channels ≤ threads_started g'
  ∧ ∀ parts, r = Ok parts →
      length parts = length channels ∧ ∀ c, c ∈ parts → c ∈ CHANNELS g'.
Proof.
  intros Hget. unfold get_channels in Hget.
  destruct (get_channels_with_extends _ _ _ _ _ _
              (get_channel_sound sched fuel fts) Hget) as [[Hadd Hmode] Hin].
  destruct (get_channels_with_quiet _ _ _ _ _ _
              (get_channel_quiet sched fuel fts) Hget) as [Hq Ht].
  split_and!; [done..|].
  intros parts ->. split; [|intros c Hc; by apply (Hin parts c)].
  destruct channels as [|ch0 channels].
  { by injection Hget as _ <-. }
  pose proof (dispatch_result sched fuel fts ch0 channels g) as Hd.
  unfold get_channels in Hd. rewrite Hget in Hd.
  destruct (first_exception _); [done|].
  by destruct Hd as (res & [= <-] & Hlen & _).
Qed.


(** *** Raw channels *)

Lemma sieve_unnamed (l : list Channel) n t r :
  (∀ c, c ∈ l → name c ≠ n) → sieve l n t r = [].
Proof. intros Hl. apply sieve_nil. intros c Hc Hn. by destruct (Hl c). Qed.

Lemma build_then_register sched fuel fts channel g n t found :
  find_existing g channel = (n, t, found) → found = [] →
  get_channel sched (S fuel) fts channel g
  = (let! new := build sched fuel fts channel n t g in
     register sched fuel channel new) g.
Proof. intros Hfind ->. by rewrite get_channel_S, Hfind. Qed.

(** X3: a raw name (one token, no trend suffix) that is not registered yet
    is registered as a bare record, appended last, and returned; resolving
    it again returns that record and changes nothing. *)
Theorem raw_channel_is_registered_once sched fuel fts g n :
  contains_char " " n = false → contains_char "," n = false →
  has_trend_suffix n = false → length (MATCH_finditer n) = 1 →
  (∀ c, c ∈ CHANNELS g → name c ≠ n) →
  get_channel sched (S (S fuel)) fts (Str n) g
  = (CHANNELS_append (Channel_new n) g, Ok (Channel_new n))
  ∧ Channel_new n
    = mkChannel n None None None None None None [] [] (parse_ifo n)
  ∧ ∀ fuel' fts',
      get_channel sched (S fuel') fts' (Str n)
                  (CHANNELS_append (Channel_new n) g)
      = (CHANNELS_append (Channel_new n) g, Ok (Channel_new n)).
Proof.
  intros Hsp Hco Hsuf Hlen Hfree.
  pose proof (Channel_new_plain n Hco) as Hnew.
  assert (Hnone : ∀ t r, sieve (CHANNELS g) n t r = [])
    by (intros; by apply sieve_unnamed).
  split_and!; [|done|].
  - rewrite (build_then_register _ _ _ _ _ n None []);
      [|by rewrite find_existing_plain, Hnone|done].
    unfold bind at 1. rewrite build_raw, raw_channel_eq by done. simpl str.
    apply register_fresh; rewrite Hnew; simpl; [done|done|apply Hnone].
  - intros fuel' fts'. rewrite get_channel_S, find_existing_plain by done.
    simpl. rewrite sieve_snoc, Hnone, Hnew. simpl.
    by rewrite String.eqb_refl.
Qed.

(** X10: when no registered channel matches a request, a new channel has
    been built, and its final resolution raises a [RuntimeError] that
    speaks of the recursion depth, [get_channel] raises the recursion
    error that names the request, and the record appended just before
    stays in the registry.  With a single level of recursion left, every
    construction that succeeds ends this way. *)
Theorem construction_at_the_depth_limit sched fuel fts channel g n t g1 new :
  find_existing g channel = (n, t, []) →
  build sched fuel fts channel n t g g = (g1, Ok new) →
  (∀ g2 msg,
     get_channel sched fuel true (Chan new) (CHANNELS_append new g1)
     = (g2, Raise (RuntimeError msg)) →
     contains "maximum recursion depth" msg = true →
     get_channel sched (S fuel) fts channel g
     = (g2, Raise (RuntimeError
                     ("Recursion error while access channel information for "
                      +:+ str channel)))
     ∧ new ∈ CHANNELS g2)
  ∧ (fuel = 0 →
     get_channel sched 1 fts channel g
     = (CHANNELS_append new g1,
        Raise (RuntimeError
                 ("Recursion error while access channel information for "
                  +:+ str channel)))).
Proof.
  intros Hfind Hbuild.
  assert (Hrewrap : ∀ g2 msg,
    get_channel sched fuel true (Chan new) (CHANNELS_append new g1)
    = (g2, Raise (RuntimeError msg)) →
    contains "maximum recursion depth" msg = true →
    get_channel sched (S fuel) fts channel g
    = (g2, Raise (RuntimeError
                    ("Recursion error while access channel information for "
                     +:+ str channel)))).
  { intros g2 msg Hre Hmsg.
    rewrite (build_then_register _ _ _ _ _ _ _ _ Hfind eq_refl).
    unfold bind at 1. rewrite Hbuild.
    unfold register, bind, try_except_else, raise. rewrite Hre.
    by rewrite Hmsg. }
  split.
  - intros g2 msg Hre Hmsg. split; [by eapply Hrewrap|].
    destruct (get_channel_sound _ _ _ _ _ _ _ Hre) as [Hext _].
    apply (extends_elem_of _ _ _ Hext). simpl.
    apply elem_of_app. right. by apply list_elem_of_singleton.
  - intros ->. by apply (Hrewrap _ "maximum recursion depth exceeded").
Qed.

(** X6: a raw name asked with an explicit type is registered under that
    type without a sample rate: only names with a trend suffix get the rate
    of their type. *)
Theorem typed_raw_name_has_no_rate sched fuel fts g n t :
  contains_char " " n = false → contains_char "," n = false →
  has_trend_suffix n = false → length (MATCH_finditer n) = 1 →
  contains_char " " t = false → contains_char "," t = false →
  t ≠ EmptyString →
  (∀ c, c ∈ CHANNELS g → name c = n → type c ≠ Some t) →
  ∃ new,
    get_channel sched (S (S fuel)) fts (Str (n +:+ "," +:+ t)) g
    = (CHANNELS_append new g, Ok new)
    ∧ name new = n ∧ type new = Some t ∧ sample_rate new = None.
Proof.
  intros Hsp Hco Hsuf Hlen Hspt Hcot Hne Hfree.
  assert (Hnone : ∀ r, sieve (CHANNELS g) n (Some t) r = []).
  { intros r. apply sieve_nil. intros c Hc Hn. unfold matches_type.
    destruct (type c) as [tc|] eqn:Htc; [|done].
    apply String.eqb_neq. intros ->. by apply (Hfree c). }
  exists (Channel_new (n +:+ "," +:+ t)).
  rewrite Channel_new_typed by done. split; [|done].
  rewrite (build_then_register _ _ _ _ _ n (Some t) []); [| |done].
  - unfold bind at 1. rewrite build_raw, raw_channel_eq by done. simpl str.
    rewrite Channel_new_typed by done.
    apply register_fresh; simpl; [done|done|].
    destruct t; [done|apply Hnone].
  - unfold find_existing. simpl str.
    change ("," +:+ t) with (String "," t).
    rewrite !contains_char_app, Hsp, Hco. simpl contains_char.
    rewrite Hspt. simpl. rewrite rsplit1_app by done. by rewrite Hnone.
Qed.

(** *** Trends *)

(** X5: in GPS mode a trend name without a type resolves to a second-trend
    of rate 1; a trend name asked as [m-trend] resolves to a minute-trend of
    rate 1/60 in any mode. *)
Theorem trend_type_from_mode_or_request sched fuel fts g n :
  contains_char " " n = false → contains_char "," n = false →
  has_trend_suffix n = true →
  length (MATCH_finditer n) = 1 →
  length (MATCH_finditer (before_first "." n)) = 1 →
  (MODE g = SUMMARY_MODE_GPS →
   (∀ c, c ∈ CHANNELS g → name c ≠ n) →
   ∃ g' c, get_channel sched (S (S (S fuel))) fts (Str n) g = (g', Ok c)
           ∧ name c = n ∧ type c = Some "s-trend"
           ∧ sample_rate c = Some (Qmake 1 1))
  ∧ ((∀ c, c ∈ CHANNELS g → name c = n → type c ≠ Some "m-trend") →
     ∃ g' c, get_channel sched (S (S (S fuel))) fts
                         (Str (n +:+ ",m-trend")) g = (g', Ok c)
             ∧ name c = n ∧ type c = Some "m-trend"
             ∧ sample_rate c = Some (Qmake 1 60)).
Proof.
  intros Hsp Hco Hsuf Hlen Hraw. split.
  - intros Hmode Hfree.
    apply (trend_resolution sched fuel fts (Str n) g n None "s-trend");
      try done.
    + rewrite find_existing_plain by done. simpl. f_equal.
      by apply sieve_unnamed.
    + unfold trend_type. by rewrite Hmode, Nat.eqb_refl.
    + auto.
    + intros c Hc Hn. by destruct (Hfree c).
  - intros Hfree.
    apply (trend_resolution sched fuel fts (Str (n +:+ ",m-trend")) g n
             (Some "m-trend") "m-trend"); try done.
    + unfold find_existing. simpl str.
      rewrite !contains_char_app, Hsp, Hco.
      change (contains_char " " ",m-trend") with false.
      change (contains_char "," ",m-trend") with true. cbv iota. simpl orb.
      cbv iota.
      change ("," +:+ "m-trend") with (String "," "m-trend").
      rewrite (rsplit1_app "," n "m-trend") by done. f_equal.
      apply sieve_nil. intros c Hc Hn. unfold matches_type.
      destruct (type c) as [tc|] eqn:Htc; [|done].
      apply String.eqb_neq. intros ->. by apply (Hfree c).
    + auto.
Qed.

Lemma find_existing_Str_plain g n :
  contains_char " " n = false → contains_char "," n = false →
  find_existing g (Str n) = (n, None, sieve (CHANNELS g) n None None).
Proof. intros Hsp Hco. by rewrite find_existing_plain. Qed.

Lemma trend_rate_meta t c :
  url (trend_rate t c) = url c ∧ unit_ (trend_rate t c) = unit_ c.
Proof.
  unfold trend_rate. destruct (String.eqb t "m-trend"); [done|].
  by destruct (String.eqb t "s-trend").
Qed.

(** X7: a trend takes [url] and [unit] from its source when the source is
    the one registered channel of that name; when the source is ambiguous
    the error is swallowed, and when [find_trend_source] is off the source
    is not looked up: in both cases the trend is registered without the
    source's metadata.  In all three cases the registry gains the trend
    only. *)
Theorem trend_takes_metadata_of_its_source sched fuel g n :
  contains_char " " n = false → contains_char "," n = false →
  has_trend_suffix n = true →
  length (MATCH_finditer n) = 1 →
  (∀ c, c ∈ CHANNELS g → name c ≠ n) →
  let new := Channel_new (n +:+ "," +:+ trend_type g None) in
  (∀ source,
     sieve (CHANNELS g) (before_first "." n) None None = [source] →
     get_channel sched (S (S fuel)) true (Str n) g
     = (CHANNELS_append (trend_rate (trend_type g None)
                           (copy_source source new)) g,
        Ok (trend_rate (trend_type g None) (copy_source source new)))
     ∧ url (trend_rate (trend_type g None) (copy_source source new))
       = url source
     ∧ unit_ (trend_rate (trend_type g None) (copy_source source new))
       = unit_ source)
  ∧ (2 ≤ length (sieve (CHANNELS g) (before_first "." n) None None) →
     get_channel sched (S (S fuel)) true (Str n) g
     = (CHANNELS_append (trend_rate (trend_type g None) new) g,
        Ok (trend_rate (trend_type g None) new)))
  ∧ get_channel sched (S (S fuel)) false (Str n) g
    = (CHANNELS_append (trend_rate (trend_type g None) new) g,
       Ok (trend_rate (trend_type g None) new)).
Proof.
  intros Hsp Hco Hsuf Hlen Hfree new.
  assert (Ht : contains_char "," (trend_type g None) = false).
  { unfold trend_type. by destruct (_ =? _). }
  subst new. rewrite Channel_new_typed by done.
  set (new := mkChannel n (Some (trend_type g None)) None None None
                        None None [] [] (parse_ifo n)).
  assert (Hreg : ∀ c, name c = n →
            register sched (S fuel) (Str n) c g = (CHANNELS_append c g, Ok c)).
  { intros c Hn. apply register_fresh; rewrite ?Hn; [done|done|].
    by apply sieve_unnamed. }
  assert (Hname : ∀ c, name c = n → name (trend_rate (trend_type g None) c) = n).
  { intros c Hn. by destruct (trend_rate_name (trend_type g None) c) as [-> _]. }
  assert (Hstart : ∀ fts,
    get_channel sched (S (S fuel)) fts (Str n) g
    = (let! new :=
         (let! new0 :=
            (if fts then
               try_except_else
                 (get_channel sched (S fuel) true (Str (before_first "." n)))
                 is_ValueError (λ _, ret new)
                 (λ source, ret (copy_source source new))
             else ret new) in
          ret (trend_rate (trend_type g None) new0)) in
       register sched (S fuel) (Str n) new) g).
  { intros fts. rewrite (build_then_register _ _ _ _ _ n None []); [| |done].
    - unfold bind at 1. rewrite build_trend by done.
      by rewrite Channel_new_typed by done.
    - rewrite find_existing_Str_plain by done. by rewrite sieve_unnamed. }
  assert (Hsrc : find_existing g (Str (before_first "." n))
                 = (before_first "." n, None,
                    sieve (CHANNELS g) (before_first "." n) None None)).
  { apply find_existing_Str_plain; by apply contains_char_before_first. }
  split_and!.
  - intros source Hfound. split_and!.
    + rewrite Hstart. unfold bind, try_except_else, ret.
      rewrite get_channel_S, Hsrc, Hfound. by apply Hreg, Hname.
    + by destruct (trend_rate_meta (trend_type g None)
                     (copy_source source new)) as [-> _].
    + by destruct (trend_rate_meta (trend_type g None)
                     (copy_source source new)) as [_ ->].
  - intros Hamb. rewrite Hstart. unfold bind, try_except_else, ret.
    rewrite get_channel_S, Hsrc.
    destruct (sieve (CHANNELS g) (before_first "." n) None None)
      as [|c1 [|c2 found]]; simpl in Hamb; [lia|lia|]. simpl is_ValueError.
    cbv iota. by apply Hreg, Hname.
  - rewrite Hstart. unfold bind, ret. by apply Hreg, Hname.
Qed.

(** *** Composites *)

(** X8: a name in which the grammar finds no channel token is treated as a
    composite of nothing: it is registered with no subchannel and an empty
    site identifier. *)
Theorem name_without_token_is_registered_bare sched fuel fts g n :
  contains_char "," n = false → MATCH_finditer n = [] →
  (∀ c, c ∈ CHANNELS g → name c ≠ n) →
  ∃ new,
    get_channel sched (S (S fuel)) fts (Str n) g
    = (CHANNELS_append new g, Ok new)
    ∧ name new = n ∧ subchannels new = [] ∧ _ifo new = Some EmptyString.
Proof.
  intros Hco Hm Hfree.
  assert (Hiter : set_iter [] = []).
  { apply Permutation_nil. by rewrite set_iter_perm. }
  exists (set_composite [] EmptyString (Channel_new n)).
  rewrite Channel_new_plain by done. split; [|done].
  assert (Hbuild : ∀ t,
    build sched (S fuel) fts (Str n) n t g g
    = (g, Ok (set_composite [] EmptyString
                (mkChannel n None None None None None None [] []
                           (parse_ifo n))))).
  { intros t. rewrite build_composite by (by rewrite Hm). rewrite Hm.
    unfold bind, ret. simpl. rewrite Hiter.
    by rewrite Channel_new_plain. }
  destruct (contains_char " " n) eqn:Hsp.
  - rewrite (build_then_register _ _ _ _ _ n (MATCH_type n) []);
      [| |done].
    + unfold bind at 1. rewrite Hbuild.
      apply register_fresh_composite; simpl; [done|].
      by apply sieve_unnamed.
    + unfold find_existing. simpl str. rewrite Hsp.
      by rewrite sieve_unnamed.
  - rewrite (build_then_register _ _ _ _ _ n None []); [| |done].
    + unfold bind at 1. rewrite Hbuild.
      apply register_fresh; simpl; [done|done|]. by apply sieve_unnamed.
    + rewrite find_existing_Str_plain by done. by rewrite sieve_unnamed.
Qed.

(** X9: when the dispatcher fails on the tokens of a composite, the
    composite fails with the same error and registers nothing of its
    own. *)
Theorem composite_fails_with_its_parts sched fuel fts g n g1 e :
  contains_char " " n = true →
  (∀ c, c ∈ CHANNELS g → name c ≠ n) →
  length (MATCH_finditer n) ≠ 1 →
  get_channels sched (S fuel) false (map Str (MATCH_finditer n)) g
  = (g1, Raise e) →
  get_channel sched (S (S fuel)) fts (Str n) g = (g1, Raise e).
Proof.
  intros Hsp Hfree Hlen Hparts.
  rewrite (build_then_register _ _ _ _ _ n (MATCH_type n) []); [| |done].
  - unfold bind at 1. rewrite build_composite by done. unfold bind at 1.
    change (get_channels_with _ _ _ g)
      with (get_channels sched (S fuel) false (map Str (MATCH_finditer n)) g).
    by rewrite Hparts.
  - unfold find_existing. simpl str. rewrite Hsp. by rewrite sieve_unnamed.
Qed.


(** *** Names and registered batches *)

(** X4: a channel resolved for a plain request (no comma in name or type)
    carries the name that was asked and is in the registry. *)
Theorem resolved_channel_keeps_the_name sched fuel fts channel g g' c :
  plain channel →
  get_channel sched fuel fts channel g = (g', Ok c) →
  name c = str channel ∧ c ∈ CHANNELS g'.
Proof.
  intros Hplain Hget. split; [by eapply get_channel_name|].
  by apply (get_channel_sound _ _ _ _ _ _ _ Hget).
Qed.

Lemma find_existing_CHANNELS g1 g2 channel :
  CHANNELS g1 = CHANNELS g2 →
  find_existing g1 channel = find_existing g2 channel.
Proof. intros Heq. unfold find_existing. by rewrite Heq. Qed.

Lemma batch_registered sched fuel fts channels records g g0 order g' items :
  Forall2 (λ channel c, (find_existing g channel).2 = [c]) channels records →
  CHANNELS g0 = CHANNELS g →
  batch (get_channel sched (S fuel) fts) channels g0 order g' items →
  g' = g0 ∧ first_exception items = None
  ∧ ∀ i c, Ok (i, c) ∈ items → records !! i = Some c.
Proof.
  intros Hreg Hg0. induction 1 as
    [g0|g0 i order channel g1 c g' items Hi Hr Hb IH
       |g0 i order channel g1 e g' items Hi Hr Hb IH].
  - split_and!; [done..|]. by intros i c ?%elem_of_nil.
  - destruct (Forall2_lookup_l _ _ _ _ _ Hreg Hi) as (ci & Hci & Hfound).
    rewrite get_channel_S, (find_existing_CHANNELS g0 g) in Hr by done.
    destruct (find_existing g channel) as [[n t] found]. simpl in Hfound.
    subst found. injection Hr as <- <-.
    destruct (IH Hg0) as (-> & Hnone & Hitems). split_and!; [done..|].
    intros j c [[= -> ->]|Hin]%elem_of_cons; [done|by apply Hitems].
  - destruct (Forall2_lookup_l _ _ _ _ _ Hreg Hi) as (ci & Hci & Hfound).
    rewrite get_channel_S, (find_existing_CHANNELS g0 g) in Hr by done.
    destruct (find_existing g channel) as [[n t] found]. simpl in Hfound.
    by subst found.
Qed.

(** X11: for names that each have exactly one match in the registry, the
    dispatcher returns the matches in input order, whatever the completion
    order, and changes nothing but the thread count. *)
Theorem registered_names_are_looked_up sched fuel fts channels records g :
  channels ≠ [] →
  Forall2 (λ channel c, (find_existing g channel).2 = [c]) channels records →
  get_channels sched (S fuel) fts channels g
  = (start_threads (length channels) g, Ok records).
Proof.
  intros Hne Hreg. unfold get_channels.
  destruct (get_channels_with_spec (get_channel sched (S fuel) fts) sched
              channels g Hne) as (g' & items & _ & Hb & ->).
  destruct (batch_registered sched fuel fts channels records g
              (start_threads (length channels) g) _ _ _ Hreg eq_refl Hb)
    as (-> & Hnone & Hitems).
  rewrite Hnone. do 2 f_equal. apply list_eq. intros i.
  destruct (channels !! i) as [channel|] eqn:Hi.
  - destruct (sorted_oks_lookup _ _ _ _ _ _ i channel Hb
                (completion_order_perm _ _) Hnone Hi) as (c & -> & Hin).
    symmetry. by apply Hitems.
  - apply lookup_ge_None in Hi.
    rewrite (lookup_ge_None_2 records)
      by (by rewrite <- (Forall2_length _ _ _ Hreg)).
    apply lookup_ge_None_2.
    rewrite length_fmap, (Permutation_length (sorted_perm fst _)).
    rewrite <- (length_fmap fst), (batch_oks _ _ _ _ _ _ Hb Hnone).
    by rewrite completion_order_perm, length_seq.
Qed.

End Facts.

(** *** Concrete resolutions *)

(** Claim C4 as stated fails: once the second-trend of a name is
    registered, resolving the bare name outside GPS mode returns that
    record, of sample rate 1 and not 1/60. *)
Lemma registered_trend_wins :
  ∃ c, get_channel fifo 4 true (Str "H1:FOO.mean") after_s_trend
       = (after_s_trend, Ok c)
       ∧ MODE after_s_trend ≠ SUMMARY_MODE_GPS
       ∧ sample_rate c = Some (Qmake 1 1)
       ∧ ¬ Qeq (Qmake 1 1) (Qmake 1 60).
Proof.
  eexists. split; [vm_compute; reflexivity|].
  split; [by vm_compute|]. split; [reflexivity|]. by vm_compute.
Qed.

Lemma registered_channel_is_returned_witness :
  (find_existing after_s_trend (Str "H1:FOO")).2
  = [Channel_new "H1:FOO"]
  ∧ get_channel fifo 1 true (Str "H1:FOO") after_s_trend
    = (after_s_trend, Ok (Channel_new "H1:FOO")).
Proof.
  split; [reflexivity|].
  by destruct (registered_channel_is_returned fifo 0 true (Str "H1:FOO")
                 after_s_trend (Channel_new "H1:FOO") eq_refl) as [Hget _].
Defined.

Lemma ambiguous_request_fails_witness :
  2 ≤ length (find_existing twice_registered (Str "H1:X")).2
  ∧ get_channel lifo 1 true (Str "H1:X") twice_registered
    = (twice_registered,
       Raise (AmbiguousChannel "H1:X" (CHANNELS twice_registered))).
Proof.
  split; [vm_compute; lia|].
  apply (ambiguous_request_fails lifo 0 true (Str "H1:X") twice_registered).
  vm_compute. lia.
Defined.

Lemma get_channels_in_input_order_witness :
  (get_channels lifo 3 false [Str "H1:A"; Str "L1:B"; Str "H1:C"]
                (fresh 0)).2
  = Ok [Channel_new "H1:A"; Channel_new "L1:B"; Channel_new "H1:C"]
  ∧ get_channels lifo 3 false [] (fresh 0) = (fresh 0, Ok []).
Proof.
  split; [reflexivity|].
  by destruct (get_channels_in_input_order lifo 3 false (Str "H1:A")
                 [Str "L1:B"; Str "H1:C"] (fresh 0)) as [Hempty _].
Defined.

Lemma failed_batch_keeps_registrations_witness :
  (∃ e, (get_channels lifo 3 false [Str "H1:Y"; Str "H1:X"; Str "H1:Z"]
           twice_registered).2 = Raise e)
  ∧ Channel_new "H1:Z"
    ∈ CHANNELS (get_channels lifo 3 false
                  [Str "H1:Y"; Str "H1:X"; Str "H1:Z"] twice_registered).1.
Proof.
  split; [eexists; reflexivity|].
  destruct (get_channels lifo 3 false [Str "H1:Y"; Str "H1:X"; Str "H1:Z"]
              twice_registered) as [g' r] eqn:Hget.
  assert (∃ e, r = Raise e) as [e ->]
    by (exists (AmbiguousChannel "H1:X" (CHANNELS twice_registered));
        by apply (f_equal snd) in Hget).
  apply (failed_batch_keeps_registrations _ _ _ _ _ _ _ Hget) with 2.
  by apply list_elem_of_lookup_2 with 0.
Defined.

Lemma trend_sample_rate_witness :
  (∃ g' c, get_channel fifo 3 true (Str "H1:FOO.mean") (fresh 0) = (g', Ok c)
           ∧ sample_rate c = Some (Qmake 1 60))
  ∧ (∃ g' c, get_channel fifo 3 true (Str "H1:FOO.mean,s-trend") (fresh 4)
             = (g', Ok c)
             ∧ sample_rate c = Some (Qmake 1 1)).
Proof.
  destruct (trend_sample_rate fifo 0 true (fresh 0) "H1:FOO.mean")
    as [Hm _]; [reflexivity..|].
  destruct (trend_sample_rate fifo 0 true (fresh 4) "H1:FOO.mean")
    as [_ Hs]; [reflexivity..|].
  split.
  - apply Hm; [by vm_compute|]. by intros c ?%elem_of_nil.
  - apply Hs. by intros c ?%elem_of_nil.
Defined.



(** *** Concrete resolutions, continued *)

Lemma get_channel_only_registers_witness :
  cis_queries
    (get_channel lifo 3 true (Str "H1:FOO.mean L1:BAR") (fresh 0)).1 = [].
Proof.
  destruct (get_channel lifo 3 true (Str "H1:FOO.mean L1:BAR") (fresh 0))
    as [g' r] eqn:Hget.
  cbn [fst].
  by destruct (get_channel_only_registers _ _ _ _ _ _ _ Hget)
    as (_ & _ & -> & _).
Defined.

Lemma get_channels_only_registers_witness :
  2 ≤ threads_started
        (get_channels lifo 3 false [Str "H1:A"; Str "L1:B"] (fresh 0)).1.
Proof.
  destruct (get_channels lifo 3 false [Str "H1:A"; Str "L1:B"] (fresh 0))
    as [g' r] eqn:Hget.
  cbn [fst].
  by destruct (get_channels_only_registers _ _ _ _ _ _ _ Hget)
    as (_ & _ & _ & Ht & _).
Defined.

Lemma raw_channel_is_registered_once_witness :
  get_channel fifo 2 true (Str "H1:A") (fresh 0)
  = (CHANNELS_append (Channel_new "H1:A") (fresh 0), Ok (Channel_new "H1:A")).
Proof.
  destruct (raw_channel_is_registered_once fifo 0 true (fresh 0) "H1:A")
    as [Hget _]; [reflexivity..| |done].
  by intros c ?%elem_of_nil.
Defined.

Lemma construction_at_the_depth_limit_witness :
  get_channel fifo 1 true (Str "H1:A") (fresh 0)
  = (CHANNELS_append (Channel_new "H1:A") (fresh 0),
     Raise (RuntimeError
              "Recursion error while access channel information for H1:A")).
Proof.
  destruct (construction_at_the_depth_limit fifo 0 true (Str "H1:A")
              (fresh 0) "H1:A" None (fresh 0) (Channel_new "H1:A"))
    as [_ Hlimit]; [reflexivity..|].
  by apply Hlimit.
Defined.

Lemma typed_raw_name_has_no_rate_witness :
  ∃ new, get_channel fifo 2 true (Str "H1:A,s-trend") (fresh 0)
         = (CHANNELS_append new (fresh 0), Ok new)
         ∧ sample_rate new = None.
Proof.
  destruct (typed_raw_name_has_no_rate fifo 0 true (fresh 0) "H1:A" "s-trend")
    as (new & Hget & _ & _ & Hrate); [reflexivity..|done| |].
  - by intros c ?%elem_of_nil.
  - by exists new.
Defined.

Lemma trend_type_from_mode_or_request_witness :
  ∃ g' c, get_channel fifo 3 true (Str "H1:FOO.mean") (fresh 4) = (g', Ok c)
          ∧ sample_rate c = Some (Qmake 1 1).
Proof.
  destruct (trend_type_from_mode_or_request fifo 0 true (fresh 4)
              "H1:FOO.mean") as [Hgps _]; [reflexivity..|].
  destruct Hgps as (g' & c & Hget & _ & _ & Hrate); [reflexivity| |].
  - by intros c ?%elem_of_nil.
  - by exists g', c.
Defined.

Lemma trend_takes_metadata_of_its_source_witness :
  ∃ c, (get_channel fifo 2 true (Str "H1:X.mean") twice_registered).2 = Ok c
       ∧ url c = None.
Proof.
  destruct (trend_takes_metadata_of_its_source fifo 0 twice_registered
              "H1:X.mean") as (_ & Hamb & _); [reflexivity..| |].
  - intros c. unfold twice_registered. simpl CHANNELS.
    rewrite !elem_of_cons, elem_of_nil. by intros [->|[->|[]]].
  - eexists. rewrite Hamb; [done|]. vm_compute. lia.
Defined.

Lemma name_without_token_is_registered_bare_witness :
  ∃ new, get_channel fifo 2 true (Str "") (fresh 0)
         = (CHANNELS_append new (fresh 0), Ok new)
         ∧ subchannels new = [].
Proof.
  destruct (name_without_token_is_registered_bare fifo 0 true (fresh 0) "")
    as (new & Hget & _ & Hsub & _); [reflexivity..| |].
  - by intros c ?%elem_of_nil.
  - by exists new.
Defined.

Lemma resolved_channel_keeps_the_name_witness :
  ∃ c, (get_channel fifo 3 true (Chan (Channel_new "H1:FOO.mean"))
                    (fresh 0)).2 = Ok c
       ∧ name c = "H1:FOO.mean".
Proof.
  destruct (get_channel fifo 3 true (Chan (Channel_new "H1:FOO.mean"))
              (fresh 0)) as [g' r] eqn:Hget.
  assert (∃ c, r = Ok c) as [c ->]
    by (apply (f_equal snd) in Hget; simpl in Hget; subst r; by eexists).
  exists c. split; [done|].
  by destruct (resolved_channel_keeps_the_name fifo 3 true
                 (Chan (Channel_new "H1:FOO.mean")) (fresh 0) g' c)
    as [Hn _]; [by split|done|].
Defined.

Lemma composite_fails_with_its_parts_witness :
  (get_channel lifo 3 true (Str "H1:X L1:B") twice_registered).2
  = Raise (AmbiguousChannel "H1:X" (CHANNELS twice_registered)).
Proof.
  rewrite (composite_fails_with_its_parts lifo 1 true twice_registered
             "H1:X L1:B"
             (get_channels lifo 2 false [Str "H1:X"; Str "L1:B"]
                           twice_registered).1
             (AmbiguousChannel "H1:X" (CHANNELS twice_registered))).
  - reflexivity.
  - reflexivity.
  - intros c. unfold twice_registered. simpl CHANNELS.
    rewrite !elem_of_cons, elem_of_nil. by intros [->|[->|[]]].
  - by vm_compute.
  - reflexivity.
Defined.

Lemma registered_names_are_looked_up_witness :
  get_channels lifo 1 true [Str "H1:FOO"; Str "H1:FOO"] after_s_trend
  = (start_threads 2 after_s_trend,
     Ok [Channel_new "H1:FOO"; Channel_new "H1:FOO"]).
Proof.
  apply (registered_names_are_looked_up lifo 0 true
           [Str "H1:FOO"; Str "H1:FOO"]
           [Channel_new "H1:FOO"; Channel_new "H1:FOO"] after_s_trend);
    [done|]. by repeat constructor.
Defined.

End ChannelsFacts.

(** ** The archive store *)

Module ArchiveFacts.
Import Channels ChannelsFacts Archive.
Section Facts.
Context `{External}.

(** *** Backup and restore *)

Lemma mktemp_nonempty env suffix prefix :
  truthy_str (Some (mktemp env suffix prefix))
  = Some (mktemp env suffix prefix).
Proof. unfold mktemp. by destruct (tempdir env). Qed.

Lemma write_file_result env outfile ts sp sg c fs fs' :
  (write_file env outfile ts sp sg c fs).2
  = (write_file env outfile ts sp sg c fs').2.
Proof.
  unfold write_file. destruct (open_fault env); [done|].
  by destruct (serialize env ts sp sg c).
Qed.

Lemma write_file_moves env outfile ts sp sg c fs :
  moves (write_file env outfile ts sp sg c fs).1 = moves fs.
Proof.
  unfold write_file. destruct (open_fault env); [done|].
  by destruct (serialize env ts sp sg c).
Qed.

Lemma restored_files (files0 : gmap string h5file) outfile backup content
    (written : option h5file) :
  files0 !! outfile = Some content → files0 !! backup = None →
  <[outfile := content]>
    (delete backup
       (match written with
        | Some f => <[outfile := f]>
        | None => id
        end (<[backup := content]> (delete outfile files0))))
  = files0.
Proof.
  intros Hout Hbak. assert (outfile ≠ backup) by congruence.
  apply map_eq. intros k.
  destruct (decide (k = outfile)) as [->|]; [by rewrite lookup_insert_eq|].
  rewrite lookup_insert_ne by done.
  destruct (decide (k = backup)) as [->|]; [by rewrite lookup_delete_eq|].
  rewrite lookup_delete_ne by done.
  destruct written; simpl;
    by rewrite !lookup_insert_ne, lookup_delete_ne by done.
Qed.

(** Claim C2, as the code has it: (1) when the target does not exist, no
    backup is made and no file is moved, and writing proceeds exactly as
    without the backup step: it succeeds, leaving the serialized file at
    the target, whenever opening and serializing do; (2) when the target
    exists, has been moved to the backup path, and opening or serializing
    raises, the same error is raised and, the move back succeeding, the
    files are what they were before, the old content back at the target;
    (3) when the move to the backup path raises an [IOError], the error is
    dropped and the write goes ahead without a backup, on the files as the
    failed move left them: nothing is restored, whatever the writing
    does. *)
Theorem write_backup_and_restore env outfile ts sp sg c fs :
  (files fs !! outfile = None →
     backup_existing_archive env outfile fs = (fs, Ok None)
     ∧ write_data_archive env outfile ts sp sg c fs
       = write_file env outfile ts sp sg c fs
     ∧ moves (write_data_archive env outfile ts sp sg c fs).1 = moves fs
     ∧ (open_fault env = None →
        (serialize env ts sp sg c).2 = Ok () →
        write_data_archive env outfile ts sp sg c fs
        = ({| files := <[outfile := (serialize env ts sp sg c).1]> (files fs);
              moves := moves fs |}, Ok ())))
  ∧ (∀ content e,
       files fs !! outfile = Some content →
       files fs !! mktemp env ".hdf" "gw_summary_archive_" = None →
       move_fault env outfile (mktemp env ".hdf" "gw_summary_archive_")
       = None →
       move_fault env (mktemp env ".hdf" "gw_summary_archive_") outfile
       = None →
       (write_file env outfile ts sp sg c fs).2 = Raise e →
       (write_data_archive env outfile ts sp sg c fs).2 = Raise e
       ∧ files (write_data_archive env outfile ts sp sg c fs).1 = files fs
       ∧ files (write_data_archive env outfile ts sp sg c fs).1 !! outfile
         = Some content
       ∧ moves (write_data_archive env outfile ts sp sg c fs).1
         = moves fs ++ [(outfile, mktemp env ".hdf" "gw_summary_archive_");
                        (mktemp env ".hdf" "gw_summary_archive_", outfile)])
  ∧ (∀ content e leftover,
       files fs !! outfile = Some content →
       move_fault env outfile (mktemp env ".hdf" "gw_summary_archive_")
       = Some (e, leftover) →
       is_IOError e = true →
       write_data_archive env outfile ts sp sg c fs
       = write_file env outfile ts sp sg c
           {| files := match leftover with
                       | Some f =>
                           <[mktemp env ".hdf" "gw_summary_archive_" := f]>
                             (files fs)
                       | None => files fs
                       end;
              moves := moves fs |}).
Proof.
  split_and!.
  - intros Hnone.
    assert (Hb : backup_existing_archive env outfile fs = (fs, Ok None)).
    { unfold backup_existing_archive, move. by rewrite Hnone. }
    assert (Hw : write_data_archive env outfile ts sp sg c fs
                 = write_file env outfile ts sp sg c fs).
    { unfold write_data_archive. rewrite Hb.
      by destruct (write_file env outfile ts sp sg c fs) as [fs2 [[]|e]]. }
    split_and!; [done|done|by rewrite Hw, write_file_moves|].
    intros Hopen Hser. rewrite Hw. unfold write_file. rewrite Hopen.
    destruct (serialize env ts sp sg c) as [f r]. simpl in *. by subst r.
  - intros content e Hout Hbak Hmove Hback Hraise.
    set (backup := mktemp env ".hdf" "gw_summary_archive_") in *.
    unfold write_data_archive, backup_existing_archive, move.
    rewrite Hout. fold backup. rewrite Hmove.
    set (fs1 := {| files := <[backup := content]> (delete outfile (files fs));
                   moves := moves fs ++ [(outfile, backup)] |}).
    destruct (write_file env outfile ts sp sg c fs1) as [fs2 r] eqn:Hwf.
    assert (r = Raise e) as ->.
    { transitivity ((fs2, r).2); [done|].
      rewrite <- Hwf, <- Hraise. apply write_file_result. }
    unfold backup. rewrite mktemp_nonempty. fold backup.
    unfold restore_backup, move.
    assert (Hfs2 : ∃ written,
      fs2 = {| files := match written with
                        | Some f => <[outfile := f]>
                        | None => id
                        end (<[backup := content]> (delete outfile (files fs)));
               moves := moves fs ++ [(outfile, backup)] |}).
    { unfold write_file in Hwf. destruct (open_fault env).
      - injection Hwf as <- _. by exists None.
      - destruct (serialize env ts sp sg c) as [f r].
        injection Hwf as <- _. by exists (Some f). }
    destruct Hfs2 as [written ->]. simpl.
    assert (Hlook : match written with
                    | Some f => <[outfile := f]>
                    | None => id
                    end (<[backup := content]> (delete outfile (files fs)))
                    !! backup = Some content).
    { assert (outfile ≠ backup) by congruence.
      destruct written; simpl; rewrite ?lookup_insert_ne by done;
        by rewrite lookup_insert_eq. }
    rewrite Hlook, Hback. simpl.
    rewrite restored_files by done.
    split_and!; [done|done|done|by rewrite <- app_assoc].
  - intros content e leftover Hout Hmove Hio.
    unfold write_data_archive, backup_existing_archive, move.
    rewrite Hout, Hmove, Hio.
    by destruct (write_file _ _ _ _ _ _ _) as [fs2 [[]|e']].
Qed.

(** *** What a collection and a group hold *)

Lemma elem_of_itervalues {V : Type} (d : gmap string V) (v : V) :
  v ∈ itervalues d ↔ ∃ k, d !! k = Some v.
Proof.
  unfold itervalues. rewrite list_elem_of_fmap. split.
  - intros ([k v'] & -> & Hin%elem_of_map_to_list). by exists k.
  - intros [k Hk]. exists (k, v). split; [done|].
    by apply elem_of_map_to_list.
Qed.




(** *** Writing *)

Lemma write_group_ok {V : Type} env (key : V → string) (vs : list V)
    (g0 g : gmap string V) :
  write_group env key vs g0 = (g, Ok ()) →
  ∀ v, (∃ k, g !! k = Some v) ↔ (∃ k, g0 !! k = Some v) ∨ v ∈ vs.
Proof.
  revert g0. induction vs as [|x vs IH]; intros g0; simpl.
  - intros [= <-] v. rewrite elem_of_nil. tauto.
  - unfold h5_write. destruct (write_fault env (key x)); [done|].
    destruct (g0 !! key x) eqn:Hx; [done|].
    intros Hw v. rewrite (IH _ Hw), elem_of_cons. split.
    + intros [[k Hk]|Hv]; [|auto].
      destruct (decide (k = key x)) as [->|Hne].
      * rewrite lookup_insert_eq in Hk. injection Hk as ->. auto.
      * rewrite lookup_insert_ne in Hk by done. eauto.
    + intros [[k Hk]|[->|Hv]]; [| |auto].
      * left. exists k. rewrite lookup_insert_ne; [done|]. congruence.
      * left. exists (key x). by rewrite lookup_insert_eq.
Qed.

Lemma itervalues_written {V : Type} env (key : V → string) (vs : list V)
    (g : gmap string V) (v : V) :
  write_group env key vs ∅ = (g, Ok ()) → v ∈ itervalues g ↔ v ∈ vs.
Proof.
  intros Hw. rewrite elem_of_itervalues, (write_group_ok _ _ _ _ _ Hw).
  split; [|auto]. intros [[k Hk]|Hv]; [|done]. by rewrite lookup_empty in Hk.
Qed.



(** *** Reading *)

Lemma foldl_raise {V : Type}
    (f : globalv * collections * result () → V
         → globalv * collections * result ()) (l : list V) g c e :
  (∀ g c e v, f (g, c, Raise e) v = (g, c, Raise e)) →
  foldl f (g, c, Raise e) l = (g, c, Raise e).
Proof. intros Hf. induction l as [|v l IH]; simpl; [done|]. by rewrite Hf. Qed.

Lemma read_timeseries_frame env sched fuel l acc :
  SPECTROGRAMS (foldl (read_timeseries env sched fuel) acc l).1.2
  = SPECTROGRAMS acc.1.2
  ∧ SEGMENTS (foldl (read_timeseries env sched fuel) acc l).1.2
    = SEGMENTS acc.1.2.
Proof.
  revert acc. induction l as [|ts l IH]; intros acc; simpl; [done|].
  destruct (IH (read_timeseries env sched fuel acc ts)) as [-> ->].
  destruct acc as [[g c] [[]|e]]; simpl; [|done].
  destruct (ts_read_fault env ts); [done|].
  by destruct (get_channel _ _ _ _ g) as [g' [ch|e]].
Qed.

Lemma read_spectrogram_frame env sched fuel l acc :
  DATA (foldl (read_spectrogram env sched fuel) acc l).1.2 = DATA acc.1.2
  ∧ SEGMENTS (foldl (read_spectrogram env sched fuel) acc l).1.2
    = SEGMENTS acc.1.2.
Proof.
  revert acc. induction l as [|spec l IH]; intros acc; simpl; [done|].
  destruct (IH (read_spectrogram env sched fuel acc spec)) as [-> ->].
  destruct acc as [[g c] [[]|e]]; simpl; [|done].
  destruct (spec_read_fault env spec); [done|].
  by destruct (get_channel _ _ _ _ g) as [g' [ch|e]].
Qed.





(** *** Round trip and missing groups *)



(** The collections the program builds are filed by name: the empty ones
    are, and filing a spectrogram or merging a flag keeps them so. *)
Lemma filed_by_name_no_data : filed_by_name no_data.
Proof.
  split; intros k v Hk; unfold no_data in Hk; simpl in Hk;
    by rewrite lookup_empty in Hk.
Qed.

Lemma filed_by_name_add_spectrogram (spec : Spectrogram) (c : collections) :
  filed_by_name c →
  filed_by_name {| DATA := DATA c;
                   SPECTROGRAMS := add_spectrogram spec (SPECTROGRAMS c);
                   SEGMENTS := SEGMENTS c |}.
Proof.
  intros [Hs Hg]. split; [|done]. simpl. unfold add_spectrogram.
  intros k l Hk. destruct (decide (k = spec_name spec)) as [->|Hne].
  - rewrite lookup_insert_eq in Hk. injection Hk as <-. split.
    + by destruct (default [] _).
    + intros x [Hx|Hx%list_elem_of_singleton]%elem_of_app; [|by subst].
      destruct (SPECTROGRAMS c !! spec_name spec) as [l|] eqn:Hl;
        simpl in Hx; [|by apply elem_of_nil in Hx].
      by apply (Hs _ _ Hl).
  - rewrite lookup_insert_ne in Hk by done. by apply Hs.
Qed.

Lemma filed_by_name_add_segments (v : DataQualityFlag) (c : collections) :
  filed_by_name c →
  filed_by_name {| DATA := DATA c; SPECTROGRAMS := SPECTROGRAMS c;
                   SEGMENTS := add_segments v (SEGMENTS c) |}.
Proof.
  intros [Hs Hg]. split; [done|]. simpl. unfold add_segments.
  intros k w Hk. destruct (decide (k = dq_name v)) as [->|Hne].
  - rewrite lookup_insert_eq in Hk. by injection Hk as <-.
  - rewrite lookup_insert_ne in Hk by done. by apply Hg.
Qed.




(** *** What a write leaves on disk *)

(** X12: overwriting an existing archive without error, after the move to
    the backup path has succeeded, leaves the old archive at that path:
    the new file is at the target, one move has been made, and the backup
    is not removed. *)
Theorem successful_overwrite_keeps_backup env outfile ts sp sg c fs old :
  files fs !! outfile = Some old →
  files fs !! mktemp env ".hdf" "gw_summary_archive_" = None →
  move_fault env outfile (mktemp env ".hdf" "gw_summary_archive_") = None →
  open_fault env = None →
  (serialize env ts sp sg c).2 = Ok () →
  write_data_archive env outfile ts sp sg c fs
  = ({| files := <[outfile := (serialize env ts sp sg c).1]>
                   (<[mktemp env ".hdf" "gw_summary_archive_" := old]>
                      (delete outfile (files fs)));
        moves := moves fs
                 ++ [(outfile, mktemp env ".hdf" "gw_summary_archive_")] |},
     Ok ())
  ∧ files (write_data_archive env outfile ts sp sg c fs).1
      !! mktemp env ".hdf" "gw_summary_archive_" = Some old.
Proof.
  intros Hold Hfresh Hmove Hopen Hser.
  assert (Hw : write_data_archive env outfile ts sp sg c fs
    = ({| files := <[outfile := (serialize env ts sp sg c).1]>
                     (<[mktemp env ".hdf" "gw_summary_archive_" := old]>
                        (delete outfile (files fs)));
          moves := moves fs
                   ++ [(outfile, mktemp env ".hdf" "gw_summary_archive_")] |},
       Ok ())).
  { unfold write_data_archive, backup_existing_archive, move, write_file.
    rewrite Hold, Hmove. simpl. rewrite Hopen.
    destruct (serialize env ts sp sg c) as [f r]. simpl in *. by subst r. }
  split; [done|]. rewrite Hw. simpl.
  rewrite lookup_insert_ne by congruence. by rewrite lookup_insert_eq.
Qed.

(** X13: when no archive exists at the target, nothing is backed up and
    nothing is restored: an error at opening leaves the files as they were,
    and an error while the records are written leaves the partly written
    file at the target; the error is raised in both cases. *)
Theorem failed_first_write_leaves_what_was_written
    env outfile ts sp sg c fs e :
  files fs !! outfile = None →
  (open_fault env = Some e →
   write_data_archive env outfile ts sp sg c fs = (fs, Raise e))
  ∧ (open_fault env = None → (serialize env ts sp sg c).2 = Raise e →
     write_data_archive env outfile ts sp sg c fs
     = ({| files := <[outfile := (serialize env ts sp sg c).1]> (files fs);
           moves := moves fs |}, Raise e)).
Proof.
  intros Hnone. split.
  - intros Hopen.
    unfold write_data_archive, backup_existing_archive, move, write_file.
    rewrite Hnone. simpl. by rewrite Hopen.
  - intros Hopen Hser.
    unfold write_data_archive, backup_existing_archive, move, write_file.
    rewrite Hnone. simpl. rewrite Hopen.
    destruct (serialize env ts sp sg c) as [f r]. simpl in *. by subst r.
Qed.

Lemma write_group_keys {V : Type} env (key : V → string) (vs : list V)
    (g0 g : gmap string V) :
  write_group env key vs g0 = (g, Ok ()) →
  ∀ k v, g !! k = Some v → g0 !! k = Some v ∨ k = key v.
Proof.
  revert g0. induction vs as [|x vs IH]; intros g0; simpl.
  - intros [= <-]. auto.
  - unfold h5_write. destruct (write_fault env (key x)); [done|].
    destruct (g0 !! key x) eqn:Hx; [done|].
    intros Hw k v Hk. destruct (IH _ Hw k v Hk) as [Hk'|]; [|auto].
    destruct (decide (k = key x)) as [->|Hne].
    + rewrite lookup_insert_eq in Hk'. injection Hk' as ->. auto.
    + rewrite lookup_insert_ne in Hk' by done. auto.
Qed.

Lemma written_group {V : Type} env (key : V → string) (vs : list V)
    (g : gmap string V) :
  write_group env key vs ∅ = (g, Ok ()) →
  (∀ v, v ∈ itervalues g ↔ v ∈ vs) ∧ ∀ k v, g !! k = Some v → k = key v.
Proof.
  intros Hw. split.
  - intros v. by apply (itervalues_written env key).
  - intros k v Hk. destruct (write_group_keys _ _ _ _ _ Hw k v Hk) as [Hk'|];
      [|done]. by rewrite lookup_empty in Hk'.
Qed.

(** X14: an archive written without error holds the groups that were
    asked for and no other; each group holds the records of its collection,
    all of them and nothing else, each under the name
    [write_data_archive] composes for it. *)
Theorem archive_groups_follow_flags env ts sp sg c f :
  serialize env ts sp sg c = (f, Ok ()) →
  (if ts
   then ∃ gt, timeseries f = Some gt
              ∧ (∀ x, x ∈ itervalues gt ↔ x ∈ all_series (DATA c))
              ∧ ∀ k x, gt !! k = Some x → k = ts_key x
   else timeseries f = None)
  ∧ (if sp
     then ∃ gs, spectrogram f = Some gs
                ∧ (∀ x, x ∈ itervalues gs ↔ x ∈ all_series (SPECTROGRAMS c))
                ∧ ∀ k x, gs !! k = Some x → k = spec_key x
     else spectrogram f = None)
  ∧ (if sg
     then ∃ gg, segments f = Some gg
                ∧ (∀ x, x ∈ itervalues gg ↔ x ∈ itervalues (SEGMENTS c))
                ∧ ∀ k x, gg !! k = Some x → k = dq_name x
     else segments f = None).
Proof.
  unfold serialize.
  destruct ts.
  - destruct (write_group env ts_key _ ∅) as [gt [[]|e]] eqn:Ht; [|done].
    apply written_group in Ht. destruct sp.
    + destruct (write_group env spec_key _ ∅) as [gs [[]|e]] eqn:Hs; [|done].
      apply written_group in Hs. destruct sg.
      * destruct (write_group env dq_name _ ∅) as [gg [[]|e]] eqn:Hg; [|done].
        apply written_group in Hg. intros [= <-]. simpl. eauto 10.
      * intros [= <-]. simpl. eauto 10.
    + destruct sg.
      * destruct (write_group env dq_name _ ∅) as [gg [[]|e]] eqn:Hg; [|done].
        apply written_group in Hg. intros [= <-]. simpl. eauto 10.
      * intros [= <-]. simpl. eauto 10.
  - destruct sp.
    + destruct (write_group env spec_key _ ∅) as [gs [[]|e]] eqn:Hs; [|done].
      apply written_group in Hs. destruct sg.
      * destruct (write_group env dq_name _ ∅) as [gg [[]|e]] eqn:Hg; [|done].
        apply written_group in Hg. intros [= <-]. simpl. eauto 10.
      * intros [= <-]. simpl. eauto 10.
    + destruct sg.
      * destruct (write_group env dq_name _ ∅) as [gg [[]|e]] eqn:Hg; [|done].
        apply written_group in Hg. intros [= <-]. simpl. eauto 10.
      * intros [= <-]. simpl. eauto 10.
Qed.

(** *** What a read leaves alone *)

Lemma read_timeseries_globals env sched fuel l g c r g' c' r' :
  foldl (read_timeseries env sched fuel) (g, c, r) l = (g', c', r') →
  extends g g' ∧ Channels.quiet g g'.
Proof.
  revert g c r. induction l as [|ts l IH]; intros g c r; simpl.
  - intros [= <- <- <-]. split; [apply extends_refl|apply quiet_refl].
  - destruct r as [[]|e]; [|apply IH].
    destruct (ts_read_fault env ts) as [e|]; [apply IH|].
    destruct (get_channel sched fuel true (Chan (ts_channel ts)) g)
      as [g1 r1] eqn:Hget.
    pose proof (proj1 (get_channel_sound _ _ _ _ _ _ _ Hget)) as He.
    pose proof (get_channel_quiet _ _ _ _ _ _ _ Hget) as Hq.
    destruct r1 as [ch|e]; intros [He' Hq']%IH;
      (split; [by eapply extends_trans|by eapply quiet_trans]).
Qed.

Lemma read_spectrogram_globals env sched fuel l g c r g' c' r' :
  foldl (read_spectrogram env sched fuel) (g, c, r) l = (g', c', r') →
  extends g g' ∧ Channels.quiet g g'.
Proof.
  revert g c r. induction l as [|ts l IH]; intros g c r; simpl.
  - intros [= <- <- <-]. split; [apply extends_refl|apply quiet_refl].
  - destruct r as [[]|e]; [|apply IH].
    destruct (spec_read_fault env ts) as [e|]; [apply IH|].
    destruct (get_channel sched fuel true (Chan (spec_channel ts)) g)
      as [g1 r1] eqn:Hget.
    pose proof (proj1 (get_channel_sound _ _ _ _ _ _ _ Hget)) as He.
    pose proof (get_channel_quiet _ _ _ _ _ _ _ Hget) as Hq.
    destruct r1 as [ch|e]; intros [He' Hq']%IH;
      (split; [by eapply extends_trans|by eapply quiet_trans]).
Qed.

Lemma read_segments_globals env l g c r g' c' r' :
  foldl (read_segments env) (g, c, r) l = (g', c', r') → g' = g.
Proof.
  revert c r. induction l as [|v l IH]; intros c r; simpl.
  - by intros [= <- <- <-].
  - destruct r as [[]|e]; [|apply IH].
    destruct (dq_read_fault env v); [apply IH|].
    destruct (merge_fault env v); apply IH.
Qed.

(** A segments loop in which every record can be read and merged ends as
    it began: without an exception, or with the one it was entered
    with. *)
Lemma read_segments_sound env l g c r g' c' r' :
  (∀ v, v ∈ l → dq_read_fault env v = None ∧ merge_fault env v = None) →
  foldl (read_segments env) (g, c, r) l = (g', c', r') → r' = r.
Proof.
  revert c. induction l as [|v l IH]; intros c Hl; simpl.
  - by intros [= <- <- <-].
  - assert (Hl' : ∀ w, w ∈ l →
                    dq_read_fault env w = None ∧ merge_fault env w = None)
      by (intros w Hw; apply Hl, elem_of_cons; auto).
    destruct r as [[]|e]; [|by apply IH].
    destruct (Hl v) as [-> ->]; [apply elem_of_cons; by left|].
    by apply IH.
Qed.

(** X15: a read that raises although every stored flag can be read and
    merged has merged no segments: the exception came from the
    time-series or the spectrogram loop, and the segments loop was not
    entered.  When the file cannot be opened, the globals and the
    collections are as they were. *)
Theorem failed_read_merges_no_segments env sched fuel src fs g c g' c' e :
  read_data_archive env sched fuel src fs (g, c) = (g', c', Raise e) →
  (∀ h5 v, files fs !! src = Some h5 →
           v ∈ itervalues (group_or_empty (segments h5)) →
           dq_read_fault env v = None ∧ merge_fault env v = None) →
  SEGMENTS c' = SEGMENTS c
  ∧ (files fs !! src = None → g' = g ∧ c' = c).
Proof.
  unfold read_data_archive. destruct (files fs !! src) as [h5|] eqn:Hsrc.
  - intros Hread Hflags. split; [|done].
    pose proof (read_timeseries_frame env sched fuel
      (itervalues (group_or_empty (timeseries h5))) (g, c, Ok ())) as [_ H1].
    pose proof (read_spectrogram_frame env sched fuel
      (itervalues (group_or_empty (spectrogram h5)))
      (foldl (read_timeseries env sched fuel) (g, c, Ok ())
         (itervalues (group_or_empty (timeseries h5))))) as [_ H2].
    destruct (foldl (read_spectrogram env sched fuel) _ _) as [[g2 c2] r2].
    cbn [fst snd] in H1, H2. destruct r2 as [[]|e2].
    + apply read_segments_sound in Hread; [done|].
      intros v Hv. by apply (Hflags h5).
    + rewrite foldl_raise in Hread by (by intros).
      injection Hread as <- <- <-. congruence.
  - intros [= <- <- <-] _. by split.
Qed.

Lemma read_timeseries_registered env sched fuel l g c g' c' :
  foldl (read_timeseries env sched fuel) (g, c, Ok ()) l = (g', c', Ok ()) →
  ∀ ts, ts ∈ l → plain (Chan (ts_channel ts)) →
    ∃ ch, ch ∈ CHANNELS g' ∧ name ch = name (ts_channel ts).
Proof.
  revert g c. induction l as [|x l IH]; intros g c; simpl.
  - by intros _ ts ?%elem_of_nil.
  - destruct (ts_read_fault env x) as [e|];
      [rewrite foldl_raise; [done|by intros]|].
    destruct (get_channel sched fuel true (Chan (ts_channel x)) g)
      as [g1 [ch|e]] eqn:Hget.
    + intros Hl ts [->|Hts]%elem_of_cons Hplain; [|by eapply IH].
      exists ch. split.
      * apply (extends_elem_of g1);
          [by apply read_timeseries_globals in Hl as [? _]|].
        by apply (get_channel_sound _ _ _ _ _ _ _ Hget).
      * apply (get_channel_name _ _ _ _ _ _ _ Hplain Hget).
    + rewrite foldl_raise; [done|]. by intros.
Qed.

Lemma read_spectrogram_registered env sched fuel l g c g' c' :
  foldl (read_spectrogram env sched fuel) (g, c, Ok ()) l = (g', c', Ok ()) →
  ∀ spec, spec ∈ l → plain (Chan (spec_channel spec)) →
    ∃ ch, ch ∈ CHANNELS g' ∧ name ch = name (spec_channel spec).
Proof.
  revert g c. induction l as [|x l IH]; intros g c; simpl.
  - by intros _ ts ?%elem_of_nil.
  - destruct (spec_read_fault env x) as [e|];
      [rewrite foldl_raise; [done|by intros]|].
    destruct (get_channel sched fuel true (Chan (spec_channel x)) g)
      as [g1 [ch|e]] eqn:Hget.
    + intros Hl ts [->|Hts]%elem_of_cons Hplain; [|by eapply IH].
      exists ch. split.
      * apply (extends_elem_of g1);
          [by apply read_spectrogram_globals in Hl as [? _]|].
        by apply (get_channel_sound _ _ _ _ _ _ _ Hget).
      * apply (get_channel_name _ _ _ _ _ _ _ Hplain Hget).
    + rewrite foldl_raise; [done|]. by intros.
Qed.

(** X16: reading an archive only adds to the channel registry and asks
    nothing of the remote service, however it ends; when it returns, the
    registry holds a channel by the name of every stored series and
    spectrogram whose channel name and type hold no comma. *)
Theorem read_registers_the_stored_channels
    env sched fuel src fs h5 g c g' c' r :
  files fs !! src = Some h5 →
  read_data_archive env sched fuel src fs (g, c) = (g', c', r) →
  extends g g' ∧ Channels.quiet g g'
  ∧ (r = Ok () →
     (∀ ts, ts ∈ itervalues (group_or_empty (timeseries h5)) →
            plain (Chan (ts_channel ts)) →
            ∃ ch, ch ∈ CHANNELS g' ∧ name ch = name (ts_channel ts))
     ∧ (∀ spec, spec ∈ itervalues (group_or_empty (spectrogram h5)) →
                plain (Chan (spec_channel spec)) →
                ∃ ch, ch ∈ CHANNELS g' ∧ name ch = name (spec_channel spec))).
Proof.
  intros Hsrc. unfold read_data_archive. rewrite Hsrc.
  destruct (foldl (read_timeseries env sched fuel) _ _)
    as [[g1 c1] r1] eqn:H1.
  destruct (foldl (read_spectrogram env sched fuel) _ _)
    as [[g2 c2] r2] eqn:H2.
  intros H3. pose proof (read_segments_globals _ _ _ _ _ _ _ _ H3) as ->.
  pose proof (read_timeseries_globals _ _ _ _ _ _ _ _ _ _ H1) as [He1 Hq1].
  pose proof (read_spectrogram_globals _ _ _ _ _ _ _ _ _ _ H2) as [He2 Hq2].
  split; [by eapply extends_trans|]. split; [by eapply quiet_trans|].
  intros ->.
  assert (r2 = Ok ()) as ->.
  { destruct r2 as [[]|e]; [done|].
    rewrite foldl_raise in H3; [done|by intros]. }
  destruct r1 as [[]|e1].
  - split.
    + intros ts Hts Hplain.
      destruct (read_timeseries_registered _ _ _ _ _ _ _ _ H1 ts Hts Hplain)
        as (ch & Hch & Hn).
      exists ch. split; [by apply (extends_elem_of g1)|done].
    + by apply (read_spectrogram_registered _ _ _ _ _ _ _ _ H2).
  - rewrite foldl_raise in H2 by (by intros). done.
Qed.

End Facts.

(** *** Concrete archives *)

(** Claim C2 as stated fails: the archive exists, the move to the
    temporary directory raises an [IOError], which is dropped, the target
    is opened for writing and the first record cannot be written; the
    error is raised, the partly written file is at the target, and the old
    archive is nowhere. *)
Lemma failed_backup_loses_the_archive :
  ∃ old e partial,
    files archived !! "archive.h5" = Some old
    ∧ (write_data_archive full_disks "archive.h5" true true true one_of_each
                          archived).2 = Raise e
    ∧ files (write_data_archive full_disks "archive.h5" true true true
                                one_of_each archived).1
      = {[ "archive.h5" := partial ]}
    ∧ partial ≠ old.
Proof.
  eexists _, _, _. split_and!; [vm_compute; reflexivity..|].
  intros Heq.
  apply (f_equal (λ f, from_option (λ gt, size gt) 0 (timeseries f))) in Heq.
  vm_compute in Heq. done.
Qed.

Lemma write_backup_and_restore_witness :
  write_data_archive quiet "archive.h5" true true true one_of_each no_files
  = write_file quiet "archive.h5" true true true one_of_each no_files
  ∧ (write_data_archive full_disk "archive.h5" true true true one_of_each
                        old_archive).2
    = Raise (IOError "No space left on device")
  ∧ files (write_data_archive full_disk "archive.h5" true true true
                              one_of_each old_archive).1
    = files old_archive
  ∧ write_data_archive full_disks "archive.h5" true true true one_of_each
                       old_archive
    = write_file full_disks "archive.h5" true true true one_of_each
                 old_archive.
Proof.
  destruct (write_backup_and_restore quiet "archive.h5" true true true
              one_of_each no_files) as (Habsent & _ & _).
  destruct (write_backup_and_restore full_disk "archive.h5" true true true
              one_of_each old_archive) as (_ & Hpresent & _).
  destruct (write_backup_and_restore full_disks "archive.h5" true true true
              one_of_each old_archive) as (_ & _ & Hdropped).
  destruct (Habsent (lookup_empty _)) as (_ & Hwrite & _).
  destruct (Hpresent new_file (IOError "No space left on device"))
    as (Hraise & Hfiles & _).
  - apply lookup_singleton_eq.
  - by apply lookup_singleton_ne.
  - reflexivity.
  - reflexivity.
  - reflexivity.
  - split_and!; [done..|].
    by apply (Hdropped new_file (IOError "No space left on device") None
                (lookup_singleton_eq _ _)).
Defined.


(** *** Concrete archives, continued *)

Lemma successful_overwrite_keeps_backup_witness :
  write_data_archive quiet "archive.h5" true true true one_of_each old_archive
  = ({| files := <["archive.h5" :=
                     (serialize quiet true true true one_of_each).1]>
                   (<[mktemp quiet ".hdf" "gw_summary_archive_" := new_file]>
                      (delete "archive.h5" (files old_archive)));
        moves := moves old_archive
                 ++ [("archive.h5",
                      mktemp quiet ".hdf" "gw_summary_archive_")] |},
     Ok ())
  ∧ files (write_data_archive quiet "archive.h5" true true true one_of_each
                              old_archive).1
      !! mktemp quiet ".hdf" "gw_summary_archive_" = Some new_file.
Proof.
  apply (successful_overwrite_keeps_backup quiet "archive.h5" true true true
           one_of_each old_archive new_file).
  - apply lookup_singleton_eq.
  - by apply lookup_singleton_ne.
  - reflexivity.
  - reflexivity.
  - vm_compute. reflexivity.
Defined.

Lemma failed_first_write_leaves_what_was_written_witness :
  files no_files !! "archive.h5" = None
  ∧ write_data_archive full_disk "archive.h5" true true true one_of_each
                       no_files
    = ({| files := <["archive.h5" :=
                       (serialize full_disk true true true one_of_each).1]>
                     (files no_files);
          moves := moves no_files |},
       Raise (IOError "No space left on device")).
Proof.
  split; [apply lookup_empty|].
  apply (failed_first_write_leaves_what_was_written full_disk "archive.h5"
           true true true one_of_each no_files
           (IOError "No space left on device") (lookup_empty _)).
  - reflexivity.
  - vm_compute. reflexivity.
Defined.

Lemma archive_groups_follow_flags_witness :
  (∃ gt, timeseries (serialize quiet true false true one_of_each).1 = Some gt
         ∧ (∀ x, x ∈ itervalues gt ↔ x ∈ all_series (DATA one_of_each))
         ∧ ∀ k x, gt !! k = Some x → k = ts_key x)
  ∧ spectrogram (serialize quiet true false true one_of_each).1 = None.
Proof.
  destruct (archive_groups_follow_flags quiet true false true one_of_each
              (serialize quiet true false true one_of_each).1)
    as (Ht & Hs & _).
  - vm_compute. reflexivity.
  - split; [exact Ht|exact Hs].
Defined.

Lemma failed_read_merges_no_segments_witness :
  (∃ e, (read_data_archive quiet fifo 3 "archive.h5" archived
           (strain_twice, no_data)).2 = Raise e)
  ∧ (∃ gg, segments <$> files archived !! "archive.h5" = Some (Some gg)
           ∧ gg !! "H1:LOCK" = Some lock_flag)
  ∧ SEGMENTS (read_data_archive quiet fifo 3 "archive.h5" archived
                (strain_twice, no_data)).1.2
    = SEGMENTS no_data.
Proof.
  destruct (read_data_archive quiet fifo 3 "archive.h5" archived
              (strain_twice, no_data)) as [[g' c'] r] eqn:Hread.
  assert (Hr : ∃ e, r = Raise e).
  { apply (f_equal snd) in Hread. vm_compute in Hread. subst r. eauto. }
  destruct Hr as [e ->]. split; [by exists e|]. split.
  - eexists. split; vm_compute; reflexivity.
  - apply (failed_read_merges_no_segments _ _ _ _ _ _ _ _ _ _ Hread).
    intros h5 v _ _. split; reflexivity.
Defined.

Lemma read_registers_the_stored_channels_witness :
  ∃ ch, ch ∈ CHANNELS (read_data_archive quiet fifo 3 "archive.h5" archived
                         (fresh 0, no_data)).1.1
        ∧ name ch = "H1:STRAIN".
Proof.
  destruct (read_data_archive quiet fifo 3 "archive.h5" archived
              (fresh 0, no_data)) as [[g' c'] r] eqn:Hread.
  assert (Hr : r = Ok ()).
  { apply (f_equal snd) in Hread. vm_compute in Hread. by subst r. }
  destruct (read_registers_the_stored_channels quiet fifo 3 "archive.h5"
              archived
              {| timeseries := Some {[ ts_key strain := strain ]};
                 spectrogram := Some {[ spec_key strain_spectrogram
                                        := strain_spectrogram ]};
                 segments := Some {[ "H1:LOCK" := lock_flag ]} |}
              (fresh 0) no_data g' c' r) as (_ & _ & Hreg).
  - vm_compute. reflexivity.
  - exact Hread.
  - destruct (Hreg Hr) as [Hts _]. apply (Hts strain).
    + vm_compute. left.
    + by split.
Defined.

End ArchiveFacts.

(** ** Tab state processing *)

Module TabsFacts.
Import Tabs.

Lemma foldl_dispatch (q : bool) (l : list Plot) (W : list string)
    (tr : list event) :
  foldl (dispatch q) (W, tr) l
  = (W ++ map outputfile l, tr ++ map (queued_or_processed q) l).
Proof.
  revert W tr. induction l as [|p l IH]; intros W tr; simpl.
  - by rewrite !app_nil_r.
  - rewrite IH. by rewrite <- !app_assoc.
Qed.

Lemma event_plot_queued (q : bool) (l : list Plot) :
  map event_plot (map (queued_or_processed q) l) = l.
Proof.
  induction l as [|p l IH]; simpl; [done|].
  rewrite IH. unfold queued_or_processed. by destruct (q && _threadsafe p).
Qed.

Lemma process_state_ok {E : Type} (plots : list Plot) (st : State)
    (q : bool) (W : list string) :
  process_state (E:=E) plots st q None W
  = (flag_written W plots,
     W ++ map outputfile (sorted plot_key (new_plots st (flag_written W plots))),
     map (queued_or_processed q)
         (sorted plot_key (new_plots st (flag_written W plots))),
     None).
Proof. unfold process_state. by rewrite foldl_dispatch. Qed.

Lemma sorted_plots (l : list Plot) :
  sorted plot_key l
  = List.filter _threadsafe l ++ List.filter (λ p, negb (_threadsafe p)) l.
Proof.
  rewrite (sorted_two plot_key 1 2); [|lia|].
  - f_equal; apply List.filter_ext; intros p; unfold plot_key;
      by destruct (_threadsafe p).
  - apply Forall_forall. intros p _. unfold plot_key.
    destruct (_threadsafe p); auto.
Qed.

(** Claim C1, as the code has it: the plots a call dispatches are the plots
    still new and applicable to the state, the thread-safe ones first and
    the thread-unsafe ones after them, each group in the order of the tab's
    plot list. *)
Theorem threadsafe_plots_first {E : Type} (plots : list Plot) (st : State)
    (plotqueue : bool) (WRITTEN_PLOTS : list string) :
  processed (E:=E) plots st plotqueue None WRITTEN_PLOTS
  = List.filter _threadsafe
      (new_plots st (flag_written WRITTEN_PLOTS plots))
    ++ List.filter (λ p, negb (_threadsafe p))
      (new_plots st (flag_written WRITTEN_PLOTS plots)).
Proof.
  unfold processed. rewrite process_state_ok. simpl.
  by rewrite event_plot_queued, sorted_plots.
Qed.


(** Claim C1 as stated fails: with a thread-unsafe plot listed before a
    thread-safe one, the thread-unsafe plot is not processed first. *)
Lemma unsafe_plot_not_first :
  ∃ p q : Plot,
    p ∈ processed (E:=string) [unsafe_plot; safe_plot] locked false None []
    ∧ q ∈ processed (E:=string) [unsafe_plot; safe_plot] locked false None []
    ∧ _threadsafe p = false ∧ _threadsafe q = true
    ∧ before (processed (E:=string) [unsafe_plot; safe_plot] locked false
                        None []) q p
    ∧ ¬ before (processed (E:=string) [unsafe_plot; safe_plot] locked false
                          None []) p q.
Proof.
  exists unsafe_plot, safe_plot.
  replace (processed [unsafe_plot; safe_plot] locked false None [])
    with [safe_plot; unsafe_plot] by reflexivity.
  split_and!; [rewrite !elem_of_cons; auto..|done|done| |].
  - exists 0, 1. split_and!; [done|done|lia].
  - intros (i & j & Hi & Hj & Hij).
    destruct j as [|[|j]]; [|done..].
    destruct i as [|[|i]]; [lia|lia|done].
Qed.

(** *** Dispatching across calls *)

Lemma flag_written_new (W : list string) (plots : list Plot) (p : Plot) :
  p ∈ flag_written W plots → new p = true → outputfile p ∉ W.
Proof.
  unfold flag_written. intros Hp%list_elem_of_In%in_map_iff Hnew.
  destruct Hp as (p0 & <- & _).
  destruct (is_written (outputfile p0) W) eqn:Hw; [done|].
  intros Hin. apply not_true_iff_false in Hw. apply Hw.
  unfold is_written. apply existsb_exists. exists (outputfile p0).
  split; [by apply list_elem_of_In|apply String.eqb_refl].
Qed.

Lemma flag_written_flagged (W : list string) (plots : list Plot) (p : Plot) :
  p ∈ flag_written W plots → outputfile p ∈ W → new p = false.
Proof.
  intros Hp Hin. destruct (new p) eqn:Hnew; [|done].
  by destruct (flag_written_new W plots p).
Qed.

Lemma process_state_plots {E : Type} (plots : list Plot) (st : State)
    (q : bool) (acq : option E) (W : list string) :
  (process_state plots st q acq W).1.1.1 = flag_written W plots.
Proof.
  destruct acq; [done|]. by rewrite process_state_ok.
Qed.

Lemma process_state_written {E : Type} (plots : list Plot) (st : State)
    (q : bool) (acq : option E) (W : list string) :
  (process_state plots st q acq W).1.1.2
  = W ++ paths (process_state plots st q acq W).1.2.
Proof.
  destruct acq; [simpl; by rewrite app_nil_r|].
  rewrite process_state_ok. simpl. f_equal. unfold paths.
  rewrite <- (event_plot_queued q) at 1. by rewrite map_map.
Qed.

Lemma process_state_fresh {E : Type} (plots : list Plot) (st : State)
    (q : bool) (acq : option E) (W : list string) (f : string) :
  f ∈ paths (process_state plots st q acq W).1.2 → f ∉ W.
Proof.
  destruct acq; [simpl; by intros ?%elem_of_nil|].
  rewrite process_state_ok. simpl. unfold paths.
  intros (e & <- & He)%list_elem_of_In%in_map_iff.
  apply in_map_iff in He as (p & <- & Hp).
  replace (event_plot (queued_or_processed q p)) with p
    by (unfold queued_or_processed; by destruct (q && _threadsafe p)).
  apply list_elem_of_In in Hp. rewrite sorted_perm in Hp.
  apply list_elem_of_In, filter_In in Hp as [Hp Hsel].
  apply (flag_written_new W plots); [by apply list_elem_of_In|].
  unfold selected in Hsel. by apply andb_true_iff in Hsel as [? _].
Qed.

Lemma fresh_traces_app (W : list string) (ts1 ts2 : list (list event)) :
  fresh_traces W (ts1 ++ ts2)
  ↔ fresh_traces W ts1 ∧ fresh_traces (W ++ concat (paths <$> ts1)) ts2.
Proof.
  revert W. induction ts1 as [|t ts1 IH]; intros W; simpl.
  - rewrite app_nil_r. tauto.
  - rewrite IH, app_assoc. tauto.
Qed.

Lemma step_spec {E : Type} (s : run_state) (c : call E) :
  ∃ ts, dispatched (step s c).1 = dispatched s ++ ts
        ∧ WRITTEN (step s c).1 = WRITTEN s ++ concat (paths <$> ts)
        ∧ fresh_traces (WRITTEN s) ts.
Proof.
  unfold step. destruct (tabs s !! call_tab c) as [plots|]; simpl.
  - pose proof (process_state_written plots (call_state c) (call_plotqueue c)
                  (call_acquisition c) (WRITTEN s)) as Hw.
    pose proof (process_state_fresh plots (call_state c) (call_plotqueue c)
                  (call_acquisition c) (WRITTEN s)) as Hf.
    destruct (process_state plots (call_state c) (call_plotqueue c)
                (call_acquisition c) (WRITTEN s)) as [[[plots' w] trace] err].
    simpl in *. exists [trace]. simpl. rewrite app_nil_r. auto.
  - exists []. simpl. by rewrite !app_nil_r.
Qed.

Lemma run_spec {E : Type} (cs : list (call E)) (s : run_state) :
  ∃ ts, dispatched (run s cs).1 = dispatched s ++ ts
        ∧ WRITTEN (run s cs).1 = WRITTEN s ++ concat (paths <$> ts)
        ∧ fresh_traces (WRITTEN s) ts.
Proof.
  revert s. induction cs as [|c cs IH]; intros s; simpl.
  - exists []. simpl. by rewrite !app_nil_r.
  - destruct (step_spec s c) as (ts1 & Hd1 & Hw1 & Hf1).
    destruct (step s c) as [s1 [e|]] eqn:Hstep; simpl in *.
    + by exists ts1.
    + destruct (IH s1) as (ts2 & Hd2 & Hw2 & Hf2).
      exists (ts1 ++ ts2). rewrite Hd2, Hw2, Hd1, Hw1.
      rewrite fmap_app, concat_app, <- !app_assoc.
      split_and!; [done..|]. apply fresh_traces_app. by rewrite <- Hw1.
Qed.

Lemma fresh_traces_later (W : list string) (ts : list (list event))
    (j : nat) (tj : list event) (f : string) :
  fresh_traces W ts → ts !! j = Some tj → f ∈ paths tj → f ∉ W.
Proof.
  revert W j. induction ts as [|t ts IH]; intros W j; [done|].
  simpl. intros [Ht Hts]. destruct j as [|j]; simpl.
  - intros [= ->]. apply Ht.
  - intros Hj Hf Hin. apply (IH _ _ Hts Hj Hf). apply elem_of_app. auto.
Qed.

Lemma fresh_traces_apart (W : list string) (ts : list (list event))
    (i j : nat) (ti tj : list event) (f : string) :
  fresh_traces W ts → i < j →
  ts !! i = Some ti → ts !! j = Some tj → f ∈ paths ti → f ∉ paths tj.
Proof.
  revert W i j. induction ts as [|t ts IH]; intros W i j; [done|].
  simpl. intros [Ht Hts] Hij Hi Hj Hfi Hfj.
  destruct j as [|j]; [lia|]. simpl in Hj.
  destruct i as [|i]; simpl in Hi.
  - injection Hi as ->.
    apply (fresh_traces_later _ _ _ _ f Hts Hj Hfj). apply elem_of_app. auto.
  - apply (IH _ i j Hts); [lia|done..].
Qed.

(** Claim C7, as the code has it: whatever the tabs, states and calls of a
    run, the list of written plots is the initial list followed by the
    output files dispatched, in dispatch order; no file written before the
    run is dispatched; a file dispatched by one call is dispatched by no
    later call; and a plot whose output file is already written when a
    call starts is marked not new and is not dispatched by that call. *)
Theorem dispatched_once_across_calls {E : Type} (tabs0 : list (list Plot))
    (WRITTEN_PLOTS : list string) (cs : list (call E)) (s : run_state) :
  s = (run (start tabs0 WRITTEN_PLOTS) cs).1 →
  WRITTEN s = WRITTEN_PLOTS ++ concat (paths <$> dispatched s)
  ∧ (∀ t f, t ∈ dispatched s → f ∈ paths t → f ∉ WRITTEN_PLOTS)
  ∧ (∀ i j ti tj f,
       i < j → dispatched s !! i = Some ti → dispatched s !! j = Some tj →
       f ∈ paths ti → f ∉ paths tj)
  ∧ (∀ plots st plotqueue (acquisition : option E) W p,
       p ∈ (process_state plots st plotqueue acquisition W).1.1.1 →
       outputfile p ∈ W →
       new p = false
       ∧ p ∉ processed plots st plotqueue acquisition W).
Proof.
  intros ->.
  destruct (run_spec cs (start tabs0 WRITTEN_PLOTS)) as (ts & Hd & Hw & Hf).
  simpl in Hd, Hw, Hf. rewrite Hd, Hw. split_and!.
  - done.
  - intros t f (j & Hj)%list_elem_of_lookup Hin.
    by apply (fresh_traces_later _ _ _ _ f Hf Hj).
  - intros i j ti tj f. by apply fresh_traces_apart with WRITTEN_PLOTS.
  - intros plots st q acq W p Hp Hin.
    rewrite process_state_plots in Hp. split.
    + by apply (flag_written_flagged W plots).
    + unfold processed. intros Hq.
      apply (process_state_fresh plots st q acq W (outputfile p)); [|done].
      unfold paths. apply list_elem_of_In, in_map_iff.
      apply list_elem_of_In, in_map_iff in Hq as (e & <- & He). eauto.
Qed.

(** Claim C7 as stated fails: two plots of one tab that share an output
    file are both dispatched by one call, so the file is dispatched
    twice. *)
Lemma duplicate_in_one_call :
  ∃ (f : string) (i j : nat),
    i < j
    ∧ concat (paths <$> dispatched
        (run (start [[twin_a; twin_b]] [])
             [ {| call_tab := 0; call_state := locked;
                  call_plotqueue := false;
                  call_acquisition := @None string |} ]).1) !! i = Some f
    ∧ concat (paths <$> dispatched
        (run (start [[twin_a; twin_b]] [])
             [ {| call_tab := 0; call_state := locked;
                  call_plotqueue := false;
                  call_acquisition := @None string |} ]).1) !! j = Some f.
Proof. exists "twin.png", 0, 1. split_and!; [lia|reflexivity..]. Qed.

(** Two tabs sharing an output file: the second call dispatches only the
    file the first one did not. *)
Lemma dispatched_once_across_calls_witness :
  paths <$> dispatched (run (start shared_tabs []) shared_calls).1
  = [["unsafe.png"]; ["safe.png"]]
  ∧ WRITTEN (run (start shared_tabs []) shared_calls).1
    = [] ++ concat
        (paths <$> dispatched (run (start shared_tabs []) shared_calls).1).
Proof.
  split; [reflexivity|].
  apply (dispatched_once_across_calls (E:=string) shared_tabs []
           shared_calls).
  reflexivity.
Defined.

(** *** Calls that repeat, and what a call hands to the queue *)

Lemma selected_dispatched (st : State) (plots : list Plot) (p : Plot) :
  p ∈ plots → selected st p = true →
  outputfile p ∈ map outputfile (sorted plot_key (new_plots st plots)).
Proof.
  intros Hp Hsel. apply list_elem_of_In, in_map. apply list_elem_of_In.
  rewrite sorted_perm. apply list_elem_of_In, filter_In.
  split; [by apply list_elem_of_In|done].
Qed.

Lemma new_plots_nil (st : State) (plots : list Plot) :
  (∀ p, p ∈ plots → selected st p = false) → new_plots st plots = [].
Proof.
  induction plots as [|p plots IH]; intros Hall; simpl; [done|].
  rewrite (Hall p) by (apply elem_of_cons; auto).
  apply IH. intros q Hq. apply Hall, elem_of_cons. auto.
Qed.

Lemma flag_written_elem_of (W : list string) (plots : list Plot) (p : Plot) :
  p ∈ flag_written W plots →
  ∃ p0, p0 ∈ plots
        ∧ p = (if is_written (outputfile p0) W then set_new false p0 else p0).
Proof.
  unfold flag_written. intros (p0 & <- & Hp0)%list_elem_of_In%in_map_iff.
  exists p0. split; [by apply list_elem_of_In|done].
Qed.

(** X17: a second call of [process_state] for the same state, on the
    plots and the written list the first call left, dispatches nothing and
    leaves the written list as it is, with or without a plot queue. *)
Theorem repeated_call_dispatches_nothing {E : Type} (plots : list Plot)
    (st : State) (q q' : bool) (W : list string) plots' W' trace :
  process_state (E:=E) plots st q None W = (plots', W', trace, None) →
  process_state (E:=E) plots' st q' None W'
  = (flag_written W' plots', W', [], None).
Proof.
  rewrite process_state_ok. intros [= <- <- <-].
  rewrite process_state_ok.
  rewrite (new_plots_nil st
             (flag_written
                (W ++ map outputfile
                        (sorted plot_key
                           (new_plots st (flag_written W plots))))
                (flag_written W plots)));
    [cbn [sorted map]; by rewrite app_nil_r|].
  intros p Hp. destruct (selected st p) eqn:Hsel; [|done]. exfalso.
  assert (Hnew : new p = true)
    by (unfold selected in Hsel; by apply andb_true_iff in Hsel as [? _]).
  apply (flag_written_new _ _ _ Hp Hnew).
  apply flag_written_elem_of in Hp as (p0 & Hp0 & ->).
  destruct (is_written (outputfile p0) _) eqn:Hw; [done|].
  apply elem_of_app. right. by apply selected_dispatched.
Qed.

Lemma queued_or_processed_elem_of (q : bool) (l : list Plot) (e : event) :
  e ∈ map (queued_or_processed q) l →
  event_plot e ∈ l ∧ is_queued e = q && _threadsafe (event_plot e).
Proof.
  intros (p & <- & Hp)%list_elem_of_In%in_map_iff.
  apply list_elem_of_In in Hp. unfold queued_or_processed.
  by destruct (q && _threadsafe p) eqn:Hq.
Qed.

(** X18: the written list grows by the files of the dispatched plots, in
    dispatch order; the plots dispatched are the plots selected; a plot is
    handed to the queue exactly when a queue is given and the plot is
    thread-safe, and is processed inline otherwise; every dispatched plot
    was new and its file had not been written before the call. *)
Theorem only_threadsafe_plots_are_queued {E : Type} (plots : list Plot)
    (st : State) (q : bool) (W : list string) plots' W' trace :
  process_state (E:=E) plots st q None W = (plots', W', trace, None) →
  W' = W ++ paths trace
  ∧ map event_plot trace ≡ₚ new_plots st plots'
  ∧ ∀ e, e ∈ trace →
      is_queued e = q && _threadsafe (event_plot e)
      ∧ new (event_plot e) = true
      ∧ outputfile (event_plot e) ∉ W.
Proof.
  intros Hps.
  pose proof (process_state_written (E:=E) plots st q None W) as Hw.
  pose proof (process_state_fresh (E:=E) plots st q None W) as Hf.
  rewrite Hps in Hw, Hf. cbn [fst snd] in Hw, Hf.
  rewrite process_state_ok in Hps. injection Hps as <- _ <-.
  split; [done|]. split; [by rewrite event_plot_queued, sorted_perm|].
  intros e He. split; [by apply queued_or_processed_elem_of in He as [_ ?]|].
  split.
  - apply queued_or_processed_elem_of in He as [He _].
    rewrite sorted_perm in He.
    apply list_elem_of_In, filter_In in He as [_ Hsel].
    unfold selected in Hsel. by apply andb_true_iff in Hsel as [? _].
  - apply Hf. unfold paths.
    apply list_elem_of_In, (in_map (λ e, outputfile (event_plot e))).
    by apply list_elem_of_In.
Qed.

(** *** What a run never does *)

Lemma aged_refl (p : Plot) : aged p p.
Proof. by repeat split. Qed.

Lemma aged_trans (p1 p2 p3 : Plot) : aged p1 p2 → aged p2 p3 → aged p1 p3.
Proof.
  intros (H1 & H2 & H3 & H4) (H1' & H2' & H3' & H4').
  repeat split; [congruence..|auto].
Qed.

Lemma flag_written_aged (W : list string) (plots : list Plot) :
  Forall2 aged plots (flag_written W plots).
Proof.
  induction plots as [|p plots IH]; simpl; constructor; [|done].
  destruct (is_written (outputfile p) W); [by repeat split|apply aged_refl].
Qed.

Lemma Forall2_aged_refl (plots : list Plot) : Forall2 aged plots plots.
Proof. induction plots; constructor; [apply aged_refl|done]. Qed.

Lemma Forall2_aged_trans (l1 l2 l3 : list Plot) :
  Forall2 aged l1 l2 → Forall2 aged l2 l3 → Forall2 aged l1 l3.
Proof.
  intros H12. revert l3. induction H12 as [|p1 p2 l1 l2 Hp H12 IH];
    intros l3 H23; inversion H23; subst; constructor;
    [by eapply aged_trans|auto].
Qed.

Lemma tabs_aged_refl (ts : list (list Plot)) :
  Forall2 (Forall2 aged) ts ts.
Proof. induction ts; constructor; [apply Forall2_aged_refl|done]. Qed.

Lemma tabs_aged_trans (t1 t2 t3 : list (list Plot)) :
  Forall2 (Forall2 aged) t1 t2 → Forall2 (Forall2 aged) t2 t3 →
  Forall2 (Forall2 aged) t1 t3.
Proof.
  intros H12. revert t3. induction H12 as [|p1 p2 l1 l2 Hp H12 IH];
    intros l3 H23; inversion H23; subst; constructor;
    [by eapply Forall2_aged_trans|auto].
Qed.

Lemma tabs_aged_insert (ts : list (list Plot)) (i : nat)
    (plots plots' : list Plot) :
  ts !! i = Some plots → Forall2 aged plots plots' →
  Forall2 (Forall2 aged) ts (<[i := plots']> ts).
Proof.
  revert i. induction ts as [|t ts IH]; intros i; [done|].
  destruct i as [|i]; simpl.
  - intros [= ->] Hp. constructor; [done|apply tabs_aged_refl].
  - intros Hi Hp. constructor; [apply Forall2_aged_refl|by apply IH].
Qed.

Lemma step_aged {E : Type} (s : run_state) (c : call E) :
  Forall2 (Forall2 aged) (tabs s) (tabs (step s c).1).
Proof.
  unfold step. destruct (tabs s !! call_tab c) as [plots|] eqn:Htab;
    [|apply tabs_aged_refl].
  pose proof (process_state_plots plots (call_state c) (call_plotqueue c)
                (call_acquisition c) (WRITTEN s)) as Hp.
  destruct (process_state plots (call_state c) (call_plotqueue c)
              (call_acquisition c) (WRITTEN s)) as [[[plots' w] trace] err].
  simpl in *. subst plots'.
  apply (tabs_aged_insert _ _ plots); [done|apply flag_written_aged].
Qed.

(** X19: across a run no plot is added to, removed from or moved within
    a tab; a plot keeps its output file, state and thread-safety; a [new]
    flag that was cleared is never set again; and the written list and the
    record of dispatches only grow at the end. *)
Theorem run_only_clears_flags {E : Type} (cs : list (call E))
    (s : run_state) :
  Forall2 (Forall2 aged) (tabs s) (tabs (run s cs).1)
  ∧ WRITTEN s `prefix_of` WRITTEN (run s cs).1
  ∧ dispatched s `prefix_of` dispatched (run s cs).1.
Proof.
  split.
  - revert s. induction cs as [|c cs IH]; intros s; simpl;
      [apply tabs_aged_refl|].
    pose proof (step_aged s c) as Hs.
    destruct (step s c) as [s1 [e|]]; [done|].
    by apply (tabs_aged_trans _ (tabs s1)).
  - destruct (run_spec cs s) as (ts & Hd & Hw & _).
    rewrite Hd, Hw. split; eexists; reflexivity.
Qed.

Lemma repeated_call_dispatches_nothing_witness :
  process_state (E:=string) [unsafe_plot; safe_plot] locked true None
                ["safe.png"; "unsafe.png"]
  = (flag_written ["safe.png"; "unsafe.png"] [unsafe_plot; safe_plot],
     ["safe.png"; "unsafe.png"], [], None).
Proof.
  apply (repeated_call_dispatches_nothing (E:=string)
           [unsafe_plot; safe_plot] locked false true []
           [unsafe_plot; safe_plot] ["safe.png"; "unsafe.png"]
           [Processed safe_plot; Processed unsafe_plot]).
  reflexivity.
Defined.

Lemma only_threadsafe_plots_are_queued_witness :
  ["safe.png"; "unsafe.png"]
  = [] ++ paths [Queued safe_plot; Processed unsafe_plot]
  ∧ map event_plot [Queued safe_plot; Processed unsafe_plot]
    ≡ₚ new_plots locked [unsafe_plot; safe_plot]
  ∧ ∀ e, e ∈ [Queued safe_plot; Processed unsafe_plot] →
      is_queued e = true && _threadsafe (event_plot e)
      ∧ new (event_plot e) = true
      ∧ outputfile (event_plot e) ∉ [].
Proof.
  apply (only_threadsafe_plots_are_queued (E:=string)
           [unsafe_plot; safe_plot] locked true []
           [unsafe_plot; safe_plot]).
  reflexivity.
Defined.

End TabsFacts.

(** ** Tab configuration *)

Module FromIniFacts.
Import FromIni.

(** *** The layout option *)

Lemma row_fits_divisor (l : Z) :
  row_fits l = true ↔ (0 < l)%Z ∧ (l | 12)%Z.
Proof.
  unfold row_fits. rewrite existsb_exists. split.
  - intros (x & Hx & ->%Z.eqb_eq). simpl in Hx.
    destruct Hx as [<-|[<-|[<-|[<-|[<-|[<-|[]]]]]]]; split; try lia.
    + by exists 12%Z.
    + by exists 6%Z.
    + by exists 4%Z.
    + by exists 3%Z.
    + by exists 2%Z.
    + by exists 1%Z.
  - intros [Hpos Hdiv]. exists l. split; [|apply Z.eqb_refl].
    assert (Hle : (l ≤ 12)%Z) by (by apply Z.divide_pos_le).
    destruct Hdiv as [k Hk]. simpl.
    assert (l = 1 ∨ l = 2 ∨ l = 3 ∨ l = 4 ∨ l = 5 ∨ l = 6 ∨ l = 7 ∨ l = 8
            ∨ l = 9 ∨ l = 10 ∨ l = 11 ∨ l = 12)%Z as Hl by lia.
    destruct Hl as [->|[->|[->|[->|[->|[->|[->|[->|[->|[->|[->| ->]]]]]]]]]]];
      first [lia | tauto].
Qed.

Lemma check_rows_None (rows : list layout_row) :
  check_rows rows = None ↔ Forall (λ l, check_row l = None) rows.
Proof.
  induction rows as [|l rows IH]; simpl.
  - split; [constructor|done].
  - rewrite Forall_cons. destruct (check_row l); [|tauto].
    split; [done|]. by intros [? _].
Qed.

Lemma check_row_None (l : layout_row) :
  check_row l = None ↔ ∃ n, row_head l = Some n ∧ (0 < n)%Z ∧ (n | 12)%Z.
Proof.
  destruct l as [n|[|n ns]]; simpl.
  - destruct (row_fits n) eqn:Hn.
    + apply row_fits_divisor in Hn. split; [eauto|done].
    + split; [done|]. intros (m & [= <-] & Hm%row_fits_divisor). congruence.
  - split; [done|]. by intros (m & [=] & _).
  - destruct (row_fits n) eqn:Hn.
    + apply row_fits_divisor in Hn. split; [eauto|done].
    + split; [done|]. intros (m & [= <-] & Hm%row_fits_divisor). congruence.
Qed.

(** X20: a layout is accepted exactly when each of its rows asks for a
    positive divisor of 12 plots, a row given as a sequence being judged by
    its first entry alone; an accepted layout is kept as it was given, a
    single integer as a list of one row. *)
Theorem layout_rows_divide_twelve (v : layout_value)
    (rows : list layout_row) :
  check_layout v = inr rows
  ↔ rows = layout_rows v
    ∧ ∀ l, l ∈ rows →
        ∃ n, row_head l = Some n ∧ (0 < n)%Z ∧ (n | 12)%Z.
Proof.
  unfold check_layout.
  destruct (check_rows (layout_rows v)) as [e|] eqn:Hc.
  - split; [done|]. intros [-> Hall].
    assert (Hn : check_rows (layout_rows v) = None); [|congruence].
    apply check_rows_None, Forall_forall. intros l Hl.
    by apply check_row_None, Hall.
  - split.
    + intros [= <-]. split; [done|]. intros l Hl.
      apply check_row_None.
      apply check_rows_None in Hc. by apply (proj1 (Forall_forall _ _) Hc).
    + by intros [-> _].
Qed.

(** *** Plot requests *)

Lemma elem_of_numbered (nditems : list (string * string)) (i : nat)
    (val : string) :
  (i, val) ∈ numbered nditems
  ↔ ∃ opt, (opt, val) ∈ nditems ∧ isdigit opt = true ∧ int opt = i.
Proof.
  unfold numbered. rewrite list_elem_of_omap. split.
  - intros ([opt v] & Hin & Hsome). destruct (isdigit opt) eqn:Hd; [|done].
    injection Hsome as <- <-. eauto.
  - intros (opt & Hin & Hd & <-). exists (opt, val). by rewrite Hd.
Qed.

Section Stable.
Context {A : Type} (key : A → nat).

Lemma filter_insert_by (k : nat) (x : A) (l : list A) :
  List.filter (λ y, key y =? k) (insert_by key x l)
  = List.filter (λ y, key y =? k) (x :: l).
Proof.
  induction l as [|y l IH]; [done|].
  cbn [insert_by]. destruct (Nat.leb_spec (key x) (key y)) as [Hxy|Hxy];
    [done|].
  cbn [List.filter] in *. rewrite IH.
  destruct (Nat.eqb_spec (key y) k) as [Hy|Hy];
    destruct (Nat.eqb_spec (key x) k) as [Hx|Hx]; try done. lia.
Qed.

(** A stable sort keeps the elements of one key in the order they had. *)
Lemma filter_sorted (k : nat) (l : list A) :
  List.filter (λ y, key y =? k) (sorted key l)
  = List.filter (λ y, key y =? k) l.
Proof.
  induction l as [|x l IH]; [done|].
  cbn [sorted]. rewrite filter_insert_by. cbn [List.filter]. by rewrite IH.
Qed.
End Stable.

(** X21: the plot requests of a section are its options whose key is a
    string of digits, each with the number the key denotes; they come in
    increasing order of that number, requests of the same number in the
    order of the configuration. *)
Theorem requests_in_numeric_order (nditems : list (string * string)) :
  StronglySorted (λ a b, a.1 ≤ b.1) (requests nditems)
  ∧ (∀ i val, (i, val) ∈ requests nditems
       ↔ ∃ opt, (opt, val) ∈ nditems ∧ isdigit opt = true ∧ int opt = i)
  ∧ (∀ i, List.filter (λ r, r.1 =? i) (requests nditems)
          = List.filter (λ r, r.1 =? i) (numbered nditems))
  ∧ length (requests nditems)
    = length (List.filter (λ '(opt, _), isdigit opt) nditems).
Proof.
  unfold requests. split_and!.
  - apply (sorted_sorted fst).
  - intros i val. rewrite (sorted_perm fst). apply elem_of_numbered.
  - intros i. apply (filter_sorted fst).
  - rewrite (sorted_perm fst). unfold numbered.
    induction nditems as [|[opt val] l IH]; [done|]. simpl.
    destruct (isdigit opt); simpl; [f_equal|]; exact IH.
Qed.

(** *** Plot definitions *)

Lemma split_first_Some (s x y : list ascii) :
  split_first s = Some (x, y) →
  ∃ sep, is_sep sep = true ∧ s = x ++ sep :: y
         ∧ Forall (λ a, is_sep a = false) x.
Proof.
  revert x. induction s as [|a s IH]; intros x; simpl; [done|].
  destruct (is_sep a) eqn:Ha.
  - intros [= <- <-]. exists a. by repeat split.
  - destruct (split_first s) as [[x' y']|]; [|done].
    intros [= <- <-]. destruct (IH x' eq_refl) as (sep & Hsep & -> & Hx).
    exists sep. split; [done|]. split; [done|]. by constructor.
Qed.

Lemma split_first_None (s : list ascii) :
  split_first s = None ↔ Forall (λ a, is_sep a = false) s.
Proof.
  induction s as [|a s IH]; simpl.
  - split; [constructor|done].
  - rewrite Forall_cons. destruct (is_sep a); [split; [done|by intros [? _]]|].
    destruct (split_first s) as [[x y]|].
    + split; [done|]. intros [_ Hs]. by apply IH in Hs.
    + split; [|done]. intros _. split; [done|]. by apply IH.
Qed.

Lemma split_first_app (x y : list ascii) (sep : ascii) :
  Forall (λ a, is_sep a = false) x → is_sep sep = true →
  split_first (x ++ sep :: y) = Some (x, y).
Proof.
  intros Hx Hsep. induction Hx as [|a x Ha Hx IH]; simpl.
  - by rewrite Hsep.
  - by rewrite Ha, IH.
Qed.

Lemma list_ascii_of_string_app (s t : string) :
  list_ascii_of_string (s +:+ t)
  = list_ascii_of_string s ++ list_ascii_of_string t.
Proof. induction s as [|a s IH]; simpl; [done|]. by rewrite IH. Qed.

Lemma string_of_list_ascii_app (s t : list ascii) :
  string_of_list_ascii (s ++ t)
  = string_of_list_ascii s +:+ string_of_list_ascii t.
Proof. induction s as [|a s IH]; simpl; [done|]. by rewrite IH. Qed.

(** X22: a plot definition is cut at its last blank or comma: the text
    after it, which holds no separator, names the plot, and the text ahead
    of it gives the sources; a definition without a separator names a plot
    without sources. *)
Theorem definition_is_cut_at_the_last_separator (definition : string) :
  (∀ pdef sources,
     split_definition definition = (pdef, Some sources)
     ↔ ∃ sep, is_sep sep = true
              ∧ definition = sources +:+ String sep pdef
              ∧ no_sep pdef)
  ∧ (∀ pdef,
       split_definition definition = (pdef, None)
       ↔ pdef = definition ∧ no_sep definition).
Proof.
  unfold split_definition, no_sep. split.
  - intros pdef sources. split.
    + destruct (split_first _) as [[x y]|] eqn:Hs; [|done].
      intros [= <- <-].
      destruct (split_first_Some _ _ _ Hs) as (sep & Hsep & Hrev & Hx).
      exists sep. split; [done|]. split.
      * rewrite <- (string_of_list_ascii_of_string definition).
        rewrite <- (rev_involutive (list_ascii_of_string definition)).
        rewrite Hrev, rev_app_distr. simpl rev.
        rewrite <- app_assoc. simpl.
        by rewrite string_of_list_ascii_app.
      * rewrite list_ascii_of_string_of_list_ascii.
        by apply Forall_rev.
    + intros (sep & Hsep & -> & Hp).
      rewrite list_ascii_of_string_app. simpl list_ascii_of_string.
      rewrite rev_app_distr. simpl rev. rewrite <- app_assoc. simpl.
      rewrite (split_first_app _ _ sep) by (by try apply Forall_rev).
      by rewrite !rev_involutive, !string_of_list_ascii_of_string.
  - intros pdef. split.
    + destruct (split_first _) as [[x y]|] eqn:Hs; [done|].
      intros [= <-]. split; [done|].
      apply split_first_None in Hs. apply Forall_rev in Hs.
      by rewrite rev_involutive in Hs.
    + intros [-> Hd]. apply Forall_rev in Hd.
      apply split_first_None in Hd. by rewrite Hd.
Qed.

End FromIniFacts.

(** ** What a tab needs *)

Module TabQueriesFacts.
Import TabQueries.

Section SortedByNameFacts.
Context {A : Type} (key : A → string).

Lemma insert_by_name_perm (x : A) (l : list A) :
  insert_by_name key x l ≡ₚ x :: l.
Proof.
  induction l as [|y l IH]; simpl; [done|].
  destruct (String.leb (key x) (key y)); [done|].
  rewrite IH. apply Permutation_swap.
Qed.

Lemma sorted_by_name_perm (l : list A) : sorted_by_name key l ≡ₚ l.
Proof.
  induction l as [|x l IH]; simpl; [done|].
  by rewrite insert_by_name_perm, IH.
Qed.

Lemma insert_by_name_sorted (x : A) (l : list A) :
  StronglySorted (λ a b, String.le (key a) (key b)) l →
  StronglySorted (λ a b, String.le (key a) (key b)) (insert_by_name key x l).
Proof.
  induction 1 as [|y l Hl IH Hy]; simpl.
  - repeat constructor.
  - destruct (String.leb (key x) (key y)) eqn:Hxy.
    + assert (Hle : String.le (key x) (key y))
        by (unfold String.le; by rewrite Hxy).
      constructor; [by constructor|].
      constructor; [done|].
      eapply Forall_impl; [exact Hy|]. simpl. intros z Hz. by etrans.
    + constructor; [done|].
      rewrite insert_by_name_perm. constructor; [|done].
      destruct (total String.le (key x) (key y)) as [Hle|Hle]; [|done].
      unfold String.le in Hle. by rewrite Hxy in Hle.
Qed.

Lemma sorted_by_name_sorted (l : list A) :
  StronglySorted (λ a b, String.le (key a) (key b)) (sorted_by_name key l).
Proof.
  induction l; simpl; [constructor|]. by apply insert_by_name_sorted.
Qed.
End SortedByNameFacts.

Section Facts.
Context {C : Type} `{EqDecision C}.
Context `{!SetOrder C} `{!SetOrder string} `{!SetOrder (string * C)}.
Variable ch_name : C → string.
Variable re_flagdiv_split : string → list string.

Lemma elem_of_iter {A : Type} `{EqDecision A} `{!SetOrder A}
    (l : list A) (x : A) : x ∈ iter l ↔ x ∈ l.
Proof. by rewrite iter_perm, elem_of_remove_dups. Qed.

Lemma NoDup_iter {A : Type} `{EqDecision A} `{!SetOrder A} (l : list A) :
  NoDup (iter l).
Proof. rewrite iter_perm. apply NoDup_remove_dups. Qed.

Lemma elem_of_concat {B : Type} (ls : list (list B)) (x : B) :
  x ∈ concat ls ↔ ∃ l, x ∈ l ∧ l ∈ ls.
Proof.
  rewrite list_elem_of_In, in_concat. split.
  - intros (l & Hl & Hx). exists l. by rewrite !list_elem_of_In.
  - intros (l & Hx & Hl). exists l. by rewrite <- !list_elem_of_In.
Qed.

Lemma wanted_spec (types : list string) (isnew : bool) (plot : Plot C) :
  wanted types isnew plot = true
  ↔ type plot ∈ types ∧ (isnew = true → new plot = true).
Proof.
  unfold wanted. rewrite andb_true_iff, bool_decide_eq_true.
  destruct isnew, (new plot); simpl; intuition.
Qed.

Lemma elem_of_collected {B : Type} (f : Plot C → list B)
    (types : list string) (isnew : bool) (plots : list (Plot C)) (x : B) :
  x ∈ concat (f <$> List.filter (wanted types isnew) plots)
  ↔ ∃ plot, plot ∈ plots ∧ type plot ∈ types
            ∧ (isnew = true → new plot = true) ∧ x ∈ f plot.
Proof.
  rewrite elem_of_concat. split.
  - intros (l & Hx & (plot & -> & Hp)%list_elem_of_fmap).
    apply list_elem_of_In, filter_In in Hp as [Hp Hw].
    apply wanted_spec in Hw as [Ht Hn].
    exists plot. by rewrite list_elem_of_In.
  - intros (plot & Hp & Ht & Hn & Hx). exists (f plot). split; [done|].
    apply list_elem_of_fmap. exists plot. split; [done|].
    apply list_elem_of_In, filter_In. split; [by apply list_elem_of_In|].
    by apply wanted_spec.
Qed.

(** X23: [get_channels] raises a [TypeError] for any keyword other than
    [new]; otherwise it returns, without repetition and in the order of
    their names, the channels of the plots of the given types, of the new
    ones only unless [new] is false. *)
Theorem channels_of_the_wanted_plots (plots : list (Plot C))
    (types : list string) (kwargs : gmap string bool) :
  (∀ key, key ≠ "new" → is_Some (kwargs !! key) →
     get_channels ch_name plots types kwargs = inl InvalidKeyword)
  ∧ ((∀ key, is_Some (kwargs !! key) → key = "new") →
     ∃ out, get_channels ch_name plots types kwargs = inr out
       ∧ NoDup out
       ∧ StronglySorted (λ a b, String.le (ch_name a) (ch_name b)) out
       ∧ ∀ c, c ∈ out
           ↔ ∃ plot, plot ∈ plots ∧ type plot ∈ types
                     ∧ (default true (kwargs !! "new") = true
                        → new plot = true)
                     ∧ c ∈ channels plot).
Proof.
  unfold get_channels. split.
  - intros key Hkey [b Hb].
    destruct (decide (delete "new" kwargs = ∅)) as [He|]; [|done].
    assert (Hd : delete "new" kwargs !! key = Some b)
      by (by rewrite lookup_delete_ne).
    by rewrite He, lookup_empty in Hd.
  - intros Honly.
    destruct (decide (delete "new" kwargs = ∅)) as [_|Hne].
    + eexists. split; [done|]. split_and!.
      * rewrite sorted_by_name_perm. apply NoDup_iter.
      * apply sorted_by_name_sorted.
      * intros c. rewrite sorted_by_name_perm, elem_of_iter.
        apply elem_of_collected.
    + destruct Hne. apply map_eq. intros key. rewrite lookup_empty.
      destruct (decide (key = "new")) as [->|Hkey];
        [apply lookup_delete_eq|].
      rewrite lookup_delete_ne by done.
      destruct (kwargs !! key) eqn:Hk; [|done].
      destruct Hkey. apply Honly. by rewrite Hk.
Qed.

Lemma elem_of_plot_flags (plot : Plot C) (f : string) :
  f ∈ plot_flags re_flagdiv_split plot
  ↔ f ≠ EmptyString
    ∧ ∃ cflag, cflag ∈ flags plot
               ∧ f ∈ every_other (re_flagdiv_split cflag).
Proof.
  unfold plot_flags. rewrite elem_of_concat. split.
  - intros (l & Hf & (cflag & -> & Hc)%list_elem_of_fmap).
    apply list_elem_of_In, filter_In in Hf as [Hf Hne].
    split; [by intros ->|].
    exists cflag. split; [done|]. by apply list_elem_of_In.
  - intros (Hne & cflag & Hc & Hf). eexists. split;
      [|apply list_elem_of_fmap; by exists cflag].
    apply list_elem_of_In, filter_In. split; [by apply list_elem_of_In|].
    apply negb_true_iff, String.eqb_neq. done.
Qed.

(** X24: [get_flags] returns, without repetition and in alphabetical
    order, the non-empty names found at the even positions of the split of
    a flag of a new plot of the given types. *)
Theorem flags_of_the_new_plots (plots : list (Plot C))
    (types : list string) :
  NoDup (get_flags re_flagdiv_split plots types)
  ∧ StronglySorted String.le (get_flags re_flagdiv_split plots types)
  ∧ ∀ f, f ∈ get_flags re_flagdiv_split plots types
      ↔ f ≠ EmptyString
        ∧ ∃ plot cflag, plot ∈ plots ∧ type plot ∈ types
                        ∧ new plot = true ∧ cflag ∈ flags plot
                        ∧ f ∈ every_other (re_flagdiv_split cflag).
Proof.
  unfold get_flags. split_and!.
  - rewrite sorted_by_name_perm. apply NoDup_iter.
  - apply (sorted_by_name_sorted id).
  - intros f. rewrite sorted_by_name_perm, elem_of_iter, elem_of_collected.
    split.
    + intros (plot & Hp & Ht & Hn & (Hne & cflag & Hc & Hf)%elem_of_plot_flags).
      split; [done|]. exists plot, cflag. auto.
    + intros (Hne & plot & cflag & Hp & Ht & Hn & Hc & Hf).
      exists plot. split_and!; [done..|].
      apply elem_of_plot_flags. eauto.
Qed.

(** X25: [get_triggers] returns, without repetition and in the order of
    the channel names, the pairs of trigger generator and channel of the
    new plots of the given types. *)
Theorem triggers_of_the_new_plots (plots : list (Plot C))
    (types : list string) :
  NoDup (get_triggers ch_name plots types)
  ∧ StronglySorted (λ a b, String.le (ch_name a.2) (ch_name b.2))
      (get_triggers ch_name plots types)
  ∧ ∀ e c, (e, c) ∈ get_triggers ch_name plots types
      ↔ ∃ plot, plot ∈ plots ∧ type plot ∈ types ∧ new plot = true
                ∧ etg plot = e ∧ c ∈ channels plot.
Proof.
  unfold get_triggers. split_and!.
  - rewrite sorted_by_name_perm. apply NoDup_iter.
  - apply (sorted_by_name_sorted (λ ch, ch_name ch.2)).
  - intros e c. rewrite sorted_by_name_perm, elem_of_iter, elem_of_collected.
    split.
    + intros (plot & Hp & Ht & Hn & (c' & [= -> ->] & Hc)%list_elem_of_fmap).
      exists plot. auto.
    + intros (plot & Hp & Ht & Hn & <- & Hc).
      exists plot. split_and!; [done..|].
      apply list_elem_of_fmap. by exists c.
Qed.

End Facts.

Lemma channels_of_the_wanted_plots_witness :
  get_channels id [strain_plot; old_plot] ["timeseries"; "spectrum"]
               {[ "new" := false; "old" := true ]}
  = inl InvalidKeyword
  ∧ ∃ out, get_channels id [strain_plot; old_plot]
                        ["timeseries"; "spectrum"] {[ "new" := false ]}
           = inr out
           ∧ NoDup out
           ∧ StronglySorted (λ a b, String.le (id a) (id b)) out.
Proof.
  split.
  - apply (proj1 (channels_of_the_wanted_plots id [strain_plot; old_plot]
                    ["timeseries"; "spectrum"]
                    {[ "new" := false; "old" := true ]}) "old"); [done|].
    by exists true.
  - destruct (proj2 (channels_of_the_wanted_plots id [strain_plot; old_plot]
                       ["timeseries"; "spectrum"] {[ "new" := false ]}))
      as (out & Hout & Hnd & Hs & _).
    + intros key [b [<- _]%lookup_singleton_Some]. done.
    + exists out. auto.
Defined.

End TabQueriesFacts.
